(** * The retryable, concurrency-limited sample download pipeline

    A shallow embedding of [packages/teams-agent/src/util.ts]:
    [sendRequestWithRetry], [sendRequestWithTimeout], [getSampleFileInfo],
    [downloadSampleFiles], [buildFileTree], [fileTreeAdd] and
    [runWithLimitedConcurrency].

    Promises are modelled by the way they settle.  Code that runs between
    two [await]s is a pure function; everything that happens while the code
    is suspended (a request settling, a timer firing, a callback finishing)
    is an event chosen by the environment, and the asynchronous functions
    are machines that consume a schedule of such events. *)

From Stdlib Require Import Ascii.
From stdpp Require Import base numbers option list strings gmap.

Local Open Scope Z_scope.

(** ** Part I: the embedding *)

(** *** Responses and thrown values *)

(** [AxiosResponse<T>]: the code reads [status] and [data], and passes the
    whole response to [JSON.stringify]; [stringifies] tells whether that
    call returns.  It throws a [TypeError] on an object with a cycle, as
    the responses of axios under Node are. *)
Record AxiosResponse (T : Type) := mkResponse {
  status : Z;
  data : T;
  stringifies : bool;
}.
Arguments mkResponse {T} _ _ _.
Arguments status {T} _.
Arguments data {T} _.
Arguments stringifies {T} _.

(** A value a request function rejects with.  The code inspects it through
    [e?.response?.status] and [axios.isCancel(e)] only; [ident] tells two
    thrown objects apart. *)
Record Thrown := mkThrown {
  isCancel : bool;
  response_status : option Z;
  ident : nat;
}.

(** The errors that travel through the functions of the file: the three
    [new Error(...)] objects it builds itself, the [TypeError] that
    [JSON.stringify(res)] throws, and whatever a request function rejected
    with. *)
Inductive JsError (T : Type) :=
| HttpRequestFailed (res : AxiosResponse T)
| StringifyTypeError (res : AxiosResponse T)
| BadTryLimits (tryLimits : Z)
| RequestTimeout
| External (e : Thrown).
Arguments HttpRequestFailed {T} _.
Arguments StringifyTypeError {T} _.
Arguments BadTryLimits {T} _.
Arguments RequestTimeout {T}.
Arguments External {T} _.

(** How the promise of one call of a request function settles.  The
    rejection value has type [any]: [None] is [undefined] or [null]. *)
Inductive Settled (T : Type) :=
| Fulfil (res : AxiosResponse T)
| Reject (e : option Thrown).
Arguments Fulfil {T} _.
Arguments Reject {T} _.

(** How an asynchronous function of the file ends. *)
Inductive Outcome (A E : Type) :=
| Return (a : A)
| Throw (e : E).
Arguments Return {A E} _.
Arguments Throw {A E} _.

Module Retry.
Section Retry.
Context {T : Type}.

(** [!status]: [undefined] and [0] are falsy. *)
Definition falsy (status : option Z) : bool :=
  match status with
  | None => true
  | Some s => s =? 0
  end.

(** [const canTry = (status) => !status || (status >= 500 && status < 600)] *)
Definition canTry (status : option Z) : bool :=
  falsy status ||
  match status with
  | Some s => (500 <=? s) && (s <? 600)
  | None => false
  end.

(** [res.status === 200 || res.status === 201] *)
Definition isSuccess (res : AxiosResponse T) : bool :=
  (status res =? 200) || (status res =? 201).

(** What one pass through the body of the [for] loop does with the
    settled request: either the function returns, or the loop variables
    [status] and [error] are assigned. *)
Inductive Body :=
| BReturn (res : AxiosResponse T)
| BNext (status : option Z) (error : option (JsError T)).

Definition loop_body (s : Settled T) : Body :=
  match s with
  | Fulfil res =>
      if isSuccess res then BReturn res
      else if stringifies res then
        (* error = new Error(...); status = res.status *)
        BNext (Some (status res)) (Some (HttpRequestFailed res))
      else
        (* JSON.stringify(res) throws inside the try, and the catch runs
           on its TypeError, which has no response *)
        BNext None (Some (StringifyTypeError res))
  | Reject e =>
      (* error = e; status = e?.response?.status *)
      BNext (e ≫= response_status) (External <$> e)
  end.

(** [i < tryLimits && canTry(status)] *)
Definition loop_cond (tryLimits : Z) (i : nat) (status : option Z) : bool :=
  (Z.of_nat i <? tryLimits) && canTry status.

(** [error ??= new Error(`RequestWithRetry got bad tryLimits: ...`)] *)
Definition after_loop (tryLimits : Z) (error : option (JsError T)) : JsError T :=
  default (BadTryLimits tryLimits) error.

(** The [for] loop.  [requestFn k] is how the [k]-th call of the request
    function settles; the result pairs the outcome with the number of
    calls made.  [None] only when the fuel runs out. *)
Fixpoint retry_loop (requestFn : nat → Settled T) (tryLimits : Z)
    (fuel i : nat) (status : option Z) (error : option (JsError T))
    : option (Outcome (AxiosResponse T) (JsError T) * nat) :=
  if loop_cond tryLimits i status then
    match fuel with
    | O => None
    | S fuel' =>
        match loop_body (requestFn i) with
        | BReturn res => Some (Return res, S i)
        | BNext status' error' =>
            retry_loop requestFn tryLimits fuel' (S i) status' error'
        end
    end
  else Some (Throw (after_loop tryLimits error), i).

Definition sendRequestWithRetry (requestFn : nat → Settled T) (tryLimits : Z)
    : option (Outcome (AxiosResponse T) (JsError T) * nat) :=
  retry_loop requestFn tryLimits (Z.to_nat tryLimits) 0 None None.

(** The status the loop records for a settled request that does not make
    the function return. *)
Definition attempt_status (s : Settled T) : option Z :=
  match s with
  | Fulfil res => if stringifies res then Some (status res) else None
  | Reject e => e ≫= response_status
  end.

(** The error the loop records for a settled request that does not make
    the function return. *)
Definition attempt_error (s : Settled T) : option (JsError T) :=
  match s with
  | Fulfil res =>
      Some (if stringifies res then HttpRequestFailed res
            else StringifyTypeError res)
  | Reject e => External <$> e
  end.

(** The status a call of the request function produced: that of the
    response it returned or rejected with, if any. *)
Definition produced_status (s : Settled T) : option Z :=
  match s with
  | Fulfil res => Some (status res)
  | Reject e => e ≫= response_status
  end.

(** A settled request that makes the function return. *)
Definition succeeds (s : Settled T) : bool :=
  match s with
  | Fulfil res => isSuccess res
  | Reject _ => false
  end.

(** What a run of the loop from iteration [i] amounts to: [n] calls were
    made in all, every call but the last one failed in a way [canTry]
    accepts, and the outcome is decided by the last call. *)
Definition loop_post (requestFn : nat → Settled T) (tryLimits : Z)
    (i : nat) (st : option Z) (er : option (JsError T))
    (out : Outcome (AxiosResponse T) (JsError T)) (n : nat) : Prop :=
  (i ≤ n)%nat ∧
  (n = i ∨ (Z.of_nat n ≤ tryLimits ∧ canTry st = true)) ∧
  (∀ k, (i ≤ k)%nat → (S k < n)%nat →
     succeeds (requestFn k) = false ∧
     canTry (attempt_status (requestFn k)) = true) ∧
  match out with
  | Return res =>
      (i < n)%nat ∧ requestFn (pred n) = Fulfil res ∧ isSuccess res = true
  | Throw e =>
      (n = i ∧ loop_cond tryLimits i st = false ∧ e = after_loop tryLimits er) ∨
      ((i < n)%nat ∧ succeeds (requestFn (pred n)) = false ∧
       loop_cond tryLimits n (attempt_status (requestFn (pred n))) = false ∧
       e = after_loop tryLimits (attempt_error (requestFn (pred n))))
  end.
End Retry.
End Retry.

(** *** [sendRequestWithTimeout] *)

Module Timeout.
Import Retry.
Section Timeout.
Context {T : Type}.

(** The timer made by [setTimeout]. *)
Inductive Timer :=
| Armed (timeoutInMs : Z)
| Cleared
| Fired.

(** Where the function is: suspended in the [await] of call [i] of the
    request function, inside the loop of [sendRequestWithRetry] with its
    variables [status] and [error], or settled. *)
Inductive Pc :=
| Awaiting (i : nat) (status : option Z) (error : option (JsError T))
| Done (out : Outcome (AxiosResponse T) (JsError T)).

(** What the function owns besides its control state. *)
Record Env := mkEnv {
  timer : Timer;
  token : nat;              (* source.token *)
  cancelRequested : bool;   (* source.cancel() has run *)
  calls : list nat;         (* the token passed to each call of requestFn *)
}.

Record State := mkState {
  env : Env;
  pc : Pc;
}.

Inductive Event :=
| TimerFires
| RequestSettles (s : Settled T).

Definition clearTimeout (t : Timer) : Timer :=
  match t with
  | Armed _ => Cleared
  | _ => t
  end.

(** [axios.isCancel(err)] *)
Definition axios_isCancel (err : JsError T) : bool :=
  match err with
  | External e => isCancel e
  | _ => false
  end.

(** The [try]/[catch] around the awaited [sendRequestWithRetry]. *)
Definition settle (en : Env) (out : Outcome (AxiosResponse T) (JsError T))
    : State :=
  match out with
  | Return res =>
      mkState (mkEnv (clearTimeout (timer en)) (token en)
                     (cancelRequested en) (calls en))
              (Done (Return res))
  | Throw err =>
      mkState en (Done (Throw (if axios_isCancel err then RequestTimeout
                               else err)))
  end.

(** The head of the loop of [sendRequestWithRetry]: either
    [requestFn(source.token)] is called and awaited, or the loop is left
    and the function throws. *)
Definition enter (tryLimits : Z) (en : Env) (i : nat)
    (status : option Z) (error : option (JsError T)) : State :=
  if loop_cond tryLimits i status then
    mkState (mkEnv (timer en) (token en) (cancelRequested en)
                   (calls en ++ [token en]))
            (Awaiting i status error)
  else settle en (Throw (after_loop tryLimits error)).

(** [sendRequestWithTimeout] up to its first suspension: the source is
    made, the timer is armed and the loop is entered. *)
Definition sendRequestWithTimeout (tok : nat) (timeoutInMs tryLimits : Z)
    : State :=
  enter tryLimits (mkEnv (Armed timeoutInMs) tok false []) 0 None None.

Definition step (tryLimits : Z) (ev : Event) (st : State) : option State :=
  match ev with
  | TimerFires =>
      (* () => { source.cancel(); } *)
      match timer (env st) with
      | Armed _ =>
          Some (mkState (mkEnv Fired (token (env st)) true (calls (env st)))
                        (pc st))
      | _ => None
      end
  | RequestSettles s =>
      match pc st with
      | Awaiting i status error =>
          match loop_body s with
          | BReturn res => Some (settle (env st) (Return res))
          | BNext status' error' =>
              Some (enter tryLimits (env st) (S i) status' error')
          end
      | Done _ => None
      end
  end.

Fixpoint run (tryLimits : Z) (sched : list Event) (st : State)
    : option State :=
  match sched with
  | [] => Some st
  | ev :: sched' => step tryLimits ev st ≫= run tryLimits sched'
  end.

(** How often the timer fires in a schedule. *)
Fixpoint count_fires (sched : list Event) : nat :=
  match sched with
  | [] => 0
  | TimerFires :: sched' => S (count_fires sched')
  | RequestSettles _ :: sched' => count_fires sched'
  end.

(** The settlements of the request function in a schedule, in order. *)
Definition settlements (sched : list Event) : list (Settled T) :=
  omap (λ ev, match ev with
              | RequestSettles s => Some s
              | TimerFires => None
              end) sched.
End Timeout.
End Timeout.

(** *** [getSampleFileInfo] *)

Module Sample.
Import Retry.

Record SampleUrlInfo := mkUrlInfo {
  owner : string;
  repository : string;
  ref : string;
  dir : string;
}.

Record TreeNode := mkTreeNode {
  path : string;
  type : string;
}.

(** The body of the listing response.  The code reads it through
    [fileInfo?.tree] and [fileInfo?.sha], so either field may be absent. *)
Record SampleFileInfo := mkFileInfo {
  tree : option (list TreeNode);
  sha : option string;
}.

(** What [getSampleFileInfo] resolves to. *)
Record SampleFiles := mkSampleFiles {
  samplePaths : option (list string);
  fileUrlPrefix : string;
}.

(** [`${x}`] for [x : string | undefined]. *)
Definition template (x : option string) : string :=
  default "undefined"%string x.

(** [node.path.startsWith(`${urlInfo.dir}/`) && node.type !== "tree"] *)
Definition isSampleFile (urlInfo : SampleUrlInfo) (node : TreeNode) : bool :=
  String.prefix (dir urlInfo +:+ "/") (path node) &&
  negb (String.eqb (type node) "tree").

Definition fileInfoUrl (urlInfo : SampleUrlInfo) : string :=
  "https://api.github.com/repos/" +:+ owner urlInfo +:+ "/" +:+
  repository urlInfo +:+ "/git/trees/" +:+ ref urlInfo +:+ "?recursive=1".

(** [`https://raw.githubusercontent.com/${owner}/${repository}/${rev}/`] *)
Definition rawUrlPrefix (urlInfo : SampleUrlInfo) (rev : string) : string :=
  "https://raw.githubusercontent.com/" +:+ owner urlInfo +:+ "/" +:+
  repository urlInfo +:+ "/" +:+ rev +:+ "/".

(** [axios_get url k] is how the [k]-th [axios.get(url)] settles; the
    body of a response ([.data]) may be [undefined]. *)
Definition getSampleFileInfo
    (axios_get : string → nat → Settled (option SampleFileInfo))
    (urlInfo : SampleUrlInfo) (retryLimits : Z)
    : option (Outcome SampleFiles (JsError (option SampleFileInfo))) :=
  match sendRequestWithRetry (axios_get (fileInfoUrl urlInfo)) retryLimits with
  | None => None
  | Some (Throw e, _) => Some (Throw e)
  | Some (Return res, _) =>
      let fileInfo := data res in
      let samplePaths :=
        (λ t, path <$> List.filter (isSampleFile urlInfo) t) <$>
        (fileInfo ≫= tree) in
      let fileUrlPrefix :=
        rawUrlPrefix urlInfo (template (fileInfo ≫= sha)) in
      Some (Return (mkSampleFiles samplePaths fileUrlPrefix))
  end.
End Sample.

(** *** Node's [path] module *)

Module Path.

(** The functions of Node's [path] the code calls.  Which implementation
    [path] is bound to ([path.posix] or [path.win32]) depends on the
    platform, and [relative] on the working directory. *)
Class PathModule := {
  sep : string;
  basename : string → string;
  dirname : string → string;
  join : string → string → string;
  relative : string → string → string;
}.

Definition slash : ascii := "/"%char.

(** [s.split(c)] for a separator of one character. *)
Fixpoint split_chars (c : ascii) (l : list ascii) : list (list ascii) :=
  match l with
  | [] => [[]]
  | x :: l' =>
      if Ascii.eqb x c then [] :: split_chars c l'
      else match split_chars c l' with
           | seg :: segs => (x :: seg) :: segs
           | [] => [[x]]
           end
  end.

Definition split (c : ascii) (s : string) : list string :=
  String.string_of_list_ascii <$> split_chars c (String.list_ascii_of_string s).

(** [segs.join("/")] *)
Fixpoint join_segments (segs : list string) : string :=
  match segs with
  | [] => ""
  | [seg] => seg
  | seg :: rest => seg +:+ "/" +:+ join_segments rest
  end.

(** [normalizeString] of [path.posix], on the segments of the path:
    empty segments and [.] disappear, [..] removes the segment before it,
    or stays when there is none to remove and the path is relative.
    [acc] is the result so far, last segment first. *)
Fixpoint normalize_segments (allowAboveRoot : bool) (acc segs : list string)
    : list string :=
  match segs with
  | [] => rev acc
  | seg :: rest =>
      if decide (seg = "" ∨ seg = ".") then
        normalize_segments allowAboveRoot acc rest
      else if decide (seg = "..") then
        match acc with
        | top :: acc' =>
            if decide (top = "..")
            then normalize_segments allowAboveRoot (seg :: acc) rest
            else normalize_segments allowAboveRoot acc' rest
        | [] =>
            if allowAboveRoot
            then normalize_segments allowAboveRoot [seg] rest
            else normalize_segments allowAboveRoot [] rest
        end
      else normalize_segments allowAboveRoot (seg :: acc) rest
  end.

Definition isAbsolute (p : string) : bool :=
  match p with
  | String c _ => Ascii.eqb c slash
  | EmptyString => false
  end.

Definition trailingSeparator (p : string) : bool :=
  match rev (String.list_ascii_of_string p) with
  | c :: _ => Ascii.eqb c slash
  | [] => false
  end.

(** [path.posix.normalize] *)
Definition posix_normalize (p : string) : string :=
  if decide (p = "") then "."
  else
    let body :=
      join_segments (normalize_segments (negb (isAbsolute p)) [] (split slash p)) in
    if decide (body = "") then
      if isAbsolute p then "/" else if trailingSeparator p then "./" else "."
    else
      let body := if trailingSeparator p then body +:+ "/" else body in
      if isAbsolute p then "/" +:+ body else body.

(** [path.posix.join(a, b)] *)
Definition posix_join (a b : string) : string :=
  if decide (a = "") then
    if decide (b = "") then "." else posix_normalize b
  else if decide (b = "") then posix_normalize a
  else posix_normalize (a +:+ "/" +:+ b).

(** [path.posix.resolve(p)] in the working directory [cwd] (an absolute
    path), as the segments below the root. *)
Definition posix_resolve (cwd p : string) : list string :=
  normalize_segments false []
    (split slash (if isAbsolute p then p else cwd +:+ "/" +:+ p)).

Fixpoint strip_common (from to : list string) : list string * list string :=
  match from, to with
  | f :: from', t :: to' =>
      if decide (f = t) then strip_common from' to' else (from, to)
  | _, _ => (from, to)
  end.

(** [path.posix.relative(from, to)] *)
Definition posix_relative (cwd from to : string) : string :=
  if decide (from = to) then ""
  else
    let '(up, down) := strip_common (posix_resolve cwd from)
                                    (posix_resolve cwd to) in
    join_segments (replicate (length up) ".."%string ++ down).

(** The separators at the head of a list of characters removed. *)
Fixpoint drop_slashes (l : list ascii) : list ascii :=
  match l with
  | c :: l' => if Ascii.eqb c slash then drop_slashes l' else l
  | [] => []
  end.

(** The characters of a list before its first separator, and the rest. *)
Fixpoint take_name (l : list ascii) : list ascii :=
  match l with
  | c :: l' => if Ascii.eqb c slash then [] else c :: take_name l'
  | [] => []
  end.

Fixpoint drop_name (l : list ascii) : list ascii :=
  match l with
  | c :: l' => if Ascii.eqb c slash then l else drop_name l'
  | [] => []
  end.

(** [path.posix.basename(p)]: the path is read from its end; trailing
    separators are skipped, and the name is what comes before the next
    separator. *)
Definition posix_basename (p : string) : string :=
  let r := drop_slashes (rev (String.list_ascii_of_string p)) in
  String.string_of_list_ascii (rev (take_name r)).

(** [path.posix.dirname(p)]: the path is read from its end down to its
    second character; trailing separators and the last name are skipped,
    and the result is what comes before the separator found next.  When
    there is none the result is the root or [.]. *)
Definition posix_dirname (p : string) : string :=
  match String.list_ascii_of_string p with
  | [] => "."
  | c0 :: rest =>
      let hasRoot := Ascii.eqb c0 slash in
      match drop_name (drop_slashes (rev rest)) with
      | [] => if hasRoot then "/" else "."
      | _ :: before =>
          if hasRoot && bool_decide (before = []) then "//"
          else String.string_of_list_ascii (c0 :: rev before)
      end
  end.

(** [path.posix], run in the working directory [cwd]. *)
Definition posix (cwd : string) : PathModule := {|
  sep := "/";
  basename := posix_basename;
  dirname := posix_dirname;
  join := posix_join;
  relative := posix_relative cwd;
|}.
End Path.

(** *** [fileTreeAdd], [downloadSampleFiles] and [buildFileTree] *)

#[local] Set Warnings "-register-all".

(** [vscode.ChatResponseFileTree]: a name and an optional array of
    children. *)
Inductive FileTree :=
| Node (name : string) (children : option (list FileTree)).

Definition name (t : FileTree) : string :=
  match t with Node n _ => n end.

Definition children (t : FileTree) : option (list FileTree) :=
  match t with Node _ c => c end.

(** Two trees with the same nodes, the children of a node in any order. *)
Inductive tree_perm : FileTree → FileTree → Prop :=
| tree_perm_file n : tree_perm (Node n None) (Node n None)
| tree_perm_dir n cs ds ds' :
    Forall2 tree_perm cs ds → ds ≡ₚ ds' →
    tree_perm (Node n (Some cs)) (Node n (Some ds')).

Definition forest_perm (cs ds' : list FileTree) : Prop :=
  ∃ ds, Forall2 tree_perm cs ds ∧ ds ≡ₚ ds'.

Module Tree.
Import Retry Path.
Section Tree.
Context `{PathModule}.

(** [parent.children?.push(child)] *)
Definition push (parent child : FileTree) : FileTree :=
  Node (name parent) ((λ cs, cs ++ [child]) <$> children parent).

(** The loop of [fileTreeAdd] over [segments] followed by the final
    [push] of the file, as the tree that replaces [parent].  The node the
    loop moves to is a child of [parent] and is updated in place; a node
    that was found without [children], or made under a parent without
    [children], is attached nowhere, and what is added below it is lost. *)
Fixpoint walk (segments : list string) (filename : string)
    (parent : FileTree) : FileTree :=
  match segments with
  | [] => push parent (Node filename None)
  | segment :: rest =>
      if decide (segment = ".") then walk rest filename parent
      else
        match children parent with
        | None => parent
        | Some cs =>
            match list_find (λ child, name child = segment) cs with
            | Some (k, _) =>
                Node (name parent) (Some (alter (walk rest filename) k cs))
            | None =>
                Node (name parent)
                     (Some (cs ++ [walk rest filename (Node segment (Some []))]))
            end
        end
  end.

(** [path.sep === "\\" ? folderName.split("\\") : folderName.split("/")] *)
Definition segments_of (folderName : string) : list string :=
  if decide (sep = "\") then split "\"%char folderName
  else split "/"%char folderName.

Definition fileTreeAdd (root : FileTree) (relativePath filePath : string)
    : FileTree :=
  let filename := basename relativePath in
  let folderName := dirname relativePath in
  let segments := segments_of folderName in
  walk segments filename root.

(** The node the loop of [fileTreeAdd] reaches in a tree for [segments],
    when every segment finds a child. *)
Fixpoint descend (segments : list string) (t : FileTree) : option FileTree :=
  match segments with
  | [] => Some t
  | segment :: rest =>
      if decide (segment = ".") then descend rest t
      else
        cs ← children t;
        kc ← list_find (λ child, name child = segment) cs;
        descend rest kc.2
  end.

(** The nodes the loop meets in a tree for [segments], the tree itself
    included, all have [children]: no segment finds a file. *)
Fixpoint dirs_along (segments : list string) (t : FileTree) : bool :=
  match children t with
  | None => false
  | Some cs =>
      match segments with
      | [] => true
      | segment :: rest =>
          if decide (segment = ".") then dirs_along rest t
          else match list_find (λ child, name child = segment) cs with
               | Some (_, child) => dirs_along rest child
               | None => true
               end
      end
  end.

Definition is_dir (t : FileTree) : bool :=
  match children t with Some _ => true | None => false end.

(** No directory of the tree has two directories of the same name among
    its children. *)
Fixpoint nodup_dirs (t : FileTree) : Prop :=
  match t with
  | Node _ None => True
  | Node _ (Some cs) =>
      NoDup (name <$> List.filter is_dir cs) ∧
      (fix all (l : list FileTree) : Prop :=
         match l with
         | [] => True
         | c :: l' => nodup_dirs c ∧ all l'
         end) cs
  end.

Context {D : Type}.

(** The local disk: the bytes written at each path. *)
Definition Disk : Type := gmap string D.

(** The request of a download callback and what follows it when it
    succeeds; [axios_get url k] is how the [k]-th request of [url]
    settles. *)
Definition fetch (axios_get : string → nat → Settled D)
    (url : string) (retryLimits : Z)
    : option (Outcome (AxiosResponse D) (JsError D)) :=
  fst <$> sendRequestWithRetry (axios_get url) retryLimits.

(** [downloadCallback] of [downloadSampleFiles] *)
Definition downloadSampleFiles_callback
    (axios_get : string → nat → Settled D)
    (fileUrlPrefix dstPath relativePath : string) (retryLimits : Z)
    (samplePath : string) (disk : Disk)
    : option (Outcome Disk (JsError D)) :=
  match fetch axios_get (fileUrlPrefix +:+ samplePath) retryLimits with
  | None => None
  | Some (Throw e) => Some (Throw e)
  | Some (Return file) =>
      let filePath :=
        join dstPath (relative (relativePath +:+ "/") samplePath) in
      Some (Return (<[filePath := data file]> disk))
  end.

(** [downloadCallback] of [buildFileTree], on the shared [root] and the
    disk. *)
Definition buildFileTree_callback
    (axios_get : string → nat → Settled D)
    (fileUrlPrefix dstPath relativeFolderName : string) (retryLimits : Z)
    (samplePath : string) (st : FileTree * Disk)
    : option (Outcome (FileTree * Disk) (JsError D)) :=
  match fetch axios_get (fileUrlPrefix +:+ samplePath) retryLimits with
  | None => None
  | Some (Throw e) => Some (Throw e)
  | Some (Return file) =>
      let relativePath := relative (relativeFolderName +:+ "/") samplePath in
      let filePath := join dstPath samplePath in
      Some (Return (fileTreeAdd st.1 relativePath filePath,
                    <[filePath := data file]> st.2))
  end.

(** The callbacks run one after the other in the order [completion], the
    order in which their requests settle: a callback runs without
    suspension from the end of its request to its [fileTreeAdd]. *)
Fixpoint run_callbacks {S : Type}
    (callback : string → S → option (Outcome S (JsError D)))
    (completion : list string) (st : S) : option (Outcome S (JsError D)) :=
  match completion with
  | [] => Some (Return st)
  | samplePath :: rest =>
      match callback samplePath st with
      | None => None
      | Some (Throw e) => Some (Throw e)
      | Some (Return st') => run_callbacks callback rest st'
      end
  end.

(** [downloadSampleFiles], the requests of the sample paths settling in
    the order [completion]. *)
Definition downloadSampleFiles (axios_get : string → nat → Settled D)
    (fileUrlPrefix : string) (completion : list string)
    (dstPath relativePath : string) (retryLimits : Z) (disk : Disk)
    : option (Outcome Disk (JsError D)) :=
  run_callbacks
    (downloadSampleFiles_callback axios_get fileUrlPrefix dstPath
       relativePath retryLimits)
    completion disk.

(** [buildFileTree], the requests of the sample paths settling in the
    order [completion]; the result is [root.children ?? []] and the
    disk. *)
Definition buildFileTree (axios_get : string → nat → Settled D)
    (fileUrlPrefix : string) (completion : list string)
    (dstPath relativeFolderName : string) (retryLimits : Z) (disk : Disk)
    : option (Outcome (list FileTree * Disk) (JsError D)) :=
  let root := Node relativeFolderName (Some []) in
  match run_callbacks
          (buildFileTree_callback axios_get fileUrlPrefix dstPath
             relativeFolderName retryLimits)
          completion (root, disk) with
  | None => None
  | Some (Throw e) => Some (Throw e)
  | Some (Return (root', disk')) =>
      Some (Return (default [] (children root'), disk'))
  end.
End Tree.
End Tree.

(** *** [runWithLimitedConcurrency] *)

Module Limiter.
Section Limiter.
Context {T E : Type}.

(** How a promise is settled. *)
Inductive Res :=
| Fulfilled
| Rejected (e : E).

(** One iteration of the loop: the promise returned by [callback(item)]
    and the promise [p] chained on it, which is the one put on the queue.
    [None] is a pending promise. *)
Record Task := mkTask {
  item : T;
  cb : option Res;
  p : option Res;
}.

(** Where the function is: running the loop, suspended in
    [await Promise.race(queue)] or in [await Promise.all(queue)], or
    settled.  A suspended function remembers the promises it waits for
    and how the awaited promise has settled, if it has. *)
Inductive Pc :=
| Dispatching
| AwaitRace (waiting : list nat) (won : option Res)
| AwaitAll (waiting : list nat) (failed : option E)
| Returned
| Threw (e : E).

Record State := mkState {
  todo : list T;         (* the items the loop has not reached *)
  tasks : list Task;     (* the iterations so far, oldest first *)
  queue : list nat;      (* the array [queue], as indices into tasks *)
  pc : Pc;
}.

Inductive Event :=
| Tick                          (* the function itself goes on *)
| CallbackSettles (i : nat) (r : Res)
| Handlers (i : nat).           (* the .then/.catch handlers of p run *)

(** [Handlers i] stands for the handler of iteration [i] together with
    the settling of [p] that follows it.  In the code [p] settles one job
    after the [.then] handler has taken it out of the array; the function
    reads the array, and [p] only through the array or through a
    [Promise.race] or [Promise.all] that it resumes from after [p] has
    settled, so that the step in between shows in nothing it does. *)

Definition settled_p (tasks : list Task) (i : nat) : option Res :=
  tasks !! i ≫= p.

(** [queue.splice(queue.indexOf(p), 1)]: [indexOf] is [-1] when [p] is
    not in the array, and [splice(-1, 1)] removes the last element. *)
Definition splice_indexOf (i : nat) (queue : list nat) : list nat :=
  match list_find (λ j, j = i) queue with
  | Some (k, _) => delete k queue
  | None => delete (length queue - 1)%nat queue
  end.

(** [Promise.race(queue)] at the time of the call: when members have
    settled already, the first of them in the array decides. *)
Definition race (tasks : list Task) (queue : list nat) : Pc :=
  AwaitRace queue (head (omap (settled_p tasks) queue)).

Definition rejection (r : option Res) : option E :=
  match r with
  | Some (Rejected e) => Some e
  | _ => None
  end.

(** [Promise.all(queue)] at the time of the call: when members have
    rejected already, the first of them in the array decides. *)
Definition all (tasks : list Task) (queue : list nat) : Pc :=
  AwaitAll queue (head (omap (λ i, rejection (settled_p tasks i)) queue)).

Definition is_fulfilled (r : option Res) : bool :=
  match r with
  | Some Fulfilled => true
  | _ => false
  end.

Definition fulfilled (tasks : list Task) (i : nat) : bool :=
  is_fulfilled (settled_p tasks i).

(** The function goes on: one iteration of the loop up to the [await]
    it may contain, or the resumption after an [await]. *)
Definition tick (concurrencyLimit : Z) (st : State) : option State :=
  match pc st with
  | Dispatching =>
      match todo st with
      | item :: rest =>
          let tasks' := tasks st ++ [mkTask item None None] in
          let queue' := queue st ++ [length (tasks st)] in
          if concurrencyLimit <=? Z.of_nat (length queue') then
            Some (mkState rest tasks' queue' (race tasks' queue'))
          else Some (mkState rest tasks' queue' Dispatching)
      | [] =>
          Some (mkState [] (tasks st) (queue st) (all (tasks st) (queue st)))
      end
  | AwaitRace _ (Some Fulfilled) =>
      Some (mkState (todo st) (tasks st) (queue st) Dispatching)
  | AwaitRace _ (Some (Rejected e)) =>
      Some (mkState (todo st) (tasks st) (queue st) (Threw e))
  | AwaitRace _ None => None
  | AwaitAll _ (Some e) =>
      Some (mkState (todo st) (tasks st) (queue st) (Threw e))
  | AwaitAll waiting None =>
      if forallb (fulfilled (tasks st)) waiting
      then Some (mkState (todo st) (tasks st) (queue st) Returned)
      else None
  | Returned | Threw _ => None
  end.

(** What the settling of [p] of iteration [i] does to the awaited
    promise. *)
Definition notify (i : nat) (r : Res) (pc : Pc) : Pc :=
  match pc with
  | AwaitRace waiting None =>
      if bool_decide (i ∈ waiting) then AwaitRace waiting (Some r) else pc
  | AwaitAll waiting None =>
      if bool_decide (i ∈ waiting)
      then AwaitAll waiting (rejection (Some r)) else pc
  | _ => pc
  end.

Definition step (concurrencyLimit : Z) (ev : Event) (st : State)
    : option State :=
  match ev, pc st with
  | Tick, _ => tick concurrencyLimit st
  | _, Dispatching => None      (* nothing else runs while the loop runs *)
  | CallbackSettles i r, _ =>
      match tasks st !! i with
      | Some (mkTask it None pp) =>
          Some (mkState (todo st) (<[i := mkTask it (Some r) pp]> (tasks st))
                        (queue st) (pc st))
      | _ => None
      end
  | Handlers i, _ =>
      match tasks st !! i with
      | Some (mkTask it (Some r) None) =>
          let tasks' := <[i := mkTask it (Some r) (Some r)]> (tasks st) in
          let queue' :=
            match r with
            | Fulfilled => splice_indexOf i (queue st)   (* .then handler *)
            | Rejected _ => queue st                       (* .catch rethrows *)
            end in
          Some (mkState (todo st) tasks' queue' (notify i r (pc st)))
      | _ => None
      end
  end.

Fixpoint run (concurrencyLimit : Z) (sched : list Event) (st : State)
    : option State :=
  match sched with
  | [] => Some st
  | ev :: sched' => step concurrencyLimit ev st ≫= run concurrencyLimit sched'
  end.

(** The call [runWithLimitedConcurrency(items, callback, limit)]: the
    queue is empty and the loop is about to start. *)
Definition runWithLimitedConcurrency (items : list T) : State :=
  mkState items [] [] Dispatching.

(** The callbacks that have been started and have not settled. *)
Definition in_flight (st : State) : nat :=
  length (filter (λ t, cb t = None) (tasks st)).

(** Nothing but the settling of a callback can happen. *)
Definition quiescent (concurrencyLimit : Z) (st : State) : Prop :=
  step concurrencyLimit Tick st = None ∧
  ∀ i, step concurrencyLimit (Handlers i) st = None.

(** The steps that need no callback to settle. *)
Definition internal (ev : Event) : Prop :=
  match ev with
  | CallbackSettles _ _ => False
  | _ => True
  end.

(** [p] settles after the promise of the callback, and in the same way. *)
Definition task_ok (t : Task) : Prop :=
  match cb t, p t with
  | _, None => True
  | Some r, Some r' => r = r'
  | None, Some _ => False
  end.

Definition unfulfilled (t : Task) : Prop := is_fulfilled (p t) = false.

#[global] Instance unfulfilled_dec (t : Task) : Decision (unfulfilled t).
Proof. unfold unfulfilled. apply _. Defined.

(** A suspended or settled function is consistent with the promises it
    waits or waited for; [n] is the number of iterations so far and [sp i]
    tells how [p] of iteration [i] has settled. *)
Definition pc_ok (todo : list T) (n : nat) (sp : nat → option Res)
    (queue : list nat) (pc : Pc) : Prop :=
  match pc with
  | Dispatching => True
  | AwaitRace waiting won =>
      waiting ≠ [] ∧
      (∀ i, i ∈ waiting → (i < n)%nat) ∧
      (∀ i, i ∈ queue → i ∈ waiting) ∧
      match won with
      | None => ∀ i, i ∈ waiting → sp i = None
      | Some Fulfilled => True
      | Some (Rejected e) => ∃ i, sp i = Some (Rejected e)
      end
  | AwaitAll waiting failed =>
      todo = [] ∧
      (∀ i, i ∈ waiting → (i < n)%nat) ∧
      (∀ i, i ∈ queue → i ∈ waiting) ∧
      match failed with
      | None => ∀ i e, i ∈ waiting → sp i ≠ Some (Rejected e)
      | Some e => ∃ i, sp i = Some (Rejected e)
      end
  | Returned => todo = [] ∧ ∀ i, (i < n)%nat → sp i = Some Fulfilled
  | Threw e => ∃ i, sp i = Some (Rejected e)
  end.

(** What holds of every state of a run on [items]: the iterations so far
    are those of a prefix of the items; the queue holds, once each, the
    promises [p] that are not fulfilled; and the control state is
    consistent with the promises. *)
Record Inv (items : list T) (st : State) : Prop := mkInv {
  inv_items : (item <$> tasks st) ++ todo st = items;
  inv_tasks : Forall task_ok (tasks st);
  inv_nodup : NoDup (queue st);
  inv_queue : ∀ i, i ∈ queue st ↔
                   (i < length (tasks st))%nat ∧ fulfilled (tasks st) i = false;
  inv_length : length (queue st) = length (filter unfulfilled (tasks st));
  inv_pc : pc_ok (todo st) (length (tasks st)) (settled_p (tasks st))
                 (queue st) (pc st);
}.

(** With a limit of at least one, the queue never holds more promises
    than the limit, and fewer when the loop is about to go on. *)
Definition bounded (concurrencyLimit : Z) (st : State) : Prop :=
  Z.of_nat (length (queue st)) ≤ concurrencyLimit ∧
  match pc st with
  | Dispatching | AwaitRace _ (Some Fulfilled) =>
      Z.of_nat (length (queue st)) < concurrencyLimit
  | _ => True
  end.

(** What is left to do: it decreases with every step. *)
Definition measure (st : State) : nat :=
  4 * length (todo st)
  + length (filter (λ t, cb t = None) (tasks st))
  + length (filter (λ t, p t = None) (tasks st))
  + match pc st with
    | AwaitRace _ _ => 3
    | Dispatching => 2
    | AwaitAll _ _ => 1
    | Returned | Threw _ => 0
    end.
End Limiter.
End Limiter.

(** *** The download callbacks under [runWithLimitedConcurrency] *)

(** [downloadSampleFiles] and [buildFileTree] hand their callback to
    [runWithLimitedConcurrency].  A callback is suspended three times: in
    its request, in [fs.ensureFile] and in [fs.writeFile]; what it does
    between two suspensions happens at once.  The machine below runs the
    callbacks inside the machine of [runWithLimitedConcurrency]. *)
Module Pipeline.
Import Retry Path Tree.
Section Pipeline.
Context `{PathModule} {D : Type}.
Variable axios_get : string → nat → Settled D.
Variables fileUrlPrefix dstPath folder : string.
Variable retryLimits : Z.
(** What [fs.ensureFile] puts into a file it creates. *)
Variable emptyFile : D.

(** The function that made the callback. *)
Inductive Caller :=
| DownloadSampleFiles
| BuildFileTree.

(** [filePath] of the callback. *)
Definition filePath (c : Caller) (samplePath : string) : string :=
  match c with
  | DownloadSampleFiles =>
      join dstPath (relative (folder +:+ "/") samplePath)
  | BuildFileTree => join dstPath samplePath
  end.

(** What the callback does to the shared [root] between its request and
    [fs.ensureFile]. *)
Definition grow (c : Caller) (root : FileTree) (samplePath : string)
    : FileTree :=
  match c with
  | DownloadSampleFiles => root
  | BuildFileTree =>
      fileTreeAdd root (relative (folder +:+ "/") samplePath)
                  (join dstPath samplePath)
  end.

(** Where a callback is. *)
Inductive Phase :=
| Fetching                              (* await sendRequestWithRetry(...) *)
| Ensuring (file : AxiosResponse D)     (* await fs.ensureFile(filePath) *)
| Writing (file : AxiosResponse D)      (* await fs.writeFile(filePath, ...) *)
| Over.                                 (* settled *)

Definition is_over (ph : Phase) : bool :=
  match ph with Over => true | _ => false end.

Record State := mkState {
  lim : Limiter.State (T := string) (E := JsError D);
  phases : list Phase;     (* one for each iteration, oldest first *)
  root : FileTree;
  disk : gmap string D;
  fetched : list nat;      (* history: the iterations whose request has
                              succeeded, in the order in which it did *)
}.

Inductive Event :=
| Go                                      (* the function itself goes on *)
| Fetched (i : nat)                       (* the request has settled *)
| Ensured (i : nat) (err : option Thrown) (* fs.ensureFile has settled *)
| Written (i : nat) (err : option Thrown) (* fs.writeFile has settled *)
| Then (i : nat).                         (* the handlers of p run *)

(** [fs.ensureFile(filePath)]: an existing file is left as it is. *)
Definition ensureFile (filePath : string) (disk : gmap string D)
    : gmap string D :=
  match disk !! filePath with
  | Some _ => disk
  | None => <[filePath := emptyFile]> disk
  end.

(** Nothing of a callback runs while the loop of
    [runWithLimitedConcurrency] runs. *)
Definition suspended (st : State) : bool :=
  match Limiter.pc (lim st) with
  | Limiter.Dispatching => false
  | _ => true
  end.

(** Callback [i] settles. *)
Definition settle_callback (concurrencyLimit : Z) (i : nat)
    (r : Limiter.Res (E := JsError D)) (disk' : gmap string D) (st : State)
    : option State :=
  l' ← Limiter.step concurrencyLimit (Limiter.CallbackSettles i r) (lim st);
  Some (mkState l' (<[i := Over]> (phases st)) (root st) disk' (fetched st)).

Definition step (c : Caller) (concurrencyLimit : Z) (ev : Event) (st : State)
    : option State :=
  match ev with
  | Go =>
      l' ← Limiter.step concurrencyLimit Limiter.Tick (lim st);
      (* callback(item), up to its first await *)
      let started := (length (Limiter.tasks l')
                      - length (Limiter.tasks (lim st)))%nat in
      Some (mkState l' (phases st ++ replicate started Fetching)
                    (root st) (disk st) (fetched st))
  | Then i =>
      l' ← Limiter.step concurrencyLimit (Limiter.Handlers i) (lim st);
      Some (mkState l' (phases st) (root st) (disk st) (fetched st))
  | Fetched i =>
      match phases st !! i, Limiter.tasks (lim st) !! i with
      | Some Fetching, Some t =>
          let samplePath := Limiter.item t in
          match fetch axios_get (fileUrlPrefix +:+ samplePath) retryLimits with
          | Some (Return file) =>
              if suspended st then
                Some (mkState (lim st) (<[i := Ensuring file]> (phases st))
                              (grow c (root st) samplePath) (disk st)
                              (fetched st ++ [i]))
              else None
          | Some (Throw e) =>
              settle_callback concurrencyLimit i (Limiter.Rejected e)
                              (disk st) st
          | None => None
          end
      | _, _ => None
      end
  | Ensured i err =>
      match phases st !! i, Limiter.tasks (lim st) !! i with
      | Some (Ensuring file), Some t =>
          match err with
          | None =>
              if suspended st then
                Some (mkState (lim st) (<[i := Writing file]> (phases st))
                              (root st)
                              (ensureFile (filePath c (Limiter.item t))
                                          (disk st))
                              (fetched st))
              else None
          | Some e =>
              settle_callback concurrencyLimit i
                              (Limiter.Rejected (External e)) (disk st) st
          end
      | _, _ => None
      end
  | Written i err =>
      match phases st !! i, Limiter.tasks (lim st) !! i with
      | Some (Writing file), Some t =>
          match err with
          | None =>
              settle_callback concurrencyLimit i Limiter.Fulfilled
                (<[filePath c (Limiter.item t) := data file]> (disk st)) st
          | Some e =>
              settle_callback concurrencyLimit i
                              (Limiter.Rejected (External e)) (disk st) st
          end
      | _, _ => None
      end
  end.

Fixpoint run (c : Caller) (concurrencyLimit : Z) (sched : list Event)
    (st : State) : option State :=
  match sched with
  | [] => Some st
  | ev :: sched' =>
      step c concurrencyLimit ev st ≫= run c concurrencyLimit sched'
  end.

(** The call of [downloadSampleFiles] or of [buildFileTree], up to the
    call of [runWithLimitedConcurrency]. *)
Definition call (samplePaths : list string) (disk : gmap string D) : State :=
  mkState (Limiter.runWithLimitedConcurrency samplePaths) []
          (Node folder (Some [])) disk [].

(** What the caller does when [runWithLimitedConcurrency] has settled:
    [buildFileTree] returns [root.children ?? []], and an error is passed
    on. *)
Definition result (st : State)
    : option (Outcome (list FileTree) (JsError D)) :=
  match Limiter.pc (lim st) with
  | Limiter.Returned => Some (Return (default [] (children (root st))))
  | Limiter.Threw e => Some (Throw e)
  | _ => None
  end.

(** The callbacks that have not settled. *)
Definition active (st : State) : nat :=
  length (List.filter (λ ph, negb (is_over ph)) (phases st)).

(** The sample paths in the order in which their requests succeeded. *)
Definition completion (samplePaths : list string) (st : State)
    : list string :=
  omap (λ i, samplePaths !! i) (fetched st).

(** The names of the folders and of the file under which the callback of
    [buildFileTree] has [fileTreeAdd] enter a sample path. *)
Definition tree_entry (samplePath : string) : list string :=
  let relativePath := relative (folder +:+ "/") samplePath in
  filter (λ segment, segment ≠ ".") (segments_of (dirname relativePath))
  ++ [basename relativePath].

(** The file of a sample path is stored: its place on the disk holds what
    a request gave for a sample path with this place. *)
Definition stored (c : Caller) (samplePaths : list string)
    (samplePath : string) (disk : gmap string D) : Prop :=
  ∃ sp file,
    sp ∈ samplePaths ∧ filePath c sp = filePath c samplePath ∧
    fetch axios_get (fileUrlPrefix +:+ sp) retryLimits = Some (Return file) ∧
    disk !! filePath c samplePath = Some (data file).

(** What holds of every state of a run on [samplePaths] that started
    with the disk [disk0]. *)
Record Inv (c : Caller) (samplePaths : list string) (disk0 : gmap string D)
    (st : State) : Prop := mkInv {
  inv_lim : Limiter.Inv samplePaths (lim st);
  inv_phases : length (phases st) = length (Limiter.tasks (lim st));
  inv_phase : ∀ i t ph,
    Limiter.tasks (lim st) !! i = Some t → phases st !! i = Some ph →
    match ph with
    | Fetching => Limiter.cb t = None ∧ i ∉ fetched st
    | Ensuring file | Writing file =>
        Limiter.cb t = None ∧ i ∈ fetched st ∧
        fetch axios_get (fileUrlPrefix +:+ Limiter.item t) retryLimits
        = Some (Return file)
    | Over =>
        Limiter.cb t ≠ None ∧
        (Limiter.cb t = Some Limiter.Fulfilled →
         i ∈ fetched st ∧ stored c samplePaths (Limiter.item t) (disk st))
    end;
  inv_nodup : NoDup (fetched st);
  inv_fetched : ∀ i, i ∈ fetched st →
    (i < length (Limiter.tasks (lim st)))%nat ∧
    ∃ sp file, samplePaths !! i = Some sp ∧
      fetch axios_get (fileUrlPrefix +:+ sp) retryLimits = Some (Return file);
  inv_root : root st = foldl (grow c) (Node folder (Some []))
                             (completion samplePaths st);
  inv_disk : ∀ k,
    disk st !! k = disk0 !! k ∨
    (k ∈ filePath c <$> samplePaths ∧
     (disk st !! k = Some emptyFile ∨
      ∃ sp file, sp ∈ samplePaths ∧ filePath c sp = k ∧
        fetch axios_get (fileUrlPrefix +:+ sp) retryLimits
        = Some (Return file) ∧
        disk st !! k = Some (data file)));
}.
End Pipeline.
End Pipeline.

(** *** The files of a tree *)

(** The file entries of a tree, each as the names on the way from the
    tree, itself left out, down to the entry. *)
Fixpoint file_paths (t : FileTree) : list (list string) :=
  match t with
  | Node _ None => [[]]
  | Node _ (Some cs) =>
      (fix below (l : list FileTree) : list (list string) :=
         match l with
         | [] => []
         | c :: l' => (cons (name c) <$> file_paths c) ++ below l'
         end) cs
  end.

(** *** [modifyFile] *)

(** The body of [modifyFile] between the two reads and the two writes:
    from the contents of [taskpane.ts] and [taskpane.html] and the
    generated code to the contents written back.  Strings are JavaScript
    strings, sequences of UTF-16 code units, and the methods used are
    those of [String.prototype]. *)
Module Modify.

Abbreviation JsString := (list N).

(** A literal of the source without double quotes. *)
Definition lit (s : string) : JsString :=
  N_of_ascii <$> String.list_ascii_of_string s.

(** The double quote. *)
Definition quote : JsString := [34%N].

Definition dollar : N := 36%N.

Fixpoint startsWith (pat s : JsString) : bool :=
  match pat, s with
  | [], _ => true
  | _ :: _, [] => false
  | c :: pat', d :: s' => (c =? d)%N && startsWith pat' s'
  end.

(** The first place at or after the head of [s] where [pat] stands, the
    head of [s] being at place [i]. *)
Fixpoint index_of (pat s : JsString) (i : nat) : option nat :=
  if startsWith pat s then Some i
  else match s with
       | [] => None
       | _ :: s' => index_of pat s' (S i)
       end.

(** The last place where [pat] stands. *)
Fixpoint last_index_of (pat s : JsString) (i : nat) : option nat :=
  match s with
  | [] => if startsWith pat [] then Some i else None
  | _ :: s' =>
      match last_index_of pat s' (S i) with
      | Some j => Some j
      | None => if startsWith pat s then Some i else None
      end
  end.

(** An index or [-1]. *)
Definition number (r : option nat) : Z :=
  match r with
  | Some i => Z.of_nat i
  | None => -1
  end.

(** [s.indexOf(pat, position)] *)
Definition indexOf (s pat : JsString) (position : Z) : Z :=
  let k := Z.to_nat (Z.min (Z.max position 0) (Z.of_nat (length s))) in
  number (index_of pat (drop k s) k).

(** [s.lastIndexOf(pat)] *)
Definition lastIndexOf (s pat : JsString) : Z :=
  number (last_index_of pat s 0).

(** An argument of [slice] as a place in a string of length [len]. *)
Definition relative_index (len : nat) (i : Z) : nat :=
  if i <? 0 then Z.to_nat (Z.max (Z.of_nat len + i) 0)
  else Nat.min (Z.to_nat i) len.

(** [s.slice(start, end)] *)
Definition slice (s : JsString) (start end_ : Z) : JsString :=
  let from := relative_index (length s) start in
  let to := relative_index (length s) end_ in
  take (to - from) (drop from s).

(** [GetSubstitution] for a search string: in the replacement, [$$] is a
    dollar, [$&] the matched text, [$`] what stands before the match and
    [$'] what stands after it; any other dollar stands for itself. *)
Fixpoint getSubstitution (matched str : JsString) (position : nat)
    (template : JsString) : JsString :=
  match template with
  | [] => []
  | c :: rest =>
      if (c =? dollar)%N then
        match rest with
        | d :: rest' =>
            if (d =? 36)%N then
              dollar :: getSubstitution matched str position rest'
            else if (d =? 38)%N then
              matched ++ getSubstitution matched str position rest'
            else if (d =? 96)%N then
              take position str ++ getSubstitution matched str position rest'
            else if (d =? 39)%N then
              drop (position + length matched) str
              ++ getSubstitution matched str position rest'
            else dollar :: getSubstitution matched str position rest
        | [] => [dollar]
        end
      else c :: getSubstitution matched str position rest
  end.

(** [s.replace(searchValue, replaceValue)] with two strings: the first
    occurrence is replaced. *)
Definition replace (s searchValue replaceValue : JsString) : JsString :=
  match index_of searchValue s 0 with
  | None => s
  | Some position =>
      take position s
      ++ getSubstitution searchValue s position replaceValue
      ++ drop (position + length searchValue) s
  end.

(** [\w] *)
Definition is_word (c : N) : bool :=
  ((48 <=? c) && (c <=? 57) || (65 <=? c) && (c <=? 90) || (c =? 95)
   || (97 <=? c) && (c <=? 122))%N.

Fixpoint word (s : JsString) : JsString :=
  match s with
  | c :: s' => if is_word c then c :: word s' else []
  | [] => []
  end.

(** The matches of [/function (\w+)/g], from left to right; [skip] code
    units at the head of [s] belong to the match before. *)
Fixpoint matches (s : JsString) (skip : nat) : list JsString :=
  match s with
  | [] => []
  | _ :: s' =>
      match skip with
      | S k => matches s' k
      | O =>
          if startsWith (lit "function ") s then
            match word (drop 9 s) with
            | [] => matches s' 0
            | name => (lit "function " ++ name)
                      :: matches s' (8 + length name)
            end
          else matches s' 0
      end
  end.

(** [generatedCode.match(functionRegex)], [null] without a match. *)
Definition match_functionRegex (generatedCode : JsString)
    : option (list JsString) :=
  match matches generatedCode 0 with
  | [] => None
  | found => Some found
  end.

Definition newFunctionNames (generatedCode : JsString) : list JsString :=
  default []
    ((λ found : list JsString,
        (λ func, replace func (lit "function ") []) <$> found)
     <$> match_functionRegex generatedCode).

(** [`${x}`] for [x : string | undefined]. *)
Definition template (x : option JsString) : JsString :=
  default (lit "undefined") x.

Definition runMark : JsString := lit "export async function run()".

(** [modifiedTsContent] before the loop. *)
Definition replaceRunFunction (tsFileContent generatedCode : JsString)
    : JsString :=
  let runFunctionStart := indexOf tsFileContent runMark 0 in
  let runFunctionEnd := lastIndexOf tsFileContent (lit "}") in
  let runFunction :=
    slice tsFileContent runFunctionStart (runFunctionEnd + 1) in
  if decide (runFunctionStart ≠ -1) then
    replace tsFileContent runFunction generatedCode
  else tsFileContent ++ generatedCode.

Definition htmlIntroduction : JsString :=
  lit "<p class=" ++ quote ++ lit "ms-font-l" ++ quote
  ++ lit "> This is an add-in generated by Microsoft365 Agent in GitHub Copilot</p>".

(** [modifiedHtmlContent] before the loop. *)
Definition replaceIntroduction (htmlFileContent : JsString)
    (newFunctionNames : list JsString) : JsString :=
  let ulStart :=
    indexOf htmlFileContent
      (lit "<ul class=" ++ quote ++ lit "ms-List ms-welcome__features"
       ++ quote ++ lit ">") 0 in
  let ulEnd :=
    indexOf htmlFileContent (lit "</ul>") 0
    + Z.of_nat (length (lit "</ul>")) in
  let ulSection := slice htmlFileContent ulStart ulEnd in
  let modifiedHtmlContent :=
    if decide (ulStart ≠ -1)
    then replace htmlFileContent ulSection htmlIntroduction
    else htmlFileContent in
  let runStart := indexOf modifiedHtmlContent (lit "<b>") 0 in
  let runEnd :=
    indexOf modifiedHtmlContent (lit "</b>") 0
    + Z.of_nat (length (lit "</b>")) in
  let runElement := slice modifiedHtmlContent runStart runEnd in
  if decide (runStart ≠ -1) then
    replace modifiedHtmlContent runElement
      (lit "<b>" ++ template (head newFunctionNames) ++ lit "</b>")
  else modifiedHtmlContent.

(** [document.getElementById("run").onclick = run] *)
Definition runHandler : JsString :=
  lit "document.getElementById(" ++ quote ++ lit "run" ++ quote
  ++ lit ").onclick = run".

Definition handler (newFunctionName : JsString) : JsString :=
  lit "document.getElementById(" ++ quote ++ newFunctionName ++ quote
  ++ lit ").onclick = " ++ newFunctionName.

Definition newButtonCodeBlock (newFunctionName : JsString) : JsString :=
  [10%N] ++ lit "      <div role=" ++ quote ++ lit "button" ++ quote
  ++ lit " id=" ++ quote ++ newFunctionName ++ quote ++ lit " class=" ++ quote
  ++ lit "ms-welcome__action ms-Button ms-Button--hero ms-font-xl" ++ quote
  ++ lit ">" ++ [10%N]
  ++ lit "          <span class=" ++ quote ++ lit "ms-Button-label" ++ quote
  ++ lit ">" ++ newFunctionName ++ lit "</span>" ++ [10%N]
  ++ lit "      </div>" ++ [10%N] ++ lit "      ".

(** One turn of the loop over [newFunctionNames]. *)
Definition loop_body (contents : JsString * JsString)
    (newFunctionName : JsString) : JsString * JsString :=
  let '(modifiedTsContent, modifiedHtmlContent) := contents in
  let mapStartIndex := indexOf modifiedTsContent runHandler 0 in
  let mapEndIndex := mapStartIndex + Z.of_nat (length runHandler) in
  let map := slice modifiedTsContent mapStartIndex mapEndIndex in
  let buttonStartIndex :=
    indexOf modifiedHtmlContent
      (lit "<div role=" ++ quote ++ lit "button" ++ quote ++ lit " id="
       ++ quote ++ lit "run" ++ quote) 0 in
  let buttonEndIndex :=
    indexOf modifiedHtmlContent (lit "</div>") buttonStartIndex
    + Z.of_nat (length (lit "</div>")) in
  let button := slice modifiedHtmlContent buttonStartIndex buttonEndIndex in
  (if decide (mapStartIndex ≠ -1)
   then replace modifiedTsContent map (handler newFunctionName)
   else modifiedTsContent,
   if decide (buttonStartIndex ≠ -1)
   then replace modifiedHtmlContent button
          (newButtonCodeBlock newFunctionName)
   else modifiedHtmlContent).

(** What [modifyFile] writes to [taskpane.ts] and to [taskpane.html]. *)
Definition modifyFile (tsFileContent htmlFileContent generatedCode : JsString)
    : JsString * JsString :=
  let names := newFunctionNames generatedCode in
  foldl loop_body
        (replaceRunFunction tsFileContent generatedCode,
         replaceIntroduction htmlFileContent names)
        names.
End Modify.

(** ** Part II: properties *)

Module RetryFacts.
Import Retry.
Section RetryFacts.
Context {T : Type}.
Implicit Types (requestFn : nat → Settled T) (tryLimits : Z).

Lemma loop_body_return (s : Settled T) (res : AxiosResponse T) :
  loop_body s = BReturn res ↔ s = Fulfil res ∧ isSuccess res = true.
Proof.
  destruct s as [r|e]; simpl.
  - destruct (isSuccess r) eqn:E; split; intros H.
    + by injection H as ->.
    + destruct H as [[= ->] _]. done.
    + by destruct (stringifies r).
    + destruct H as [[= ->] H]. congruence.
  - split; [discriminate | intros [[=] _]].
Qed.

Lemma loop_body_next (s : Settled T) st er :
  loop_body s = BNext st er →
  succeeds s = false ∧ st = attempt_status s ∧ er = attempt_error s.
Proof.
  destruct s as [r|e]; simpl.
  - destruct (isSuccess r); [discriminate|].
    by destruct (stringifies r); intros [= <- <-].
  - by intros [= <- <-].
Qed.

Lemma retry_loop_spec requestFn tryLimits fuel i st er :
  (Z.to_nat tryLimits ≤ fuel + i)%nat →
  ∃ out n, retry_loop requestFn tryLimits fuel i st er = Some (out, n) ∧
           loop_post requestFn tryLimits i st er out n.
Proof.
  revert i st er. induction fuel as [|fuel IH]; intros i st er Hfuel; simpl.
  - destruct (loop_cond tryLimits i st) eqn:Hc.
    + apply andb_true_iff in Hc as [Hi _]. apply Z.ltb_lt in Hi. lia.
    + eexists _, _. split; [done|].
      split; [lia|]. split; [by left|]. split; [intros; lia|]. by left.
  - destruct (loop_cond tryLimits i st) eqn:Hc.
    2:{ eexists _, _. split; [done|].
        split; [lia|]. split; [by left|]. split; [intros; lia|]. by left. }
    pose proof Hc as Hc'. apply andb_true_iff in Hc' as [Hi Hst].
    apply Z.ltb_lt in Hi.
    destruct (loop_body (requestFn i)) as [res|st' er'] eqn:Hb.
    + apply loop_body_return in Hb as [Hb Hs].
      eexists _, _. split; [done|].
      split; [lia|]. split; [right; split; [lia|done]|].
      split; [intros; lia|]. simpl. split; [lia|done].
    + apply loop_body_next in Hb as (Hs & -> & ->).
      destruct (IH (S i) (attempt_status (requestFn i))
                  (attempt_error (requestFn i))) as (out & n & -> & Hp);
        [lia|].
      exists out, n. split; [done|].
      destruct Hp as (Hle & Hbud & Hall & Hout).
      split; [lia|]. split.
      { right. split; [|done]. destruct Hbud as [->|[? _]]; lia. }
      split.
      { intros k Hk Hkn. destruct (decide (k = i)) as [->|Hne].
        - split; [done|].
          destruct Hbud as [->|[_ ?]]; [lia|done].
        - apply Hall; lia. }
      destruct out as [res|e].
      * destruct Hout as (? & ? & ?). repeat split; auto; lia.
      * right. destruct Hout as [(-> & Hc2 & ->)|(? & ? & ? & ->)].
        -- simpl. repeat split; auto; lia.
        -- repeat split; auto; lia.
Qed.

(** The fuel [sendRequestWithRetry] starts with is enough: the function
    always ends, by returning or by throwing. *)
Lemma sendRequestWithRetry_spec requestFn tryLimits :
  ∃ out n, sendRequestWithRetry requestFn tryLimits = Some (out, n) ∧
           loop_post requestFn tryLimits 0 None None out n.
Proof. apply retry_loop_spec. lia. Qed.

Lemma canTry_spec (st : option Z) :
  canTry st = true ↔
  st = None ∨ st = Some 0 ∨ ∃ s, st = Some s ∧ 500 ≤ s < 600.
Proof.
  unfold canTry, falsy. destruct st as [s|]; [|naive_solver].
  rewrite orb_true_iff, andb_true_iff, Z.eqb_eq, Z.leb_le, Z.ltb_lt.
  split.
  - intros [->|?]; [by right; left|]. right; right. by exists s.
  - intros [?|[[= ->]|(s' & [= <-] & ?)]]; [done|by left|by right].
Qed.

Lemma isSuccess_spec (res : AxiosResponse T) :
  isSuccess res = true ↔ status res = 200 ∨ status res = 201.
Proof. unfold isSuccess. rewrite orb_true_iff, !Z.eqb_eq. done. Qed.

Lemma succeeds_spec (s : Settled T) :
  succeeds s = true ↔
  ∃ res, s = Fulfil res ∧ (status res = 200 ∨ status res = 201).
Proof.
  destruct s as [res|e]; simpl.
  - rewrite isSuccess_spec. split; [by exists res|].
    by intros (res' & [= <-] & ?).
  - split; [done|]. by intros (res & [=] & _).
Qed.

Lemma succeeds_false (s : Settled T) :
  succeeds s = false ↔
  ∀ res, s = Fulfil res → status res ≠ 200 ∧ status res ≠ 201.
Proof.
  destruct (succeeds s) eqn:Hs.
  - apply succeeds_spec in Hs as (res & -> & Hst). split; [done|].
    intros Hno. destruct (Hno res eq_refl). lia.
  - split; [|done]. intros _ res ->.
    destruct (decide (status res = 200 ∨ status res = 201)) as [Hst|]; [|lia].
    assert (succeeds (Fulfil res) = true) by (apply succeeds_spec; eauto).
    congruence.
Qed.

(** The status the loop records is the one the call produced, except
    after a response that [JSON.stringify] throws on, where it is
    [undefined]. *)
Lemma attempt_status_produced (s : Settled T) :
  (∀ res, s = Fulfil res → stringifies res = true) →
  attempt_status s = produced_status s.
Proof.
  destruct s as [res|e]; simpl; [|done]. intros Hs. by rewrite (Hs res).
Qed.

Lemma attempt_status_canTry (s : Settled T) st :
  produced_status s = Some st → 500 ≤ st < 600 →
  canTry (attempt_status s) = true.
Proof.
  intros Hp Hst.
  assert (Hc : canTry (Some st) = true).
  { apply canTry_spec. right; right. by exists st. }
  destruct s as [res|e]; simpl in *; [|by rewrite Hp].
  injection Hp as ->. by destruct (stringifies res).
Qed.

(** C3, as the code has it.  [sendRequestWithRetry] always ends, after
    [n] calls of the request function, and: (1) what it returns is the
    first response whose status is exactly 200 or 201; (2) setting aside
    a response that [JSON.stringify] throws on, a further call is made
    only after a call that produced no status, the status 0, which
    [!status] takes for a network failure as well, or a status in
    [500,600); (3) when the first [N-1] calls fail with status 503 and
    call [N] answers 200 or 201, with a budget of at least [N], that
    response is returned after exactly [N] calls; (4) a call that rejects
    with status 404, or answers 404 with a response that
    [JSON.stringify] takes, is the last one and the function throws, so
    that with a budget of at least one call and only such answers
    exactly one call is made; (5) when the function throws, no call was
    answered with 200 or 201. *)
Theorem sendRequestWithRetry_retry_policy requestFn tryLimits :
  ∃ out n, sendRequestWithRetry requestFn tryLimits = Some (out, n) ∧
    (∀ res, out = Return res →
       (0 < n)%nat ∧ requestFn (pred n) = Fulfil res ∧
       (status res = 200 ∨ status res = 201) ∧
       ∀ k res', (k < pred n)%nat → requestFn k = Fulfil res' →
                 status res' ≠ 200 ∧ status res' ≠ 201) ∧
    (∀ k, (S k < n)%nat →
       (∀ res, requestFn k = Fulfil res → stringifies res = true) →
       produced_status (requestFn k) = None ∨
       produced_status (requestFn k) = Some 0 ∨
       ∃ s, produced_status (requestFn k) = Some s ∧ 500 ≤ s < 600) ∧
    (∀ N res, (1 ≤ N)%nat → Z.of_nat N ≤ tryLimits →
       (∀ k, (k < N - 1)%nat → produced_status (requestFn k) = Some 503) →
       requestFn (N - 1)%nat = Fulfil res →
       status res = 200 ∨ status res = 201 →
       out = Return res ∧ n = N) ∧
    (∀ k, (k < n)%nat → produced_status (requestFn k) = Some 404 →
       (∀ res, requestFn k = Fulfil res → stringifies res = true) →
       n = S k ∧ ∃ e, out = Throw e) ∧
    (1 ≤ tryLimits →
     (∀ k, produced_status (requestFn k) = Some 404 ∧
           ∀ res, requestFn k = Fulfil res → stringifies res = true) →
     n = 1%nat ∧ ∃ e, out = Throw e) ∧
    (∀ e, out = Throw e → ∀ k res, (k < n)%nat → requestFn k = Fulfil res →
       status res ≠ 200 ∧ status res ≠ 201).
Proof.
  destruct (sendRequestWithRetry_spec requestFn tryLimits)
    as (out & n & Heq & Hle & Hbud & Hall & Hout).
  exists out, n. split; [done|].
  assert (H404 : ∀ k, (k < n)%nat →
            produced_status (requestFn k) = Some 404 →
            (∀ res, requestFn k = Fulfil res → stringifies res = true) →
            n = S k ∧ ∃ e, out = Throw e).
  { intros k Hk Hs Hjson.
    pose proof (attempt_status_produced _ Hjson) as Hat. rewrite Hs in Hat.
    assert (n = S k) as ->.
    { destruct (decide (S k < n)%nat) as [Hlt|]; [|lia].
      destruct (Hall k) as [_ Hc]; [lia|done|]. by rewrite Hat in Hc. }
    split; [done|]. destruct out as [res|e]; [|by eexists].
    destruct Hout as (_ & Hr & Hs'). simpl in Hr.
    rewrite Hr in Hs. simpl in Hs. apply isSuccess_spec in Hs'.
    injection Hs as Hs. lia. }
  split; [|split; [|split; [|split; [|split]]]]; [| | |done| |].
  - intros res ->. destruct Hout as (Hn & Hr & Hs).
    split; [done|]. split; [done|]. split; [by apply isSuccess_spec|].
    intros k res' Hk Hres. apply (proj1 (succeeds_false (requestFn k)));
      [|done]. apply Hall; lia.
  - intros k Hk Hjson. destruct (Hall k) as [_ Hc]; [lia|done|].
    rewrite (attempt_status_produced _ Hjson) in Hc.
    by apply canTry_spec in Hc.
  - intros N res HN Hbudget H503 Hlast Hok.
    assert (HsN : succeeds (requestFn (N - 1)%nat) = true).
    { apply succeeds_spec. by exists res. }
    assert (Hfail : ∀ k, (k < N - 1)%nat → succeeds (requestFn k) = false).
    { intros k Hk. apply succeeds_false. intros res' Hres.
      specialize (H503 k Hk). rewrite Hres in H503. simpl in H503.
      injection H503 as ->. lia. }
    assert (Hcan : ∀ k, (k < N - 1)%nat →
              canTry (attempt_status (requestFn k)) = true).
    { intros k Hk. apply (attempt_status_canTry _ 503); [by apply H503|lia]. }
    assert (n = N) as ->.
    { destruct (Nat.lt_trichotomy n N) as [Hlt|[->|Hgt]]; [|done|].
      - exfalso. destruct out as [r|e].
        + destruct Hout as (Hn & Hr & Hs).
          specialize (Hfail (pred n)). rewrite Hr in Hfail.
          simpl in Hfail. rewrite Hfail in Hs; [done|lia].
        + destruct Hout as [(-> & Hc & _)|(Hn & _ & Hc & _)].
          * unfold loop_cond in Hc. simpl in Hc.
            apply andb_false_iff in Hc as [Hc|Hc]; [|done].
            apply Z.ltb_ge in Hc. lia.
          * unfold loop_cond in Hc. rewrite Hcan in Hc by lia.
            apply andb_false_iff in Hc as [Hc|Hc]; [|done].
            apply Z.ltb_ge in Hc. lia.
      - exfalso. destruct (Hall (N - 1)%nat) as [Hs _]; [lia|lia|].
        congruence. }
    split; [|done]. destruct out as [r|e].
    + destruct Hout as (_ & Hr & _).
      replace (pred N) with (N - 1)%nat in Hr by lia. congruence.
    + exfalso. destruct Hout as [(-> & _)|(_ & Hs & _)]; [lia|].
      replace (pred N) with (N - 1)%nat in Hs by lia. congruence.
  - intros Hbudget Hall404.
    assert (0 < n)%nat as Hn.
    { destruct (decide (n = 0%nat)) as [->|]; [|lia]. exfalso.
      destruct out as [r|e]; [destruct Hout; lia|].
      destruct Hout as [(_ & Hc & _)|(? & _)]; [|lia].
      unfold loop_cond in Hc. simpl in Hc.
      apply andb_false_iff in Hc as [Hc|Hc]; [|done].
      apply Z.ltb_ge in Hc. lia. }
    destruct (Hall404 0%nat) as [H0 Hj0].
    destruct (H404 0%nat Hn H0 Hj0) as [-> ?]. done.
  - intros e -> k res Hk Hres.
    apply (proj1 (succeeds_false (requestFn k))); [|done].
    destruct (decide (S k < n)%nat) as [Hlt|Hge].
    + apply Hall; lia.
    + destruct Hout as [(-> & _)|(_ & Hs & _)]; [lia|].
      by replace k with (pred n) by lia.
Qed.

(** With a budget of zero or less no call is made and the error built
    after the loop is thrown. *)
Lemma sendRequestWithRetry_bad_tryLimits requestFn tryLimits :
  tryLimits ≤ 0 →
  sendRequestWithRetry requestFn tryLimits
  = Some (Throw (BadTryLimits tryLimits), 0%nat).
Proof.
  intros H. unfold sendRequestWithRetry.
  replace (Z.to_nat tryLimits) with 0%nat by lia. simpl.
  unfold loop_cond.
  destruct (Z.ltb_spec (Z.of_nat 0) tryLimits); [lia|done].
Qed.

(** As long as no call rejects with [undefined] or [null], the error of
    the bad budget is thrown exactly when no call was made. *)
Lemma sendRequestWithRetry_BadTryLimits_iff requestFn tryLimits out n :
  (∀ k, requestFn k ≠ Reject None) →
  sendRequestWithRetry requestFn tryLimits = Some (out, n) →
  (n = 0%nat ↔ ∃ l, out = Throw (BadTryLimits l)).
Proof.
  intros Hnn Heq.
  destruct (sendRequestWithRetry_spec requestFn tryLimits)
    as (out' & n' & Heq' & Hle & Hbud & Hall & Hout).
  rewrite Heq in Heq'. injection Heq' as <- <-. split.
  - intros ->. destruct out as [r|e]; [destruct Hout; lia|].
    destruct Hout as [(_ & _ & ->)|(? & _)]; [by eexists|lia].
  - intros [l ->].
    destruct Hout as [(-> & _)|(Hn & _ & _ & He)]; [done|exfalso].
    specialize (Hnn (pred n)).
    destruct (requestFn (pred n)) as [res|[e|]]; simpl in He;
      [by destruct (stringifies res)|done|done].
Qed.
End RetryFacts.

Lemma sendRequestWithRetry_retry_policy_witness :
  sendRequestWithRetry
    (λ k, if (k <? 2)%nat
          then Reject (Some (mkThrown false (Some 503) k))
          else Fulfil (mkResponse 201 () true))
    3
  = Some (Return (mkResponse 201 () true), 3%nat) ∧
  sendRequestWithRetry
    (λ k, Fulfil (mkResponse (if (k <? 1)%nat then 500 else 404) () true)) 5
  = Some (Throw (HttpRequestFailed (mkResponse 404 () true)), 2%nat) ∧
  ∃ e, sendRequestWithRetry (λ k, Fulfil (mkResponse 404 () true)) 7
       = Some (Throw e, 1%nat).
Proof.
  split; [|split].
  - destruct (sendRequestWithRetry_retry_policy
                (λ k, if (k <? 2)%nat
                      then Reject (Some (mkThrown false (Some 503) k))
                      else Fulfil (mkResponse 201 () true))
                3) as (out & n & Heq & _ & _ & H503 & _).
    destruct (H503 3%nat (mkResponse 201 () true)) as [-> ->];
      [lia|lia| |reflexivity|by right|exact Heq].
    intros [|[|k]] Hk; [reflexivity|reflexivity|lia].
  - destruct (sendRequestWithRetry_retry_policy
                (λ k, Fulfil (mkResponse (if (k <? 1)%nat then 500 else 404)
                                         () true))
                5) as (out & n & Heq & _ & _ & _ & H404 & _).
    assert (Hn : n = 2%nat).
    { vm_compute in Heq. by injection Heq as _ <-. }
    destruct (H404 1%nat) as [_ [e ->]]; [lia|reflexivity| |].
    { by intros res [= <-]. }
    rewrite Heq. vm_compute in Heq. by injection Heq as <- <-.
  - destruct (sendRequestWithRetry_retry_policy
                (λ k, Fulfil (mkResponse 404 () true)) 7)
      as (out & n & Heq & _ & _ & _ & _ & Hall & _).
    destruct Hall as [-> [e ->]]; [lia| |].
    { intros k. split; [reflexivity|]. by intros res [= <-]. }
    by exists e.
Defined.

(** C3 as stated fails: a call that produced the status 0, a status that
    is not in [500,600), is followed by another call, since [!status] is
    true of 0 as of [undefined]. *)
Lemma sendRequestWithRetry_retries_status_0 :
  let requestFn : nat → Settled () :=
    λ k, if (k <? 1)%nat
         then Reject (Some (mkThrown false (Some 0) 0))
         else Fulfil (mkResponse 200 () true) in
  produced_status (requestFn 0%nat) = Some 0 ∧
  ¬ (500 ≤ 0 < 600) ∧
  sendRequestWithRetry requestFn 2
  = Some (Return (mkResponse 200 () true), 2%nat).
Proof. split; [reflexivity|]. split; [lia|reflexivity]. Qed.

(** C9. With a budget of one call and a request that rejects with
    [undefined], one call is made and the error thrown is the one of the
    bad budget: after the loop [error] is still [undefined], and
    [error ??=] takes that for a loop that never ran.  (For a budget of
    zero or less, [sendRequestWithRetry_bad_tryLimits] shows that no call
    is made and the same error is thrown.) *)
Theorem sendRequestWithRetry_BadTryLimits_after_a_call :
  sendRequestWithRetry (T := ()) (λ _, Reject None) 1
  = Some (Throw (BadTryLimits 1), 1%nat).
Proof. reflexivity. Qed.
End RetryFacts.

(** *** [sendRequestWithTimeout] *)

Module TimeoutFacts.
Import Retry Timeout.
Section TimeoutFacts.
Context {T : Type}.
Implicit Types (st : State (T := T)) (sched : list (Event (T := T))).

Lemma settle_env_token (en : Env) out :
  token (env (settle (T := T) en out)) = token en ∧
  calls (env (settle en out)) = calls en ∧
  cancelRequested (env (settle en out)) = cancelRequested en.
Proof. by destruct out. Qed.

(** On the path of success the timer is cleared. *)
Lemma settle_return_clears (en : Env) (res : AxiosResponse T) ms :
  timer en = Armed ms →
  timer (env (settle en (Return res))) = Cleared.
Proof. simpl. by intros ->. Qed.

(** On the path of failure the timer is left as it is. *)
Lemma settle_throw_keeps_timer (en : Env) (err : JsError T) :
  timer (env (settle en (Throw err))) = timer en.
Proof. done. Qed.

(** Once the function has settled, only the timer can still fire. *)
Lemma run_done tryLimits sched st st' out :
  pc st = Done out →
  run tryLimits sched st = Some st' →
  pc st' = Done out ∧ settlements sched = [] ∧
  calls (env st') = calls (env st) ∧ token (env st') = token (env st).
Proof.
  revert st. induction sched as [|ev sched IH]; intros st Hpc Hrun.
  - by injection Hrun as <-.
  - simpl in Hrun. destruct ev as [|s]; simpl in Hrun.
    + destruct (timer (env st)); try done. simpl in Hrun.
      apply IH in Hrun; [|done]. done.
    + by rewrite Hpc in Hrun.
Qed.

(** The machine and the loop of [sendRequestWithRetry] agree: from a
    state suspended in call [i], a schedule that brings the function to
    its end does so with the outcome of the loop run on the same
    settlements, passed through the [try]/[catch]. *)
Lemma run_awaiting tryLimits sched : ∀ st st' i status error out'
    (requestFn : nat → Settled T) fuel,
  pc st = Awaiting i status error →
  loop_cond tryLimits i status = true →
  run tryLimits sched st = Some st' →
  pc st' = Done out' →
  (∀ k s, settlements sched !! k = Some s → requestFn (i + k)%nat = s) →
  (Z.to_nat tryLimits ≤ fuel + i)%nat →
  ∃ out, retry_loop requestFn tryLimits fuel i status error
         = Some (out, (i + length (settlements sched))%nat) ∧
         out' = match out with
                | Return res => Return res
                | Throw err => Throw (if axios_isCancel err
                                      then RequestTimeout else err)
                end ∧
         length (calls (env st')) = (length (calls (env st))
                                     + length (settlements sched) - 1)%nat ∧
         (∀ t, t ∈ calls (env st') → t ∈ calls (env st) ∨ t = token (env st)).
Proof.
  induction sched as [|ev sched IH];
    intros st st' i status error out' requestFn fuel Hpc Hc Hrun Hdone Hreq Hfuel.
  - injection Hrun as <-. congruence.
  - simpl in Hrun. destruct ev as [|s]; simpl in Hrun.
    + destruct (timer (env st)); try done. simpl in Hrun.
      eapply IH in Hrun as (out & ? & ? & ? & ?); eauto.
    + rewrite Hpc in Hrun.
      assert (Hs : requestFn i = s).
      { rewrite <-(Hreq 0%nat s); [f_equal; lia|done]. }
      destruct fuel as [|fuel].
      { apply andb_true_iff in Hc as [Hc _]. apply Z.ltb_lt in Hc. lia. }
      simpl. rewrite Hc, Hs.
      destruct (loop_body s) as [res|status' error'] eqn:Hb; simpl in Hrun.
      * eapply run_done in Hrun as (Hpc' & -> & Hcalls & _); [|reflexivity].
        exists (Return res). simpl. rewrite Nat.add_1_r.
        split; [done|]. split; [congruence|].
        rewrite Hcalls. simpl. split; [lia|]. intros t Ht. by left.
      * unfold enter in Hrun.
        destruct (loop_cond tryLimits (S i) status') eqn:Hc'.
        -- eapply IH with (requestFn := requestFn) (fuel := fuel)
             in Hrun as (out & Hloop & ? & Hlen & Hin); eauto; simpl.
           ++ exists out. rewrite Hloop.
              replace (S i + length (settlements sched))%nat
                with (i + S (length (settlements sched)))%nat by lia.
              split; [done|]. split; [done|].
              simpl in Hlen, Hin. rewrite length_app in Hlen. simpl in Hlen.
              split; [lia|]. intros t Ht.
              destruct (Hin t Ht) as [Ht'|Ht']; [|by right].
              apply elem_of_app in Ht' as [?|Ht']; [by left|].
              apply list_elem_of_singleton in Ht'. by right.
           ++ intros k s' Hk. rewrite <-(Hreq (S k) s'); [f_equal; lia|done].
           ++ lia.
        -- eapply run_done in Hrun as (Hpc' & -> & Hcalls & _); [|reflexivity].
           exists (Throw (after_loop tryLimits error')).
           destruct fuel; simpl; rewrite Hc', Nat.add_1_r.
           all: split; [done|]; split; [congruence|].
           all: rewrite Hcalls; simpl; split; [lia|]; intros t Ht; by left.
Qed.

Lemma step_calls tryLimits ev st st' :
  step tryLimits ev st = Some st' →
  token (env st') = token (env st) ∧
  ∀ t, t ∈ calls (env st') → t ∈ calls (env st) ∨ t = token (env st).
Proof.
  destruct ev as [|s]; simpl.
  - destruct (timer (env st)); try done. intros [= <-]. simpl. auto.
  - destruct (pc st) as [i status error|]; [|done].
    destruct (loop_body s) as [res|status' error']; intros [= <-].
    + simpl. auto.
    + unfold enter. destruct (loop_cond _ _ _); simpl; [|auto].
      split; [done|]. intros t Ht.
      apply elem_of_app in Ht as [?|Ht]; [by left|].
      apply list_elem_of_singleton in Ht. by right.
Qed.

Lemma run_calls tryLimits sched : ∀ st st',
  run tryLimits sched st = Some st' →
  token (env st') = token (env st) ∧
  ∀ t, t ∈ calls (env st') → t ∈ calls (env st) ∨ t = token (env st).
Proof.
  induction sched as [|ev sched IH]; intros st st' Hrun.
  - injection Hrun as <-. auto.
  - simpl in Hrun. destruct (step tryLimits ev st) as [st1|] eqn:Hstep;
      [|done]. simpl in Hrun.
    apply step_calls in Hstep as [Htok Hin].
    apply IH in Hrun as [Htok' Hin'].
    split; [congruence|]. intros t Ht.
    destruct (Hin' t Ht) as [?|?]; [auto|right; congruence].
Qed.

(** The timer is armed once, when the function starts, and nothing arms
    it again: it fires at most once however many calls are made. *)
Lemma run_count_fires tryLimits sched : ∀ st st',
  run tryLimits sched st = Some st' →
  (count_fires sched ≤ match timer (env st) with Armed _ => 1 | _ => 0 end)%nat.
Proof.
  induction sched as [|ev sched IH]; intros st st' Hrun; simpl.
  - lia.
  - simpl in Hrun. destruct ev as [|s]; simpl in Hrun.
    + destruct (timer (env st)) eqn:Ht; try done. simpl in Hrun.
      apply IH in Hrun. simpl in Hrun. lia.
    + destruct (pc st) as [i status error|]; [|done].
      destruct (loop_body s) as [res|status' error']; simpl in Hrun;
        apply IH in Hrun.
      * simpl in Hrun. destruct (timer (env st)); simpl in *; lia.
      * unfold enter in Hrun. by destruct (loop_cond _ _ _).
Qed.

Lemma sendRequestWithRetry_never_timeout (requestFn : nat → Settled T)
    tryLimits e n :
  sendRequestWithRetry requestFn tryLimits = Some (Throw e, n) →
  e ≠ RequestTimeout.
Proof.
  intros Heq.
  destruct (RetryFacts.sendRequestWithRetry_spec requestFn tryLimits)
    as (out & n' & Heq' & _ & _ & _ & Hout).
  rewrite Heq in Heq'. injection Heq' as <- <-.
  destruct Hout as [(_ & _ & ->)|(_ & _ & _ & ->)]; [done|].
  destruct (requestFn (pred n)) as [res|[e|]]; simpl; [|done|done].
  by destruct (stringifies res).
Qed.

(** C7. However the calls of the request function settle and whenever the
    timer fires: every call is passed the one token of the source made at
    the start; the timer, armed once, fires at most once over all calls;
    and when the function settles, it does so with the outcome of
    [sendRequestWithRetry] on the same settlements, except that an error
    for which [axios.isCancel] holds is replaced by the error
    "Request timeout", which [sendRequestWithRetry] itself never throws.
    Any other error is thrown again as it is. *)
Theorem sendRequestWithTimeout_one_deadline tok timeoutInMs tryLimits sched st :
  run tryLimits sched (sendRequestWithTimeout tok timeoutInMs tryLimits)
  = Some st →
  (∀ t, t ∈ calls (env st) → t = tok) ∧
  (count_fires sched ≤ 1)%nat ∧
  ∀ out', pc st = Done out' →
    ∀ requestFn : nat → Settled T,
      (∀ k s, settlements sched !! k = Some s → requestFn k = s) →
      ∃ out,
        sendRequestWithRetry requestFn tryLimits
        = Some (out, length (settlements sched)) ∧
        length (calls (env st)) = length (settlements sched) ∧
        match out with
        | Return res => out' = Return res
        | Throw err =>
            err ≠ RequestTimeout ∧
            if axios_isCancel err then out' = Throw RequestTimeout
            else out' = Throw err
        end.
Proof.
  intros Hrun. split; [|split].
  - intros t Ht. apply run_calls in Hrun as [_ Hin].
    destruct (Hin t Ht) as [Ht'|Ht'].
    + unfold sendRequestWithTimeout, enter in Ht'.
      destruct (loop_cond tryLimits 0 None); simpl in Ht'.
      * by apply list_elem_of_singleton in Ht'.
      * by apply elem_of_nil in Ht'.
    + rewrite Ht'. unfold sendRequestWithTimeout, enter.
      by destruct (loop_cond tryLimits 0 None).
  - apply run_count_fires in Hrun.
    unfold sendRequestWithTimeout, enter in Hrun.
    by destruct (loop_cond tryLimits 0 None).
  - intros out' Hdone requestFn Hreq.
    unfold sendRequestWithTimeout, enter in Hrun.
    destruct (loop_cond tryLimits 0 None) eqn:Hc.
    + eapply run_awaiting with (requestFn := requestFn)
        (fuel := Z.to_nat tryLimits) in Hrun
        as (out & Hloop & -> & Hlen & _); eauto; [|lia].
      exists out. simpl in Hloop, Hlen. split; [done|]. split; [lia|].
      destruct out as [res|err]; [done|]. split.
      * by eapply sendRequestWithRetry_never_timeout.
      * by destruct (axios_isCancel err).
    + eapply run_done in Hrun as (Hpc & -> & Hcalls & _); [|reflexivity].
      exists (Throw (BadTryLimits tryLimits)). simpl in *.
      split; [|split; [by rewrite Hcalls|]].
      * unfold sendRequestWithRetry.
        destruct (Z.to_nat tryLimits); simpl; by rewrite Hc.
      * split; [done|]. congruence.
Qed.

(** When a call makes the function return, the timer is cleared; when it
    makes the function throw, the [catch] block leaves the timer as it
    is. *)
Lemma step_settles_timer tryLimits s st st' out :
  step tryLimits (RequestSettles s) st = Some st' →
  pc st' = Done out →
  timer (env st') = match out with
                    | Return _ => clearTimeout (timer (env st))
                    | Throw _ => timer (env st)
                    end.
Proof.
  simpl. destruct (pc st) as [i status error|]; [|done].
  destruct (loop_body s) as [res|status' error']; intros [= <-]; simpl.
  - by intros [= <-].
  - unfold enter. destruct (loop_cond _ _ _); simpl; [done|].
    by intros [= <-].
Qed.
End TimeoutFacts.

Lemma sendRequestWithTimeout_one_deadline_witness :
  let thrown : Outcome (AxiosResponse ()) (JsError ()) :=
    Throw RequestTimeout in
  let sched :=
    [RequestSettles (Reject (Some (mkThrown false None 0))); TimerFires;
     RequestSettles (T := ()) (Reject (Some (mkThrown true None 1)))] in
  let st := mkState (mkEnv Fired 7%nat true [7; 7]%nat) (Done thrown) in
  run 2 sched (sendRequestWithTimeout 7 50 2) = Some st ∧
  (∀ t, t ∈ calls (env st) → t = 7%nat) ∧
  (count_fires sched ≤ 1)%nat ∧
  ∃ out,
    sendRequestWithRetry
      (λ k, Reject (Some (mkThrown (bool_decide (k = 1%nat)) None k))) 2
    = Some (out, 2%nat) ∧
    match out with
    | Return res => thrown = Return res
    | Throw err =>
        err ≠ RequestTimeout ∧
        if axios_isCancel err then thrown = Throw RequestTimeout
        else thrown = Throw err
    end.
Proof.
  intros thrown sched st. split; [reflexivity|].
  destruct (sendRequestWithTimeout_one_deadline (T := ()) 7 50 2 sched st
              eq_refl) as (Htok & Hfires & Hout).
  split; [exact Htok|]. split; [exact Hfires|].
  destruct (Hout _ eq_refl
              (λ k, Reject (Some (mkThrown (bool_decide (k = 1%nat)) None k))))
    as (out & Hretry & _ & Hcase).
  - intros [|[|k]] s; simpl; [by intros [= <-]..|done].
  - exists out. split; [exact Hretry|exact Hcase].
Defined.

(** C6. A budget of three calls and a timer of 1000 ms; the first call is
    rejected with status 404 before the timer fires.  The function throws
    that error and the timer is still armed ([clearTimeout] is called on
    the path of success only, see [step_settles_timer]); it fires later,
    after the promise has settled. *)
Theorem sendRequestWithTimeout_failure_leaves_timer_armed :
  run (T := ()) 3 [RequestSettles (Reject (Some (mkThrown false (Some 404) 0)))]
      (sendRequestWithTimeout 0 1000 3)
  = Some (mkState (mkEnv (Armed 1000) 0%nat false [0%nat])
                  (Done (Throw (External (mkThrown false (Some 404) 0))))) ∧
  run (T := ()) 3 [RequestSettles (Reject (Some (mkThrown false (Some 404) 0)));
                   TimerFires]
      (sendRequestWithTimeout 0 1000 3)
  = Some (mkState (mkEnv Fired 0%nat true [0%nat])
                  (Done (Throw (External (mkThrown false (Some 404) 0))))).
Proof. split; reflexivity. Qed.
End TimeoutFacts.

(** *** [getSampleFileInfo] *)

Module SampleFacts.
Import Retry Sample.

Lemma string_app_cons c (s r : string) :
  String c s +:+ r = String c (s +:+ r).
Proof. reflexivity. Qed.

Lemma string_app_assoc (s1 s2 s3 : string) :
  (s1 +:+ s2) +:+ s3 = s1 +:+ s2 +:+ s3.
Proof.
  induction s1 as [|c s1 IH]; [done|].
  by rewrite !string_app_cons, IH.
Qed.

Lemma prefix_app (s1 s2 : string) :
  String.prefix s1 s2 = true ↔ ∃ rest, s2 = s1 +:+ rest.
Proof.
  revert s2. induction s1 as [|c s1 IH]; intros [|c' s2]; simpl.
  - split; [by exists ""%string|done].
  - split; [by exists (String c' s2)|done].
  - split; [done|]. by intros [rest [=]].
  - destruct (Ascii.ascii_dec c c') as [->|Hne].
    + rewrite IH. split; intros [rest Hr]; exists rest.
      * by rewrite string_app_cons, Hr.
      * rewrite string_app_cons in Hr. by injection Hr.
    + split; [done|]. intros [rest Hr].
      rewrite string_app_cons in Hr. congruence.
Qed.

(** The entries kept: those below [dir/] that are not directories. *)
Lemma isSampleFile_spec urlInfo node :
  isSampleFile urlInfo node = true ↔
  (∃ rest, path node = dir urlInfo +:+ "/" +:+ rest) ∧ type node ≠ "tree"%string.
Proof.
  unfold isSampleFile.
  rewrite andb_true_iff, negb_true_iff, prefix_app, String.eqb_neq.
  split; intros [[rest Hr] ?]; (split; [|done]); exists rest; rewrite Hr.
  - by rewrite string_app_assoc.
  - by rewrite string_app_assoc.
Qed.

(** C10, as the code has it.  When the listing request succeeds,
    [getSampleFileInfo] resolves.  Without a [tree] in the body,
    [samplePaths] is [undefined]; the revision in [fileUrlPrefix] is the
    [sha] of the body, and the text "undefined" when the body has no
    [sha] either.  With a [tree], [samplePaths] lists, in the order of
    the listing, the paths of the entries that start with [dir/] and
    whose type is not "tree". *)
Theorem getSampleFileInfo_resolves axios_get urlInfo retryLimits res n :
  sendRequestWithRetry (axios_get (fileInfoUrl urlInfo)) retryLimits
  = Some (Return res, n) →
  ∃ files,
    getSampleFileInfo axios_get urlInfo retryLimits = Some (Return files) ∧
    fileUrlPrefix files = rawUrlPrefix urlInfo (template (data res ≫= sha)) ∧
    (data res ≫= tree = None → samplePaths files = None) ∧
    (data res ≫= sha = None →
       fileUrlPrefix files = rawUrlPrefix urlInfo "undefined") ∧
    (∀ rev, data res ≫= sha = Some rev →
       fileUrlPrefix files = rawUrlPrefix urlInfo rev) ∧
    (∀ t, data res ≫= tree = Some t →
       samplePaths files = Some (path <$> List.filter (isSampleFile urlInfo) t) ∧
       ∀ node, node ∈ List.filter (isSampleFile urlInfo) t ↔
               node ∈ t ∧
               (∃ rest, path node = dir urlInfo +:+ "/" +:+ rest) ∧
               type node ≠ "tree"%string).
Proof.
  intros Hreq. unfold getSampleFileInfo. rewrite Hreq. eexists.
  split; [done|]. simpl. split; [done|].
  split; [by intros ->|]. split; [by intros ->|]. split; [by intros ? ->|].
  intros t ->. split; [done|]. intros node.
  rewrite !list_elem_of_In, filter_In, isSampleFile_spec. done.
Qed.

Lemma getSampleFileInfo_resolves_witness :
  getSampleFileInfo
    (λ _ _, Fulfil (mkResponse 200
               (Some (mkFileInfo
                        (Some [mkTreeNode "d" "tree"; mkTreeNode "d/x" "tree";
                               mkTreeNode "d/x/a.ts" "blob";
                               mkTreeNode "e/b.ts" "blob";
                               mkTreeNode "d/c.ts" "blob"])
                        (Some "4f2a"))) true))
    (mkUrlInfo "o" "r" "main" "d") 2
  = Some (Return (mkSampleFiles
                    (Some ["d/x/a.ts"; "d/c.ts"])
                    "https://raw.githubusercontent.com/o/r/4f2a/")).
Proof.
  destruct (getSampleFileInfo_resolves
              (λ _ _, Fulfil (mkResponse 200
                 (Some (mkFileInfo
                          (Some [mkTreeNode "d" "tree"; mkTreeNode "d/x" "tree";
                                 mkTreeNode "d/x/a.ts" "blob";
                                 mkTreeNode "e/b.ts" "blob";
                                 mkTreeNode "d/c.ts" "blob"])
                          (Some "4f2a"))) true))
              (mkUrlInfo "o" "r" "main" "d") 2 _ 1%nat eq_refl)
    as ([paths pre] & -> & Hpre & _ & _ & _ & Hpaths).
  simpl in Hpre, Hpaths.
  destruct (Hpaths _ eq_refl) as [-> _]. rewrite Hpre. reflexivity.
Defined.

(** C10 as stated fails: a body without [tree] but with a [sha] gives a
    prefix with that [sha], not with "undefined". *)
Lemma getSampleFileInfo_missing_tree_keeps_sha :
  let body := Some (mkFileInfo None (Some "4f2a"%string)) in
  let urlInfo := mkUrlInfo "o" "r" "main" "d" in
  body ≫= tree = None ∧
  getSampleFileInfo (λ _ _, Fulfil (mkResponse 200 body true)) urlInfo 1
  = Some (Return (mkSampleFiles None
                    "https://raw.githubusercontent.com/o/r/4f2a/")) ∧
  getSampleFileInfo (λ _ _, Fulfil (mkResponse 200 body true)) urlInfo 1
  ≠ Some (Return (mkSampleFiles None (rawUrlPrefix urlInfo "undefined"))).
Proof. split; [done|]. split; [reflexivity|]. vm_compute. by intros [=]. Qed.
End SampleFacts.

(** *** [fileTreeAdd], [downloadSampleFiles] and [buildFileTree] *)

Module TreeFacts.
Import Retry Path Tree.
Section TreeFacts.
Context `{PathModule}.
Implicit Types (t parent : FileTree) (cs : list FileTree)
               (segments : list string).

Lemma list_find_alter {A} (P : A → Prop) `{!∀ x, Decision (P x)}
    (g : A → A) (l : list A) k c :
  (∀ x, P (g x) ↔ P x) →
  list_find P l = Some (k, c) →
  list_find P (alter g k l) = Some (k, g c).
Proof.
  intros Hg (Hk & HP & Hleast)%list_find_Some. apply list_find_Some.
  split; [by rewrite list_lookup_alter_eq, Hk|]. split; [by apply Hg|].
  intros j y Hj Hlt. rewrite list_lookup_alter_ne in Hj by lia. eauto.
Qed.

Lemma walk_name segments filename : ∀ t,
  name (walk segments filename t) = name t.
Proof.
  induction segments as [|segment rest IH]; intros t; simpl; [done|].
  case_decide; [done|].
  destruct (children t) as [cs|]; [|done].
  by destruct (list_find _ cs) as [[k c]|].
Qed.

Lemma walk_is_dir segments filename : ∀ t,
  is_dir (walk segments filename t) = is_dir t.
Proof.
  induction segments as [|segment rest IH]; intros t; simpl.
  - unfold is_dir. simpl. by destruct (children t).
  - case_decide; [done|]. unfold is_dir.
    destruct (children t) as [cs|] eqn:Hcs; [|by rewrite Hcs].
    by destruct (list_find _ cs) as [[k c]|].
Qed.

(** Segments equal to [.] are skipped. *)
Lemma walk_skip_dot segments filename : ∀ t,
  walk (filter (λ segment, segment ≠ ".") segments) filename t
  = walk segments filename t.
Proof.
  induction segments as [|segment rest IH]; intros t; [done|].
  rewrite filter_cons. destruct (decide (segment = ".")) as [->|Hdot].
  - rewrite decide_False by (by intros []). simpl. apply IH.
  - rewrite decide_True by done. simpl. rewrite !decide_False by done.
    destruct (children t) as [cs|]; [|done].
    destruct (list_find _ cs) as [[k c]|]; [|by rewrite IH].
    do 2 f_equal. apply list_alter_ext; [|done]. intros; apply IH.
Qed.

Lemma dirs_along_empty segments n :
  dirs_along segments (Node n (Some [])) = true.
Proof.
  induction segments as [|segment rest IH]; simpl; [done|].
  by case_decide.
Qed.

Lemma descend_empty segments n t :
  descend segments (Node n (Some [])) = Some t → t = Node n (Some []).
Proof.
  induction segments as [|segment rest IH]; simpl; [congruence|].
  by case_decide.
Qed.

Lemma find_child_walk segment rest filename cs k c :
  list_find (λ child, name child = segment) cs = Some (k, c) →
  list_find (λ child, name child = segment) (alter (walk rest filename) k cs)
  = Some (k, walk rest filename c).
Proof.
  apply list_find_alter. intros x. by rewrite walk_name.
Qed.

Lemma find_child_new segment filename rest cs :
  list_find (λ child, name child = segment) cs = None →
  list_find (λ child, name child = segment)
    (cs ++ [walk rest filename (Node segment (Some []))])
  = Some (length cs, walk rest filename (Node segment (Some []))).
Proof.
  intros Hnone. rewrite list_find_app_r by done. simpl.
  rewrite decide_True by (by rewrite walk_name). done.
Qed.

(** When no segment finds a file, the directory the segments lead to
    exists after the insertion: it is the one that was there, or a new
    one, and the file is its last child. *)
Lemma walk_descend segments filename : ∀ t,
  dirs_along segments t = true →
  ∃ n cs,
    descend segments (walk segments filename t)
    = Some (Node n (Some (cs ++ [Node filename None]))) ∧
    (descend segments t = Some (Node n (Some cs)) ∨
     (descend segments t = None ∧ cs = [])).
Proof.
  induction segments as [|segment rest IH]; intros [n ch]; simpl.
  - destruct ch as [cs|]; [|done]. intros _. exists n, cs. auto.
  - destruct ch as [cs|]; [|done]. case_decide; [apply IH|]. simpl.
    destruct (list_find _ cs) as [[k c]|] eqn:Hfind; simpl.
    + intros Hc. erewrite find_child_walk by done. simpl. by apply IH.
    + intros _. rewrite find_child_new by done. simpl.
      destruct (IH (Node segment (Some [])) (dirs_along_empty _ _))
        as (n' & cs' & Hd & Hcase).
      exists n', cs'. split; [done|]. right. split; [done|].
      destruct Hcase as [Hsome|[_ ?]]; [|done].
      apply descend_empty in Hsome. by injection Hsome.
Qed.

Lemma dirs_along_dot rest t :
  dirs_along ("." :: rest) t = dirs_along rest t.
Proof.
  simpl. destruct (children t) eqn:Hch; [done|].
  destruct rest; simpl; by rewrite Hch.
Qed.

Lemma walk_dirs_along segments filename : ∀ t,
  dirs_along segments t = true →
  dirs_along segments (walk segments filename t) = true.
Proof.
  induction segments as [|segment rest IH]; intros [n ch].
  { simpl. by destruct ch. }
  destruct (decide (segment = ".")) as [->|Hdot].
  { rewrite !dirs_along_dot. simpl. apply IH. }
  simpl. destruct ch as [cs|]; [|done]. rewrite !decide_False by done.
    simpl. destruct (list_find _ cs) as [[k c]|] eqn:Hfind; simpl.
  - intros Hc. rewrite decide_False by done.
    erewrite find_child_walk by done. by apply IH.
  - intros _. rewrite decide_False by done.
    rewrite find_child_new by done. apply IH, dirs_along_empty.
Qed.

Lemma nodup_dirs_node n cs :
  nodup_dirs (Node n (Some cs)) ↔
  NoDup (name <$> List.filter is_dir cs) ∧ Forall nodup_dirs cs.
Proof.
  simpl. apply and_iff_compat_l.
  induction cs as [|c cs IH]; [by split; [constructor|]|].
  rewrite Forall_cons, IH. done.
Qed.

Lemma dir_names_alter (g : FileTree → FileTree) k cs :
  (∀ x, is_dir (g x) = is_dir x) → (∀ x, name (g x) = name x) →
  name <$> List.filter is_dir (alter g k cs)
  = name <$> List.filter is_dir cs.
Proof.
  intros Hdir Hname. revert k.
  induction cs as [|c cs IH]; intros [|k]; simpl; [done..| |].
  - rewrite Hdir. destruct (is_dir c); simpl; by rewrite ?Hname.
  - specialize (IH k).
    destruct (is_dir c); simpl; [f_equal|]; exact IH.
Qed.

(** An insertion makes no second directory of a name: a directory is
    made only where no child has the name of the segment. *)
Lemma walk_nodup_dirs segments filename : ∀ t,
  nodup_dirs t → nodup_dirs (walk segments filename t).
Proof.
  induction segments as [|segment rest IH]; intros [n ch] Ht.
  - destruct ch as [cs|]; [|done]. unfold walk, push. simpl children.
    apply nodup_dirs_node in Ht as [Hnd Hall]. simpl fmap.
    apply nodup_dirs_node. rewrite List.filter_app, Forall_app. simpl.
    rewrite app_nil_r. split; [done|]. split; [done|].
    by repeat constructor.
  - simpl. case_decide; [by apply IH|].
    destruct ch as [cs|]; [|done]. simpl.
    apply nodup_dirs_node in Ht as [Hnd Hall].
    destruct (list_find _ cs) as [[k c]|] eqn:Hfind; apply nodup_dirs_node.
    + rewrite dir_names_alter
        by (intros; first [apply walk_is_dir | apply walk_name]).
      split; [done|]. apply Forall_alter; [done|]. intros x _. apply IH.
    + rewrite List.filter_app, fmap_app, Forall_app. simpl.
      rewrite walk_is_dir. simpl. rewrite walk_name. simpl.
      split.
      * apply NoDup_app. split; [done|]. split; [|apply NoDup_singleton].
        intros x Hx ->%list_elem_of_singleton.
        apply list_elem_of_fmap in Hx as (c & Hc & Hin).
        apply list_find_None in Hfind.
        apply list_elem_of_In, filter_In in Hin as [Hin _].
        apply list_elem_of_In in Hin.
        rewrite Forall_forall in Hfind. by apply (Hfind c).
      * split; [done|]. constructor; [|done]. apply IH.
        apply nodup_dirs_node. split; [constructor|done].
Qed.

(** C5, as the code has it.  An insertion skips the segments equal to
    [.] and never makes a second directory of a name.  When no segment
    of the path finds a file where it looks for a directory (true of the
    paths of one listing, where a name is a file or a directory), the
    directory of the path exists afterwards, being the one that was there
    or a new one, the file is its new last child, and the same path
    inserted again gives a second such child. *)
Theorem fileTreeAdd_inserts root relativePath filePath :
  let segments := segments_of (dirname relativePath) in
  let file := Node (basename relativePath) None in
  let root' := fileTreeAdd root relativePath filePath in
  root' = walk (filter (λ segment, segment ≠ ".") segments)
               (basename relativePath) root ∧
  (nodup_dirs root → nodup_dirs root') ∧
  (dirs_along segments root = true →
     dirs_along segments root' = true ∧
     ∃ n cs,
       descend segments root' = Some (Node n (Some (cs ++ [file]))) ∧
       (descend segments root = Some (Node n (Some cs)) ∨
        (descend segments root = None ∧ cs = [])) ∧
       ∀ filePath',
         descend segments (fileTreeAdd root' relativePath filePath')
         = Some (Node n (Some (cs ++ [file; file])))).
Proof.
  intros segments file root'. subst root'. unfold fileTreeAdd.
  fold segments. split; [by rewrite walk_skip_dot|].
  split; [apply walk_nodup_dirs|]. intros Hdirs.
  pose proof (walk_dirs_along segments (basename relativePath) _ Hdirs)
    as Hdirs'.
  split; [done|].
  destruct (walk_descend segments (basename relativePath) _ Hdirs)
    as (n & cs & Hd & Hcase).
  exists n, cs. split; [done|]. split; [done|]. intros _.
  destruct (walk_descend segments (basename relativePath) _ Hdirs')
    as (n' & cs' & Hd' & [Hsome|[Hnone _]]); [|congruence].
  rewrite Hd in Hsome. injection Hsome as <- <-.
  by rewrite Hd', <-app_assoc.
Qed.

(** A run of the callbacks of [downloadSampleFiles] that ends well keeps
    what was on the disk and leaves a file at the destination of every
    sample path. *)
Lemma downloadSampleFiles_written {D} (axios_get : string → nat → Settled D)
    fileUrlPrefix dstPath folder retryLimits completion :
  ∀ (disk disk' : gmap string D),
    run_callbacks
      (downloadSampleFiles_callback axios_get fileUrlPrefix dstPath folder
         retryLimits)
      completion disk = Some (Return disk') →
    (∀ k, is_Some (disk !! k) → is_Some (disk' !! k)) ∧
    ∀ samplePath, samplePath ∈ completion →
      is_Some (disk' !! join dstPath (relative (folder +:+ "/") samplePath)).
Proof.
  induction completion as [|sp rest IH]; intros disk disk'; simpl.
  - intros [= <-]. split; [done|]. by intros ? ?%elem_of_nil.
  - unfold downloadSampleFiles_callback at 1.
    destruct (fetch _ _ _) as [[file|e]|]; [|done..].
    intros [Hmono Hrest]%IH. split.
    + intros k Hk. apply Hmono, lookup_insert_is_Some.
      destruct (decide (join dstPath (relative (folder +:+ "/") sp) = k));
        auto.
    + intros samplePath [->|Hin]%elem_of_cons; [|by apply Hrest].
      apply Hmono, lookup_insert_is_Some. by left.
Qed.

Lemma buildFileTree_written {D} (axios_get : string → nat → Settled D)
    fileUrlPrefix dstPath folder retryLimits completion :
  ∀ root root' (disk disk' : gmap string D),
    run_callbacks
      (buildFileTree_callback axios_get fileUrlPrefix dstPath folder
         retryLimits)
      completion (root, disk) = Some (Return (root', disk')) →
    (∀ k, is_Some (disk !! k) → is_Some (disk' !! k)) ∧
    ∀ samplePath, samplePath ∈ completion →
      is_Some (disk' !! join dstPath samplePath).
Proof.
  induction completion as [|sp rest IH]; intros root root' disk disk'; simpl.
  - intros [= <- <-]. split; [done|]. by intros ? ?%elem_of_nil.
  - unfold buildFileTree_callback at 1.
    destruct (fetch _ _ _) as [[file|e]|]; [|done..]. simpl.
    intros [Hmono Hrest]%IH. split.
    + intros k Hk. apply Hmono, lookup_insert_is_Some.
      destruct (decide (join dstPath sp = k)); auto.
    + intros samplePath [->|Hin]%elem_of_cons; [|by apply Hrest].
      apply Hmono, lookup_insert_is_Some. by left.
Qed.

(** C8, as the code has it.  When the request of a file succeeds,
    [downloadSampleFiles] writes its bytes at the destination directory
    joined with the sample path made relative to the sample folder, and
    [buildFileTree] writes them at the destination directory joined with
    the sample path as it is; the relative path is what [buildFileTree]
    adds to its tree.  After a run that ends well there is a file at that
    destination for every sample path. *)
Theorem download_destinations {D} (axios_get : string → nat → Settled D)
    fileUrlPrefix dstPath folder retryLimits :
  (∀ samplePath file n,
     sendRequestWithRetry (axios_get (fileUrlPrefix +:+ samplePath))
       retryLimits = Some (Return file, n) →
     (∀ disk,
        downloadSampleFiles_callback axios_get fileUrlPrefix dstPath folder
          retryLimits samplePath disk
        = Some (Return (<[join dstPath (relative (folder +:+ "/") samplePath)
                          := data file]> disk))) ∧
     (∀ root disk,
        buildFileTree_callback axios_get fileUrlPrefix dstPath folder
          retryLimits samplePath (root, disk)
        = Some (Return (fileTreeAdd root
                          (relative (folder +:+ "/") samplePath)
                          (join dstPath samplePath),
                        <[join dstPath samplePath := data file]> disk)))) ∧
  (∀ completion disk disk',
     downloadSampleFiles axios_get fileUrlPrefix completion dstPath folder
       retryLimits disk = Some (Return disk') →
     ∀ samplePath, samplePath ∈ completion →
       is_Some (disk' !! join dstPath (relative (folder +:+ "/") samplePath))) ∧
  (∀ completion disk forest disk',
     buildFileTree axios_get fileUrlPrefix completion dstPath folder
       retryLimits disk = Some (Return (forest, disk')) →
     ∀ samplePath, samplePath ∈ completion →
       is_Some (disk' !! join dstPath samplePath)).
Proof.
  split_and!.
  - intros samplePath file n Hreq. split; intros;
      unfold downloadSampleFiles_callback, buildFileTree_callback, fetch;
      by rewrite Hreq.
  - intros completion disk disk' Hrun.
    by apply downloadSampleFiles_written in Hrun as [_ ?].
  - intros completion disk forest disk'. unfold buildFileTree.
    destruct (run_callbacks _ completion _) as [[[root1 disk1]|e]|] eqn:Hrun;
      [|done..].
    intros [= <- <-].
    by apply buildFileTree_written in Hrun as [_ ?].
Qed.

(** When every request succeeds, the tree of [buildFileTree] is the
    tree of the insertions made in the order of completion. *)
Lemma run_buildFileTree_callbacks {D} (axios_get : string → nat → Settled D)
    fileUrlPrefix dstPath folder retryLimits :
  (∀ url, ∃ file, fetch axios_get url retryLimits = Some (Return file)) →
  ∀ completion root disk, ∃ disk',
    run_callbacks
      (buildFileTree_callback axios_get fileUrlPrefix dstPath folder
         retryLimits)
      completion (root, disk)
    = Some (Return
              (foldl (λ r samplePath,
                        fileTreeAdd r (relative (folder +:+ "/") samplePath)
                          (join dstPath samplePath))
                     root completion,
               disk')).
Proof.
  intros Hfetch completion.
  induction completion as [|samplePath rest IH]; intros root disk; simpl.
  - by exists disk.
  - unfold buildFileTree_callback at 1.
    destruct (Hfetch (fileUrlPrefix +:+ samplePath)) as [file ->]. simpl.
    apply IH.
Qed.
End TreeFacts.

Lemma tree_perm_a_same :
  tree_perm (Node "a" (Some [Node "b.txt" None; Node "c.txt" None]))
            (Node "a" (Some [Node "b.txt" None; Node "c.txt" None])).
Proof.
  apply tree_perm_dir with (ds := [Node "b.txt" None; Node "c.txt" None]);
    [repeat constructor|done].
Qed.

Lemma tree_perm_a_swap :
  tree_perm (Node "a" (Some [Node "c.txt" None; Node "b.txt" None]))
            (Node "a" (Some [Node "b.txt" None; Node "c.txt" None])).
Proof.
  apply tree_perm_dir with (ds := [Node "c.txt" None; Node "b.txt" None]);
    [repeat constructor|apply perm_swap].
Qed.

(** C4, as the code has it.  The sample paths [a/b.txt], [a/c.txt] and
    [d.txt], every request succeeding, whatever the order in which the
    requests complete: the tree has the directory [a] with the files
    [b.txt] and [c.txt], and the file [d.txt], the children of a node in
    the order of completion.  Completion in the order of the input gives
    [a] (with [b.txt], [c.txt]) then [d.txt]; completion in the reverse
    order gives [d.txt] then [a] (with [c.txt], [b.txt]). *)
Theorem buildFileTree_completion_order {D}
    (axios_get : string → nat → Settled D) fileUrlPrefix dstPath retryLimits
    disk (completion : list string) :
  (∀ url, ∃ file, fetch axios_get url retryLimits = Some (Return file)) →
  completion ≡ₚ ["a/b.txt"; "a/c.txt"; "d.txt"]%string →
  ∃ forest disk',
    buildFileTree (H := posix "/w") axios_get fileUrlPrefix completion
      dstPath "." retryLimits disk
    = Some (Return (forest, disk')) ∧
    forest_perm forest
      [Node "a" (Some [Node "b.txt" None; Node "c.txt" None]);
       Node "d.txt" None] ∧
    (completion = ["a/b.txt"; "a/c.txt"; "d.txt"]%string →
     forest = [Node "a" (Some [Node "b.txt" None; Node "c.txt" None]);
               Node "d.txt" None]) ∧
    (completion = ["d.txt"; "a/c.txt"; "a/b.txt"]%string →
     forest = [Node "d.txt" None;
               Node "a" (Some [Node "c.txt" None; Node "b.txt" None])]).
Proof.
  intros Hfetch Hperm. unfold buildFileTree.
  destruct (run_buildFileTree_callbacks (H := posix "/w") axios_get
              fileUrlPrefix dstPath "." retryLimits Hfetch completion
              (Node "." (Some [])) disk) as [disk' ->].
  eexists _, disk'. split; [done|].
  symmetry in Hperm. apply permutations_Permutation in Hperm.
  vm_compute permutations in Hperm.
  repeat (apply elem_of_cons in Hperm as [->|Hperm]);
    [..|by apply elem_of_nil in Hperm];
    vm_compute default; (split; [|split; [done|done]]).
  all: first
    [ exists [Node "a" (Some [Node "b.txt" None; Node "c.txt" None]);
              Node "d.txt" None];
      split; [|done]; repeat constructor;
      first [apply tree_perm_a_same | apply tree_perm_a_swap]
    | exists [Node "d.txt" None;
              Node "a" (Some [Node "b.txt" None; Node "c.txt" None])];
      split; [|apply perm_swap]; repeat constructor;
      first [apply tree_perm_a_same | apply tree_perm_a_swap] ].
Qed.

Lemma buildFileTree_completion_order_witness :
  let axios_get : string → nat → Settled nat :=
    λ _ _, Fulfil (mkResponse 200 42%nat true) in
  ∃ forest disk',
    buildFileTree (H := posix "/w") axios_get "u/"
      ["d.txt"; "a/c.txt"; "a/b.txt"] "/dst" "." 2 ∅
    = Some (Return (forest, disk')) ∧
    forest_perm forest
      [Node "a" (Some [Node "b.txt" None; Node "c.txt" None]);
       Node "d.txt" None] ∧
    forest = [Node "d.txt" None;
              Node "a" (Some [Node "c.txt" None; Node "b.txt" None])].
Proof.
  intros axios_get.
  destruct (buildFileTree_completion_order axios_get "u/" "/dst" 2 ∅
              ["d.txt"; "a/c.txt"; "a/b.txt"]%string)
    as (forest & disk' & Heq & Hp & _ & Hrev).
  - intros url. eexists. reflexivity.
  - apply (reverse_Permutation ["a/b.txt"; "a/c.txt"; "d.txt"]%string).
  - exists forest, disk'. split; [exact Heq|]. split; [exact Hp|].
    apply Hrev. reflexivity.
Defined.

(** C4 as stated fails: completion in the reverse order gives a tree
    that is not the tree of completion in the order of the input. *)
Lemma buildFileTree_reverse_completion_differs :
  let axios_get : string → nat → Settled nat :=
    λ _ _, Fulfil (mkResponse 200 42%nat true) in
  let build completion :=
    buildFileTree (H := posix "/w") axios_get "u/" completion "/dst" "."
      2 ∅ in
  (∃ disk', build ["a/b.txt"; "a/c.txt"; "d.txt"]%string
            = Some (Return
                      ([Node "a" (Some [Node "b.txt" None; Node "c.txt" None]);
                        Node "d.txt" None], disk'))) ∧
  (∃ disk', build ["d.txt"; "a/c.txt"; "a/b.txt"]%string
            = Some (Return
                      ([Node "d.txt" None;
                        Node "a" (Some [Node "c.txt" None; Node "b.txt" None])],
                       disk'))) ∧
  [Node "d.txt" None; Node "a" (Some [Node "c.txt" None; Node "b.txt" None])]
  ≠ [Node "a" (Some [Node "b.txt" None; Node "c.txt" None]);
     Node "d.txt" None].
Proof.
  intros axios_get build.
  split; [eexists; reflexivity|]. split; [eexists; reflexivity|]. done.
Qed.

Lemma fileTreeAdd_inserts_witness :
  let root := Node "r" (Some [Node "a" (Some [Node "b.txt" None])]) in
  let root' := fileTreeAdd (H := posix "/w") root "a/c.txt" "/dst/a/c.txt" in
  nodup_dirs root' ∧
  descend ["a"%string] root'
  = Some (Node "a" (Some [Node "b.txt" None; Node "c.txt" None])) ∧
  descend ["a"%string]
    (fileTreeAdd (H := posix "/w") root' "a/c.txt" "/dst/a/c.txt")
  = Some (Node "a" (Some [Node "b.txt" None; Node "c.txt" None;
                          Node "c.txt" None])).
Proof.
  intros root root'.
  destruct (fileTreeAdd_inserts (H := posix "/w") root "a/c.txt"
              "/dst/a/c.txt") as (_ & Hnodup & Hdirs).
  split.
  - apply Hnodup. simpl. split; [apply NoDup_singleton|].
    split; [|done]. split; [apply NoDup_nil_2|done].
  - destruct Hdirs as (_ & n & cs & Hd & Hcase & Htwice); [reflexivity|].
    destruct Hcase as [Hsome|[Hnone _]]; [|discriminate Hnone].
    vm_compute in Hsome. injection Hsome as <- <-.
    split; [exact Hd|]. exact (Htwice "/dst/a/c.txt"%string).
Defined.

(** C5 as stated fails: after the file [a], the path [a/b.txt] finds the
    file where it looks for the directory [a]; no directory is made and
    no file is added. *)
Lemma fileTreeAdd_through_a_file :
  let root := Node "r" (Some []) in
  let root1 := fileTreeAdd (H := posix "/w") root "a" "/dst/a" in
  root1 = Node "r" (Some [Node "a" None]) ∧
  fileTreeAdd (H := posix "/w") root1 "a/b.txt" "/dst/a/b.txt" = root1.
Proof. split; reflexivity. Qed.

Lemma download_destinations_witness :
  let axios_get : string → nat → Settled nat :=
    λ _ _, Fulfil (mkResponse 200 42%nat true) in
  downloadSampleFiles_callback (H := posix "/w") axios_get "u/" "/dst" "s" 2
    "s/a/b.txt" ∅
  = Some (Return {["/dst/a/b.txt"%string := 42%nat]}) ∧
  buildFileTree_callback (H := posix "/w") axios_get "u/" "/dst" "s" 2
    "s/a/b.txt" (Node "s" (Some []), ∅)
  = Some (Return (Node "s" (Some [Node "a" (Some [Node "b.txt" None])]),
                  {["/dst/s/a/b.txt"%string := 42%nat]})) ∧
  (∃ disk',
     downloadSampleFiles (H := posix "/w") axios_get "u/"
       ["s/a/b.txt"; "s/c.txt"] "/dst" "s" 2 ∅ = Some (Return disk') ∧
     is_Some (disk' !! "/dst/c.txt"%string)) ∧
  (∃ forest disk',
     buildFileTree (H := posix "/w") axios_get "u/"
       ["s/a/b.txt"; "s/c.txt"] "/dst" "s" 2 ∅
     = Some (Return (forest, disk')) ∧
     is_Some (disk' !! "/dst/s/c.txt"%string)).
Proof.
  intros axios_get.
  destruct (download_destinations (H := posix "/w") axios_get "u/" "/dst"
              "s" 2) as (Hcallback & Hdownload & Hbuild).
  destruct (Hcallback "s/a/b.txt"%string (mkResponse 200 42%nat true) 1%nat eq_refl)
    as [Hd Hb].
  split; [exact (Hd ∅)|]. split; [exact (Hb (Node "s" (Some [])) ∅)|].
  split.
  - assert (Hrun :
      downloadSampleFiles (H := posix "/w") axios_get "u/"
        ["s/a/b.txt"; "s/c.txt"] "/dst" "s" 2 ∅
      = Some (Return (<["/dst/c.txt"%string := 42%nat]>
                        {["/dst/a/b.txt"%string := 42%nat]})))
      by (vm_compute; reflexivity).
    eexists. split; [exact Hrun|].
    apply (Hdownload _ _ _ Hrun "s/c.txt"%string). repeat constructor.
  - assert (Hrun :
      buildFileTree (H := posix "/w") axios_get "u/"
        ["s/a/b.txt"; "s/c.txt"] "/dst" "s" 2 ∅
      = Some (Return ([Node "a" (Some [Node "b.txt" None]); Node "c.txt" None],
                      <["/dst/s/c.txt"%string := 42%nat]>
                        {["/dst/s/a/b.txt"%string := 42%nat]})))
      by (vm_compute; reflexivity).
    eexists _, _. split; [exact Hrun|].
    apply (Hbuild _ _ _ _ Hrun "s/c.txt"%string). repeat constructor.
Defined.

(** C8 as stated fails for [buildFileTree]: the file of the sample path
    [s/a/b.txt] of the sample folder [s] is written at [/dst/s/a/b.txt],
    the sample folder kept, and nothing is written at [/dst/a/b.txt]. *)
Lemma buildFileTree_keeps_sample_folder :
  let axios_get : string → nat → Settled nat :=
    λ _ _, Fulfil (mkResponse 200 42%nat true) in
  join (PathModule := posix "/w") "/dst"
       (relative (PathModule := posix "/w") "s/" "s/a/b.txt")
  = "/dst/a/b.txt"%string ∧
  ∃ root' disk',
    buildFileTree_callback (H := posix "/w") axios_get "u/" "/dst" "s" 2
      "s/a/b.txt" (Node "s" (Some []), ∅) = Some (Return (root', disk')) ∧
    disk' !! "/dst/a/b.txt"%string = None ∧
    disk' !! "/dst/s/a/b.txt"%string = Some 42%nat.
Proof.
  intros axios_get. split; [reflexivity|].
  eexists _, _. split; [reflexivity|]. split; reflexivity.
Qed.
End TreeFacts.

(** *** [runWithLimitedConcurrency] *)

Module LimiterFacts.
Import Limiter.
Section LimiterFacts.
Context {T E : Type}.
Implicit Types (st : State (T := T) (E := E)) (ts : list (Task (T := T) (E := E)))
               (q : list nat) (sched : list (Event (E := E))).

Lemma settled_p_insert_eq ts i t :
  (i < length ts)%nat → settled_p (<[i := t]> ts) i = p t.
Proof. intros Hi. unfold settled_p. by rewrite list_lookup_insert_eq. Qed.

Lemma settled_p_insert_ne ts i j t :
  i ≠ j → settled_p (<[i := t]> ts) j = settled_p ts j.
Proof. intros Hne. unfold settled_p. by rewrite list_lookup_insert_ne. Qed.

Lemma settled_p_same ts i t t' :
  ts !! i = Some t → p t' = p t → ∀ j,
  settled_p (<[i := t']> ts) j = settled_p ts j.
Proof.
  intros Hi Hp j. destruct (decide (i = j)) as [<-|Hne].
  - rewrite settled_p_insert_eq by eauto using lookup_lt_Some.
    unfold settled_p. by rewrite Hi.
  - by apply settled_p_insert_ne.
Qed.

Lemma settled_p_new ts it j :
  settled_p (ts ++ [mkTask it None None]) j = settled_p ts j.
Proof.
  unfold settled_p. destruct (decide (j < length ts)%nat).
  - by rewrite lookup_app_l.
  - rewrite (lookup_ge_None_2 ts) by lia.
    destruct (decide (j = length ts)) as [->|].
    + by rewrite list_lookup_middle.
    + by rewrite lookup_ge_None_2 by (rewrite length_app; simpl; lia).
Qed.

Lemma settled_p_lt ts i r : settled_p ts i = Some r → (i < length ts)%nat.
Proof.
  unfold settled_p. destruct (ts !! i) eqn:Hi; [|done].
  eauto using lookup_lt_Some.
Qed.

(** Replacing an element changes the number of elements a filter keeps by
    what the old and the new element contribute. *)
Lemma filter_length_insert {A} (P : A → Prop) `{!∀ x, Decision (P x)}
    (l : list A) i x y :
  l !! i = Some x →
  (length (filter P (<[i := y]> l)) + (if decide (P x) then 1 else 0)
   = length (filter P l) + (if decide (P y) then 1 else 0))%nat.
Proof.
  revert i. induction l as [|a l IH]; intros [|i] Hi; simplify_eq/=.
  - rewrite !filter_cons. repeat case_decide; simpl; lia.
  - rewrite !filter_cons. specialize (IH i Hi).
    destruct (decide (P a)); simpl; lia.
Qed.

Lemma head_omap_None {A B} (f : A → option B) (l : list A) :
  head (omap f l) = None ↔ ∀ x, x ∈ l → f x = None.
Proof.
  induction l as [|a l IH]; simpl.
  - split; [intros _ x Hx; by apply elem_of_nil in Hx|done].
  - destruct (f a) eqn:Ha; simpl.
    + split; [done|]. intros Hall. rewrite Hall in Ha; [done|left].
    + rewrite IH. split.
      * intros Hall x [->|Hx]%elem_of_cons; auto.
      * intros Hall x Hx. apply Hall. by right.
Qed.

Lemma head_omap_Some {A B} (f : A → option B) (l : list A) b :
  head (omap f l) = Some b → ∃ x, x ∈ l ∧ f x = Some b.
Proof.
  induction l as [|a l IH]; simpl; [done|].
  destruct (f a) eqn:Ha; simpl.
  - intros [= ->]. exists a. split; [left|done].
  - intros (x & Hx & Hf)%IH. exists x. split; [by right|done].
Qed.

(** When [p] is in the queue, exactly that promise is removed. *)
Lemma splice_indexOf_elem i q :
  i ∈ q → NoDup q →
  NoDup (splice_indexOf i q) ∧
  S (length (splice_indexOf i q)) = length q ∧
  ∀ j, j ∈ splice_indexOf i q ↔ j ∈ q ∧ j ≠ i.
Proof.
  intros Hi Hnd. unfold splice_indexOf.
  destruct (list_find_elem_of (λ j, j = i) q i Hi eq_refl) as [[k x] Hfind].
  rewrite Hfind. apply list_find_Some in Hfind as (Hk & -> & _).
  rewrite delete_take_drop.
  pose proof (take_drop_middle q k i Hk) as Hq.
  set (a := take k q) in *. set (b := drop (S k) q) in *.
  clearbody a b. subst q. clear Hk Hi.
  apply NoDup_app in Hnd as (Hnd1 & Hdisj & [Hnotin Hnd2]%NoDup_cons).
  split; [|split].
  - apply NoDup_app. split; [done|]. split; [|done].
    intros j Hj Hj'. apply (Hdisj j Hj). by right.
  - rewrite !length_app. simpl. lia.
  - intros j. rewrite !elem_of_app, elem_of_cons. split.
    + intros [Hj|Hj]; (split; [tauto|]); intros ->; [|done].
      apply (Hdisj i Hj). by left.
    + intros [[?|[?|?]] ?]; tauto.
Qed.

Lemma rejection_Some (r : option (Res (E := E))) e :
  rejection r = Some e ↔ r = Some (Rejected e).
Proof. destruct r as [[|e']|]; simpl; split; intros; by simplify_eq. Qed.

Lemma is_fulfilled_true (r : option (Res (E := E))) :
  is_fulfilled r = true ↔ r = Some Fulfilled.
Proof. destruct r as [[|e']|]; simpl; split; intros; by simplify_eq. Qed.

Lemma pc_ok_ext (todo : list T) n (sp sp' : nat → option (Res (E := E))) q pc :
  (∀ i, sp i = sp' i) → pc_ok todo n sp q pc → pc_ok todo n sp' q pc.
Proof.
  intros Hext. destruct pc as [|w [[|e]|]|w [e|]| |e]; simpl; try done.
  - intros (? & ? & ? & [i Hi]). rewrite Hext in Hi. eauto 10.
  - intros (? & ? & ? & Hnone). split_and!; try done.
    intros i Hi. rewrite <-Hext. auto.
  - intros (? & ? & ? & [i Hi]). rewrite Hext in Hi. eauto 10.
  - intros (? & ? & ? & Hnone). split_and!; try done.
    intros i e Hi. rewrite <-Hext. auto.
  - intros [? Hall]. split; [done|]. intros i Hi. rewrite <-Hext. auto.
  - intros [i Hi]. rewrite Hext in Hi. eauto.
Qed.

(** The function going on keeps the invariant. *)
Lemma tick_inv items concurrencyLimit st st' :
  Inv items st → tick concurrencyLimit st = Some st' → Inv items st'.
Proof.
  destruct st as [todo ts q pc].
  intros [Hitems Htasks Hnd Hq Hlen Hpc]; simpl in *.
  unfold tick; simpl. destruct pc as [|w [[|e]|]|w [e|]| |e]; try done.
  - (* one iteration of the loop, or the end of the loop *)
    destruct todo as [|it rest].
    + intros [= <-]. split; simpl; try done.
      split; [done|]. split; [intros i Hi; by apply Hq in Hi as [? _]|].
      split; [done|].
      destruct (head _) as [e|] eqn:Hhead.
      * apply head_omap_Some in Hhead as (i & _ & Hi).
        apply rejection_Some in Hi. eauto.
      * intros i e Hi He.
        eapply head_omap_None in Hhead; [|done].
        rewrite He in Hhead. done.
    + set (ts' := ts ++ [mkTask it None None]).
      set (q' := q ++ [length ts]).
      assert (Hitems' : (item <$> ts') ++ rest = items).
      { subst ts'. rewrite fmap_app, <-app_assoc. done. }
      assert (Htasks' : Forall task_ok ts').
      { apply Forall_app. split; [done|]. by repeat constructor. }
      assert (Hnd' : NoDup q').
      { apply NoDup_app. split; [done|]. split; [|apply NoDup_singleton].
        intros i Hi ->%list_elem_of_singleton. apply Hq in Hi as [? _]. lia. }
      assert (Hq' : ∀ i, i ∈ q' ↔
                (i < length ts')%nat ∧ fulfilled ts' i = false).
      { intros i. subst q' ts'. unfold fulfilled.
        rewrite elem_of_app, list_elem_of_singleton, length_app, settled_p_new.
        simpl. fold (fulfilled ts i). rewrite Hq. split.
        - intros [[? ?]| ->]; [split; [lia|done]|]. split; [lia|].
          unfold fulfilled, settled_p. by rewrite lookup_ge_None_2 by lia.
        - intros [Hi ?]. destruct (decide (i = length ts)); [by right|].
          left. split; [lia|done]. }
      assert (Hlen' : length q' = length (filter unfulfilled ts')).
      { subst q' ts'. by rewrite filter_app, !length_app, Hlen. }
      assert (Hrace : pc_ok rest (length ts') (settled_p ts') q' (race ts' q')).
      { simpl. split; [subst q'; by destruct q|].
        split; [intros i Hi; by apply Hq' in Hi as [? _]|]. split; [done|].
        destruct (head _) as [[|e]|] eqn:Hhead; [done| |].
        - apply head_omap_Some in Hhead as (i & _ & Hi). eauto.
        - intros i Hi. by eapply head_omap_None in Hhead. }
      destruct (concurrencyLimit <=? _); intros [= <-]; by split.
  - intros [= <-]. by split.
  - intros [= <-]. split; simpl; try done. by destruct Hpc as (_ & _ & _ & ?).
  - intros [= <-]. split; simpl; try done. by destruct Hpc as (_ & _ & _ & ?).
  - destruct (forallb _ w) eqn:Hall; [|done]. intros [= <-].
    split; simpl; try done. destruct Hpc as (Htodo & _ & Hsub & _).
    split; [done|]. intros i Hi.
    destruct (fulfilled ts i) eqn:Hf; [by apply is_fulfilled_true|].
    assert (Hiw : i ∈ w) by (apply Hsub, Hq; done).
    rewrite forallb_forall in Hall.
    apply list_elem_of_In, Hall in Hiw. congruence.
Qed.

(** What the steps of the environment are. *)
Lemma step_callback concurrencyLimit i r st st' :
  step concurrencyLimit (CallbackSettles i r) st = Some st' →
  pc st ≠ Dispatching ∧
  ∃ it pp, tasks st !! i = Some (mkTask it None pp) ∧
           st' = mkState (todo st)
                         (<[i := mkTask it (Some r) pp]> (tasks st))
                         (queue st) (pc st).
Proof.
  unfold step. intros Hstep.
  assert (pc st ≠ Dispatching) by (by destruct (pc st)).
  split; [done|].
  assert (Hstep' :
    match tasks st !! i with
    | Some (mkTask it None pp) =>
        Some (mkState (todo st) (<[i := mkTask it (Some r) pp]> (tasks st))
                      (queue st) (pc st))
    | _ => None
    end = Some st') by (by destruct (pc st)).
  destruct (tasks st !! i) as [[it [r'|] pp]|]; try done.
  injection Hstep' as <-. eauto.
Qed.

Lemma step_handlers concurrencyLimit i st st' :
  step concurrencyLimit (Handlers i) st = Some st' →
  pc st ≠ Dispatching ∧
  ∃ it r, tasks st !! i = Some (mkTask it (Some r) None) ∧
          st' = mkState (todo st)
                        (<[i := mkTask it (Some r) (Some r)]> (tasks st))
                        (match r with
                         | Fulfilled => splice_indexOf i (queue st)
                         | Rejected _ => queue st
                         end)
                        (notify i r (pc st)).
Proof.
  unfold step. intros Hstep.
  assert (pc st ≠ Dispatching) by (by destruct (pc st)).
  split; [done|].
  assert (Hstep' :
    match tasks st !! i with
    | Some (mkTask it (Some r) None) =>
        Some (mkState (todo st)
                (<[i := mkTask it (Some r) (Some r)]> (tasks st))
                (match r with
                 | Fulfilled => splice_indexOf i (queue st)
                 | Rejected _ => queue st
                 end)
                (notify i r (pc st)))
    | _ => None
    end = Some st') by (by destruct (pc st)).
  destruct (tasks st !! i) as [[it [r|] [r'|]]|]; try done.
  injection Hstep' as <-. eauto.
Qed.

Lemma item_insert ts i t t' :
  ts !! i = Some t → item t' = item t →
  item <$> <[i := t']> ts = item <$> ts.
Proof.
  intros Hi Hit. rewrite list_fmap_insert, Hit.
  apply list_insert_id. by rewrite list_lookup_fmap, Hi.
Qed.

(** The settling of a callback keeps the invariant: the promises [p] are
    as they were. *)
Lemma callback_inv items concurrencyLimit i r st st' :
  Inv items st →
  step concurrencyLimit (CallbackSettles i r) st = Some st' →
  Inv items st'.
Proof.
  intros [Hitems Htasks Hnd Hq Hlen Hpc]
         (_ & it & pp & Hi & ->)%step_callback.
  assert (Hsp : ∀ j, settled_p (<[i := mkTask it (Some r) pp]> (tasks st)) j
                     = settled_p (tasks st) j).
  { by apply (settled_p_same _ _ _ _ Hi). }
  assert (pp = None) as ->.
  { eapply Forall_lookup_1 in Htasks; [|done].
    unfold task_ok in Htasks. simpl in Htasks. by destruct pp. }
  split; simpl.
  - by erewrite item_insert.
  - apply Forall_insert; [done|]. by unfold task_ok.
  - done.
  - intros j. rewrite length_insert. unfold fulfilled. rewrite Hsp. apply Hq.
  - rewrite Hlen.
    pose proof (filter_length_insert unfulfilled (tasks st) i _
                  (mkTask it (Some r) None) Hi) as Hf.
    simpl in Hf. lia.
  - rewrite length_insert. eapply pc_ok_ext; [|done]. done.
Qed.

(** The settling of a promise [p] that is in the queue keeps the control
    state consistent. *)
Lemma notify_ok (todo : list T) n (sp sp' : nat → option (Res (E := E)))
    q q' i r pc :
  pc_ok todo n sp q pc →
  (i < n)%nat → sp i = None → sp' i = Some r →
  (∀ j, j ≠ i → sp' j = sp j) →
  i ∈ q → (∀ j, j ∈ q' → j ∈ q) →
  pc_ok todo n sp' q' (notify i r pc).
Proof.
  intros Hpc Hi Hnone Hsome Hother Hiq Hsub.
  assert (Hkeep : ∀ e, (∃ k, sp k = Some (Rejected e)) →
                       ∃ k, sp' k = Some (Rejected e)).
  { intros e [k Hk]. exists k. rewrite Hother; [done|]. congruence. }
  destruct pc as [|w [[|e]|]|w [e|]| |e]; simpl in *; try done.
  - destruct Hpc as (? & ? & ? & ?). split_and!; auto.
  - destruct Hpc as (? & ? & ? & ?). split_and!; auto.
  - destruct Hpc as (? & ? & Hqw & Hw).
    rewrite bool_decide_eq_true_2 by auto. simpl. split_and!; auto.
    destruct r as [|e]; [done|]. eauto.
  - destruct Hpc as (? & ? & ? & ?). split_and!; auto.
  - destruct Hpc as (? & ? & Hqw & Hw).
    rewrite bool_decide_eq_true_2 by auto. simpl. split_and!; auto.
    destruct r as [|e]; simpl; [|eauto].
    intros j e Hj. destruct (decide (j = i)) as [->|Hne]; [congruence|].
    rewrite Hother by done. auto.
  - destruct Hpc as [_ Hall]. rewrite Hall in Hnone; done.
  - auto.
Qed.

(** The handlers of a settled callback keep the invariant: [p] settles as
    the callback did and, when fulfilled, leaves the queue. *)
Lemma handlers_inv items concurrencyLimit i st st' :
  Inv items st →
  step concurrencyLimit (Handlers i) st = Some st' →
  Inv items st' ∧
  ∃ it r, tasks st !! i = Some (mkTask it (Some r) None) ∧ i ∈ queue st ∧
          pc st' = notify i r (pc st) ∧
          (r = Fulfilled → S (length (queue st')) = length (queue st)) ∧
          (length (queue st') ≤ length (queue st))%nat.
Proof.
  intros [Hitems Htasks Hnd Hq Hlen Hpc]
         (_ & it & r & Hi & ->)%step_handlers.
  pose (ts' := <[i := mkTask it (Some r) (Some r)]> (tasks st)).
  assert (Hlt : (i < length (tasks st))%nat) by eauto using lookup_lt_Some.
  assert (Hnone : settled_p (tasks st) i = None).
  { unfold settled_p. by rewrite Hi. }
  assert (Hsome : settled_p ts' i = Some r).
  { subst ts'. by rewrite settled_p_insert_eq. }
  assert (Hother : ∀ j, j ≠ i → settled_p ts' j = settled_p (tasks st) j).
  { intros j Hj. subst ts'. by rewrite settled_p_insert_ne. }
  assert (Hiq : i ∈ queue st).
  { apply Hq. split; [done|]. unfold fulfilled. by rewrite Hnone. }
  pose proof (filter_length_insert unfulfilled (tasks st) i _
                (mkTask it (Some r) (Some r)) Hi) as Hcount.
  simpl in Hcount. unfold ts' in *. clear ts'.
  destruct r as [|e]; simpl in *.
  - destruct (splice_indexOf_elem i (queue st) Hiq Hnd)
      as (Hnd' & Hlen' & Hmem).
    split; [|exists it, Fulfilled; split_and!; auto; simpl; lia].
    split; simpl.
    + by erewrite item_insert.
    + apply Forall_insert; [done|]. by unfold task_ok.
    + done.
    + intros j. rewrite length_insert, Hmem, Hq.
      unfold fulfilled. split.
      * intros [[? ?] Hne]. split; [done|]. by rewrite Hother.
      * intros [? Hf]. destruct (decide (j = i)) as [->|Hne].
        { by rewrite Hsome in Hf. }
        rewrite Hother in Hf by done. done.
    + lia.
    + rewrite length_insert.
      eapply notify_ok; eauto. intros j Hj. by apply Hmem in Hj as [? _].
  - split; [|exists it, (Rejected e); split_and!; auto; done].
    split; simpl.
    + by erewrite item_insert.
    + apply Forall_insert; [done|]. by unfold task_ok.
    + done.
    + intros j. rewrite length_insert, Hq.
      unfold fulfilled. destruct (decide (j = i)) as [->|Hne].
      * by rewrite Hsome, Hnone.
      * by rewrite Hother.
    + lia.
    + rewrite length_insert.
      eapply notify_ok; eauto.
Qed.

Lemma step_inv items concurrencyLimit ev st st' :
  Inv items st → step concurrencyLimit ev st = Some st' → Inv items st'.
Proof.
  destruct ev as [|i r|i].
  - apply tick_inv.
  - apply callback_inv.
  - intros Hinv Hstep. by eapply handlers_inv in Hstep as [? _].
Qed.

Lemma init_inv (items : list T) :
  Inv (E := E) items (runWithLimitedConcurrency items).
Proof.
  split; simpl; try done.
  - apply NoDup_nil_2.
  - intros i. split; [by intros ?%elem_of_nil|]. intros [? _]. lia.
Qed.

Lemma run_inv items concurrencyLimit sched : ∀ st st',
  Inv items st → run concurrencyLimit sched st = Some st' → Inv items st'.
Proof.
  induction sched as [|ev sched IH]; intros st st' Hinv Hrun; simpl in Hrun.
  - by injection Hrun as <-.
  - destruct (step concurrencyLimit ev st) as [st1|] eqn:Hstep; [|done].
    eapply IH; [|done]. by eapply step_inv.
Qed.

Lemma init_bounded (items : list T) concurrencyLimit :
  1 ≤ concurrencyLimit →
  bounded (E := E) concurrencyLimit (runWithLimitedConcurrency items).
Proof. intros. split; simpl; lia. Qed.

(** With a limit of at least one, a step keeps the queue within the
    limit: the loop adds a promise only below the limit, and goes on after
    a race only when a promise has left the queue. *)
Lemma step_bounded items concurrencyLimit ev st st' :
  1 ≤ concurrencyLimit →
  Inv items st → bounded concurrencyLimit st →
  step concurrencyLimit ev st = Some st' →
  bounded concurrencyLimit st'.
Proof.
  intros HL Hinv [Hle Hlt] Hstep. destruct ev as [|i r|i].
  - pose proof (tick_inv _ _ _ _ Hinv Hstep) as Hinv'.
    simpl in Hstep. unfold tick in Hstep.
    destruct (pc st) as [|w [[|e]|]|w [e|]| |e] eqn:Hpc; try done.
    + destruct (todo st) as [|it rest]; [injection Hstep as <-; by split|].
      destruct (concurrencyLimit <=? _) eqn:Hfull; injection Hstep as <-.
      * destruct Hinv' as [_ _ _ Hq' _ _]. simpl in *.
        rewrite length_app in *. simpl in *.
        split; simpl; [rewrite length_app; simpl; lia|].
        destruct (head _) as [[|e]|] eqn:Hhead; [|done..].
        apply head_omap_Some in Hhead as (j & Hj & Hsp).
        apply Hq' in Hj as [_ Hf]. unfold fulfilled in Hf.
        by rewrite Hsp in Hf.
      * apply Z.leb_gt in Hfull. simpl in *. split; simpl; lia.
    + injection Hstep as <-. by split.
    + injection Hstep as <-. by split.
    + injection Hstep as <-. by split.
    + destruct (forallb _ w); [|done]. injection Hstep as <-. by split.
  - apply step_callback in Hstep as (_ & it & pp & _ & ->). by split.
  - pose proof Hstep as (Hpc & _)%step_handlers.
    eapply handlers_inv in Hstep
      as (_ & it & r & _ & _ & Hpc' & Hful & Hlen); [|done].
    split; [lia|]. rewrite Hpc'.
    destruct (pc st) as [|w [[|e]|]|w [e|]| |e]; simpl in *; try done.
    + lia.
    + destruct (bool_decide (i ∈ w)); [|done].
      destruct r as [|e]; [|done]. specialize (Hful eq_refl). lia.
    + by destruct (bool_decide (i ∈ w)).
Qed.

Lemma run_bounded items concurrencyLimit sched : ∀ st st',
  1 ≤ concurrencyLimit →
  Inv items st → bounded concurrencyLimit st →
  run concurrencyLimit sched st = Some st' →
  bounded concurrencyLimit st'.
Proof.
  induction sched as [|ev sched IH]; intros st st' HL Hinv Hb Hrun;
    simpl in Hrun.
  - by injection Hrun as <-.
  - destruct (step concurrencyLimit ev st) as [st1|] eqn:Hstep; [|done].
    eapply IH; [done| | |done].
    + by eapply step_inv.
    + by eapply step_bounded.
Qed.

Lemma filter_length_le {A} (P Q : A → Prop) `{!∀ x, Decision (P x)}
    `{!∀ x, Decision (Q x)} (l : list A) :
  Forall (λ x, P x → Q x) l →
  (length (filter P l) ≤ length (filter Q l))%nat.
Proof.
  induction 1 as [|x l Hx _ IH]; [done|].
  rewrite !filter_cons. repeat case_decide; simpl; try lia. tauto.
Qed.

(** The callbacks in flight are among the promises of the queue. *)
Lemma in_flight_queue items st :
  Inv items st → (in_flight st ≤ length (queue st))%nat.
Proof.
  intros [_ Htasks _ _ Hlen _]. rewrite Hlen. unfold in_flight.
  apply filter_length_le. eapply Forall_impl; [done|].
  intros [it c pp]. unfold task_ok, unfulfilled. simpl.
  intros Hok ->. by destruct pp.
Qed.

(** C1. With a limit of at least one, in every state of every execution
    of [runWithLimitedConcurrency], however the callbacks settle, the
    number of callbacks that have been started and have not settled is at
    most the limit. *)
Theorem runWithLimitedConcurrency_in_flight (items : list T)
    concurrencyLimit sched st :
  1 ≤ concurrencyLimit →
  run concurrencyLimit sched (runWithLimitedConcurrency items) = Some st →
  Z.of_nat (in_flight st) ≤ concurrencyLimit.
Proof.
  intros HL Hrun.
  pose proof (run_inv _ _ _ _ _ (init_inv items) Hrun) as Hinv.
  pose proof (run_bounded _ _ _ _ _ HL (init_inv items)
                (init_bounded items _ HL) Hrun) as [Hle _].
  pose proof (in_flight_queue _ _ Hinv). lia.
Qed.

Lemma settled_p_task ts i r :
  Forall task_ok ts → settled_p ts i = Some r →
  ∃ t, ts !! i = Some t ∧ p t = Some r ∧ cb t = Some r.
Proof.
  unfold settled_p. intros Hok Hsp.
  destruct (ts !! i) as [t|] eqn:Hi; [|done]. simpl in Hsp.
  exists t. split; [done|]. split; [done|].
  eapply Forall_lookup_1 in Hok; [|done]. unfold task_ok in Hok.
  rewrite Hsp in Hok. destruct (cb t); [by subst|done].
Qed.

Lemma notify_weight i r (pc : Pc (E := E)) :
  match notify i r pc with
  | AwaitRace _ _ => 3 | Dispatching => 2 | AwaitAll _ _ => 1
  | Returned | Threw _ => 0
  end%nat
  = match pc with
    | AwaitRace _ _ => 3 | Dispatching => 2 | AwaitAll _ _ => 1
    | Returned | Threw _ => 0
    end%nat.
Proof.
  destruct pc as [|w [?|]|w [?|]| |]; simpl; try done;
    by destruct (bool_decide _).
Qed.

(** Every step uses up some of what is left to do. *)
Lemma step_measure concurrencyLimit ev st st' :
  step concurrencyLimit ev st = Some st' → (measure st' < measure st)%nat.
Proof.
  destruct ev as [|i r|i]; unfold measure.
  - simpl. unfold tick.
    destruct (pc st) as [|w [[|e]|]|w [e|]| |e] eqn:Hpc; try done.
    + destruct (todo st) as [|it rest].
      * intros [= <-]. simpl. lia.
      * destruct (concurrencyLimit <=? _); intros [= <-]; simpl;
          rewrite !filter_app, !length_app; simpl; lia.
    + intros [= <-]. simpl. lia.
    + intros [= <-]. simpl. lia.
    + intros [= <-]. simpl. lia.
    + destruct (forallb _ w); [|done]. intros [= <-]. simpl. lia.
  - intros (_ & it & pp & Hi & ->)%step_callback. simpl.
    pose proof (filter_length_insert (λ t, cb t = None) (tasks st) i _
                  (mkTask it (Some r) pp) Hi) as Hcb.
    pose proof (filter_length_insert (λ t, p t = None) (tasks st) i _
                  (mkTask it (Some r) pp) Hi) as Hp.
    simpl in Hcb, Hp. lia.
  - intros (_ & it & r & Hi & ->)%step_handlers. simpl.
    pose proof (filter_length_insert (λ t, cb t = None) (tasks st) i _
                  (mkTask it (Some r) (Some r)) Hi) as Hcb.
    pose proof (filter_length_insert (λ t, p t = None) (tasks st) i _
                  (mkTask it (Some r) (Some r)) Hi) as Hp.
    simpl in Hcb, Hp. rewrite notify_weight. lia.
Qed.

Lemma run_measure concurrencyLimit sched : ∀ st st',
  run concurrencyLimit sched st = Some st' →
  (length sched + measure st' ≤ measure st)%nat.
Proof.
  induction sched as [|ev sched IH]; intros st st' Hrun; simpl in Hrun.
  - injection Hrun as <-. simpl. lia.
  - destruct (step concurrencyLimit ev st) as [st1|] eqn:Hstep; [|done].
    apply step_measure in Hstep. apply IH in Hrun. simpl in *. lia.
Qed.

(** The function throws only when it goes on from an [await] whose
    promise has been rejected. *)
Lemma step_threw concurrencyLimit ev st st' e :
  step concurrencyLimit ev st = Some st' →
  pc st' = Threw e →
  pc st = Threw e ∨
  (ev = Tick ∧ ∃ waiting, pc st = AwaitRace waiting (Some (Rejected e)) ∨
                          pc st = AwaitAll waiting (Some e)).
Proof.
  destruct ev as [|i r|i].
  - simpl. unfold tick.
    destruct (pc st) as [|w [[|e']|]|w [e'|]| |e'] eqn:Hpc; try done.
    + destruct (todo st) as [|it rest].
      * by intros [= <-].
      * destruct (concurrencyLimit <=? _); by intros [= <-].
    + by intros [= <-].
    + intros [= <-] [= ->]. right. split; [done|]. exists w. by left.
    + intros [= <-] [= ->]. right. split; [done|]. exists w. by right.
    + destruct (forallb _ w); [|done]. by intros [= <-].
  - intros (_ & it & pp & Hi & ->)%step_callback. simpl. by left.
  - intros (_ & it & r & Hi & ->)%step_handlers. simpl.
    destruct (pc st) as [|w [?|]|w [?|]| |]; simpl; try done;
      try (by left); by destruct (bool_decide _).
Qed.

(** When nothing but the settling of a callback can happen, [p] of every
    settled callback has settled. *)
Lemma quiescent_settled items concurrencyLimit st i t r :
  Inv items st → quiescent concurrencyLimit st →
  tasks st !! i = Some t → cb t = Some r →
  settled_p (tasks st) i = Some r.
Proof.
  intros Hinv [Htick Hhandlers] Hi Hcb.
  assert (Hpc : pc st ≠ Dispatching).
  { intros Hpc. simpl in Htick. unfold tick in Htick. rewrite Hpc in Htick.
    destruct (todo st); [done|]. by destruct (concurrencyLimit <=? _). }
  unfold settled_p. rewrite Hi. simpl.
  destruct (p t) as [r'|] eqn:Hp.
  - destruct Hinv as [_ Hok _ _ _ _].
    eapply Forall_lookup_1 in Hok; [|done]. unfold task_ok in Hok.
    rewrite Hcb, Hp in Hok. by subst.
  - specialize (Hhandlers i). unfold step in Hhandlers. rewrite Hi in Hhandlers.
    destruct t as [it c pp]. simpl in *. subst.
    by destruct (pc st).
Qed.

Lemma quiescent_tick items concurrencyLimit st :
  Inv items st → quiescent concurrencyLimit st →
  match pc st with
  | AwaitRace _ None | Returned | Threw _ => True
  | AwaitAll waiting None => forallb (fulfilled (tasks st)) waiting = false
  | _ => False
  end.
Proof.
  intros _ [Htick _]. simpl in Htick. unfold tick in Htick.
  destruct (pc st) as [|w [[|e]|]|w [e|]| |e]; try done.
  - destruct (todo st); [done|]. by destruct (concurrencyLimit <=? _).
  - by destruct (forallb _ w).
Qed.

(** A rejected callback, once nothing but the settling of a callback can
    happen, has made the function throw. *)
Lemma quiescent_rejected items concurrencyLimit st i t e :
  Inv items st → quiescent concurrencyLimit st →
  tasks st !! i = Some t → cb t = Some (Rejected e) →
  ∃ e', pc st = Threw e'.
Proof.
  intros Hinv Hq Hi Hcb.
  pose proof (quiescent_settled _ _ _ _ _ _ Hinv Hq Hi Hcb) as Hsp.
  pose proof (quiescent_tick _ _ _ Hinv Hq) as Htick.
  destruct Hinv as [_ _ _ Hqueue _ Hpc].
  assert (Hiq : i ∈ queue st).
  { apply Hqueue. split; [eauto using lookup_lt_Some|].
    unfold fulfilled. by rewrite Hsp. }
  destruct (pc st) as [|w [[|e']|]|w [e'|]| |e']; simpl in *; try done.
  - destruct Hpc as (_ & _ & Hsub & Hnone). rewrite Hnone in Hsp; auto.
    done.
  - destruct Hpc as (_ & _ & Hsub & Hnone). exfalso.
    eapply Hnone; [|done]. auto.
  - destruct Hpc as [_ Hall]. rewrite Hall in Hsp; [done|].
    eauto using lookup_lt_Some.
  - eauto.
Qed.

(** When every callback started has fulfilled and nothing but the
    settling of a callback can happen, the function has returned. *)
Lemma quiescent_fulfilled items concurrencyLimit st :
  Inv items st → quiescent concurrencyLimit st →
  (∀ t, t ∈ tasks st → cb t = Some Fulfilled) →
  pc st = Returned.
Proof.
  intros Hinv Hq Hall.
  assert (Hsp : ∀ i, (i < length (tasks st))%nat →
                     settled_p (tasks st) i = Some Fulfilled).
  { intros i Hi. apply lookup_lt_is_Some in Hi as [t Ht].
    eapply quiescent_settled; eauto.
    apply Hall. eauto using list_elem_of_lookup_2. }
  pose proof (quiescent_tick _ _ _ Hinv Hq) as Htick.
  destruct Hinv as [_ _ _ _ _ Hpc].
  destruct (pc st) as [|w [[|e']|]|w [e'|]| |e']; simpl in *; try done.
  - destruct Hpc as (Hne & Hlt & _ & Hnone). destruct w as [|i w]; [done|].
    assert (Hi : i ∈ i :: w) by left.
    specialize (Hnone i Hi). rewrite Hsp in Hnone; auto. done.
  - destruct Hpc as (_ & Hlt & _ & _). exfalso.
    apply not_true_iff_false in Htick. apply Htick.
    apply forallb_forall. intros i Hi%list_elem_of_In.
    unfold fulfilled. by rewrite Hsp by auto.
  - destruct Hpc as [i Hi]. rewrite Hsp in Hi; [done|].
    by eapply settled_p_lt.
Qed.

(** From every state, the handlers that are due and the function itself
    run until nothing but the settling of a callback can happen. *)
Lemma drain concurrencyLimit : ∀ n st,
  (measure st < n)%nat →
  ∃ sched' st', Forall internal sched' ∧
                run concurrencyLimit sched' st = Some st' ∧
                quiescent concurrencyLimit st'.
Proof.
  induction n as [|n IH]; intros st Hn; [lia|].
  destruct (step concurrencyLimit Tick st) as [st1|] eqn:Htick.
  { pose proof (step_measure _ _ _ _ Htick).
    destruct (IH st1) as (sched' & st' & Hint & Hrun & Hq); [lia|].
    exists (Tick :: sched'), st'. split; [by constructor|].
    split; [|done]. cbn [run]. by rewrite Htick. }
  destruct (list_find (λ t, is_Some (cb t) ∧ p t = None) (tasks st))
    as [[i t]|] eqn:Hfind.
  - apply list_find_Some in Hfind as (Hi & [[r Hcb] Hp] & _).
    assert (Hstep : is_Some (step concurrencyLimit (Handlers i) st)).
    { unfold step. rewrite Hi. destruct t as [it c pp]. simpl in *. subst.
      simpl in Htick. unfold tick in Htick.
      destruct (pc st) as [|w [[|e]|]|w [e|]| |e]; try done.
      destruct (todo st); [done|]. by destruct (concurrencyLimit <=? _). }
    destruct Hstep as [st2 Hstep].
    pose proof (step_measure _ _ _ _ Hstep).
    destruct (IH st2) as (sched' & st' & Hint & Hrun & Hq); [lia|].
    exists (Handlers i :: sched'), st'. split; [by constructor|].
    split; [|done]. cbn [run]. by rewrite Hstep.
  - exists [], st. split; [constructor|]. split; [done|].
    split; [done|]. intros i. apply list_find_None in Hfind.
    unfold step. destruct (tasks st !! i) as [[it c pp]|] eqn:Hi.
    + eapply Forall_lookup_1 in Hfind; [|done]. simpl in Hfind.
      destruct c as [r|], pp as [r'|]; try (by destruct (pc st)).
      exfalso. apply Hfind. eauto.
    + by destruct (pc st).
Qed.

(** C2. In every state of every execution of [runWithLimitedConcurrency],
    for every limit and however the callbacks settle: (1) an error the
    function throws is the one a callback rejected with; (2) the function
    returns only when every item has been passed to the callback and
    every callback has fulfilled, so not when a callback has rejected;
    (3) the function comes to throw only by going on from
    [await Promise.race] or [await Promise.all] whose promise has been
    rejected, not before; (4) an execution has at most [4 * n + 2] steps
    for [n] items, so the function cannot go on for ever; (5) when nothing
    but the settling of a callback can happen any more: if a callback has
    rejected the function has thrown; if every callback started has settled
    the function has returned or thrown; and if every callback started has
    fulfilled the function has returned; (6) such a state is reached from
    any state by steps that need no callback to settle. *)
Theorem runWithLimitedConcurrency_settles (items : list T)
    concurrencyLimit sched st :
  run concurrencyLimit sched (runWithLimitedConcurrency items) = Some st →
  (∀ e, pc st = Threw e →
        ∃ i t, tasks st !! i = Some t ∧ cb t = Some (Rejected e)) ∧
  (pc st = Returned →
     todo st = [] ∧ item <$> tasks st = items ∧
     ∀ t, t ∈ tasks st → cb t = Some Fulfilled) ∧
  (∀ ev st' e,
     step concurrencyLimit ev st = Some st' → pc st' = Threw e →
     pc st = Threw e ∨
     (ev = Tick ∧ ∃ waiting, pc st = AwaitRace waiting (Some (Rejected e)) ∨
                             pc st = AwaitAll waiting (Some e))) ∧
  (length sched ≤ 4 * length items + 2)%nat ∧
  (quiescent concurrencyLimit st →
     ((∃ t e, t ∈ tasks st ∧ cb t = Some (Rejected e)) →
      ∃ e, pc st = Threw e) ∧
     ((∀ t, t ∈ tasks st → cb t ≠ None) →
      pc st = Returned ∨ ∃ e, pc st = Threw e) ∧
     ((∀ t, t ∈ tasks st → cb t = Some Fulfilled) → pc st = Returned)) ∧
  (∃ sched' st', Forall internal sched' ∧
                 run concurrencyLimit sched' st = Some st' ∧
                 quiescent concurrencyLimit st').
Proof.
  intros Hrun.
  pose proof (run_inv _ _ _ _ _ (init_inv items) Hrun) as Hinv.
  split_and!.
  - intros e Hpc. destruct Hinv as [_ Hok _ _ _ Hpcok].
    rewrite Hpc in Hpcok. destruct Hpcok as [i Hi].
    apply settled_p_task in Hi as (t & ? & _ & ?); eauto.
  - intros Hpc. destruct Hinv as [Hitems Hok _ _ _ Hpcok].
    rewrite Hpc in Hpcok. destruct Hpcok as [Htodo Hall].
    split; [done|]. split; [by rewrite Htodo, app_nil_r in Hitems|].
    intros t (i & Hi)%list_elem_of_lookup.
    specialize (Hall i (lookup_lt_Some _ _ _ Hi)).
    apply settled_p_task in Hall as (t' & Hi' & _ & ?); [|done]. congruence.
  - intros ev st' e. apply step_threw.
  - apply run_measure in Hrun. unfold measure in Hrun at 2.
    simpl in Hrun. lia.
  - intros Hq. split_and!.
    + intros (t & e & (i & Hi)%list_elem_of_lookup & Hcb).
      by eapply quiescent_rejected.
    + intros Hsettled.
      destruct (Forall_Exists_dec
                  (λ t : Task (T := T) (E := E), is_fulfilled (cb t) = true)
                  (λ t, is_fulfilled (cb t) = false)
                  (λ t, match is_fulfilled (cb t) as b
                              return {b = true} + {b = false} with
                        | true => left eq_refl
                        | false => right eq_refl
                        end)
                  (tasks st)) as [Hall|Hex].
      * left. eapply quiescent_fulfilled; eauto.
        intros t Ht. rewrite Forall_forall in Hall.
        by apply is_fulfilled_true, Hall.
      * right. apply Exists_exists in Hex as (t & Ht & Hf).
        specialize (Hsettled t Ht).
        destruct (cb t) as [[|e]|] eqn:Hcb; try done.
        apply list_elem_of_lookup in Ht as [i Hi].
        by eapply quiescent_rejected.
    + by eapply quiescent_fulfilled.
  - apply (drain concurrencyLimit (S (measure st))). lia.
Qed.
End LimiterFacts.

(** With room for all of them, three callbacks started in the order of the
    input may settle in the reverse order, and the function returns. *)
Example reverse_completion :
  run (E := string) 4
    [Tick; Tick; Tick; Tick;
     CallbackSettles 2 Fulfilled; Handlers 2;
     CallbackSettles 1 Fulfilled; Handlers 1;
     CallbackSettles 0 Fulfilled; Handlers 0; Tick]
    (runWithLimitedConcurrency ["a/b.txt"; "a/c.txt"; "d.txt"]%string)
  = Some (mkState []
            [mkTask "a/b.txt"%string (Some Fulfilled) (Some Fulfilled);
             mkTask "a/c.txt"%string (Some Fulfilled) (Some Fulfilled);
             mkTask "d.txt"%string (Some Fulfilled) (Some Fulfilled)]
            [] Returned).
Proof. vm_compute. reflexivity. Qed.

Lemma runWithLimitedConcurrency_in_flight_witness :
  let sched : list (Event (E := string)) :=
    [Tick; Tick; CallbackSettles 0 Fulfilled; Handlers 0; Tick; Tick] in
  let st :=
    mkState [] [mkTask "a"%string (Some Fulfilled) (Some Fulfilled);
                mkTask "b"%string None None; mkTask "c"%string None None]
            [1; 2]%nat (AwaitRace [1; 2]%nat None) in
  run 2 sched (runWithLimitedConcurrency ["a"; "b"; "c"]%string) = Some st ∧
  in_flight st = 2%nat ∧
  Z.of_nat (in_flight st) ≤ 2.
Proof.
  intros sched st.
  assert (Hrun : run 2 sched (runWithLimitedConcurrency ["a"; "b"; "c"]%string)
                 = Some st) by (vm_compute; reflexivity).
  split; [exact Hrun|]. split; [vm_compute; reflexivity|].
  apply (runWithLimitedConcurrency_in_flight ["a"; "b"; "c"]%string 2 sched st);
    [lia|exact Hrun].
Defined.

Lemma runWithLimitedConcurrency_settles_witness :
  let sched : list (Event (E := string)) :=
    [Tick; Tick; CallbackSettles 0 Fulfilled; Handlers 0; Tick; Tick;
     CallbackSettles 2 (Rejected "item 3"%string); Handlers 2; Tick] in
  let st :=
    mkState [4; 5]%nat
            [mkTask 1%nat (Some Fulfilled) (Some Fulfilled);
             mkTask 2%nat None None;
             mkTask 3%nat (Some (Rejected "item 3"%string))
                    (Some (Rejected "item 3"%string))]
            [1; 2]%nat (Threw "item 3"%string) in
  run 2 sched (runWithLimitedConcurrency [1; 2; 3; 4; 5]%nat) = Some st ∧
  quiescent 2 st ∧
  (∃ e, pc st = Threw e) ∧
  (length sched ≤ 4 * 5 + 2)%nat.
Proof.
  intros sched st.
  assert (Hrun : run 2 sched (runWithLimitedConcurrency [1; 2; 3; 4; 5]%nat)
                 = Some st) by (vm_compute; reflexivity).
  assert (Hq : quiescent 2 st).
  { split; [reflexivity|].
    intros i. do 3 (destruct i as [|i]; [reflexivity|]). reflexivity. }
  destruct (runWithLimitedConcurrency_settles [1; 2; 3; 4; 5]%nat 2 sched st
              Hrun) as (_ & _ & _ & Hlen & Hquiet & _).
  split; [exact Hrun|]. split; [exact Hq|]. split; [|exact Hlen].
  destruct (Hquiet Hq) as (Hthrew & _ & _). apply Hthrew.
  exists (mkTask 3%nat (Some (Rejected "item 3"%string))
                 (Some (Rejected "item 3"%string))), "item 3"%string.
  split; [|reflexivity]. apply list_elem_of_lookup. by exists 2%nat.
Defined.
End LimiterFacts.

(** ** Part III: further properties of the code *)

(** *** [sendRequestWithRetry]: the budget and the error thrown *)

Module RetryBudget.
Import Retry.
Section RetryBudget.
Context {T : Type}.
Implicit Types (requestFn : nat → Settled T) (tryLimits : Z).

(** X1.  The request function is never called more often than the budget
    allows, and not at all with a budget of zero or less. *)
Theorem calls_within_budget requestFn tryLimits :
  ∃ out n, sendRequestWithRetry requestFn tryLimits = Some (out, n) ∧
           Z.of_nat n ≤ Z.max 0 tryLimits.
Proof.
  destruct (RetryFacts.sendRequestWithRetry_spec requestFn tryLimits)
    as (out & n & Heq & _ & Hbud & _).
  exists out, n. split; [done|]. destruct Hbud as [->|[? _]]; lia.
Qed.

(** X2.  A first call is made exactly when the budget is positive.  A
    call is followed by another one exactly when the budget is not used
    up and the call rejected with nothing, with a value without a status
    or with a status that is 0 or in [500,600), or answered with a
    status that is neither 200 nor 201 and is 0 or in [500,600), or with
    any other status than 200 and 201 on a response that
    [JSON.stringify] throws on. *)
Theorem retries_exactly_when requestFn tryLimits :
  ∃ out n, sendRequestWithRetry requestFn tryLimits = Some (out, n) ∧
    ((0 < n)%nat ↔ 0 < tryLimits) ∧
    ∀ k, (k < n)%nat →
      ((S k < n)%nat ↔
       Z.of_nat (S k) < tryLimits ∧
       match requestFn k with
       | Fulfil res =>
           status res ≠ 200 ∧ status res ≠ 201 ∧
           (stringifies res = false ∨ status res = 0 ∨
            500 ≤ status res < 600)
       | Reject None => True
       | Reject (Some e) =>
           match response_status e with
           | None => True
           | Some s => s = 0 ∨ 500 ≤ s < 600
           end
       end).
Proof.
  assert (Hretry : ∀ s : Settled T,
            succeeds s = false ∧ canTry (attempt_status s) = true ↔
            match s with
            | Fulfil res =>
                status res ≠ 200 ∧ status res ≠ 201 ∧
                (stringifies res = false ∨ status res = 0 ∨
                 500 ≤ status res < 600)
            | Reject None => True
            | Reject (Some e) =>
                match response_status e with
                | None => True
                | Some s => s = 0 ∨ 500 ≤ s < 600
                end
            end).
  { intros [res|[e|]]; simpl.
    - rewrite <-not_true_iff_false, RetryFacts.isSuccess_spec.
      rewrite RetryFacts.canTry_spec.
      destruct (stringifies res); split.
      + intros [Hs [?|[[= ->]|(s & [= <-] & ?)]]]; [done|lia|lia].
      + intros (? & ? & [?|[->|?]]); [done| |].
        * split; [lia|]. by right; left.
        * split; [lia|]. right; right. by eexists.
      + intros [Hs _]. split; [lia|]. split; [lia|]. by left.
      + intros (? & ? & _). split; [lia|]. by left.
    - rewrite RetryFacts.canTry_spec.
      destruct (response_status e) as [s|]; split.
      + intros [_ [?|[[= ->]|(s' & [= <-] & ?)]]]; [done|by left|by right].
      + intros [->|?]; (split; [done|]); [by right; left|].
        right; right. by eexists.
      + done.
      + intros _. split; [done|]. by left.
    - done. }
  destruct (RetryFacts.sendRequestWithRetry_spec requestFn tryLimits)
    as (out & n & Heq & _ & Hbud & Hall & Hout).
  exists out, n. split; [done|]. split.
  - split.
    + intros Hn. destruct Hbud as [->|[? _]]; lia.
    + intros Hpos. destruct (decide (n = 0%nat)) as [->|]; [|lia]. exfalso.
      destruct out as [res|e]; [destruct Hout; lia|].
      destruct Hout as [(_ & Hc & _)|(? & _)]; [|lia].
      unfold loop_cond in Hc. simpl in Hc.
      apply andb_false_iff in Hc as [Hc|Hc]; [|done].
      apply Z.ltb_ge in Hc. lia.
  - intros k Hk. rewrite <-Hretry. split.
    + intros Hlt. destruct (Hall k) as [? ?]; [lia|done|].
      split; [|done]. destruct Hbud as [->|[? _]]; lia.
    + intros (Hlim & Hs & Hc).
      destruct (decide (S k < n)%nat) as [|Hge]; [done|exfalso].
      assert (n = S k) as -> by lia. simpl in Hout.
      destruct out as [res|e].
      * destruct Hout as (_ & Hr & Hsucc). rewrite Hr in Hs. simpl in Hs.
        congruence.
      * destruct Hout as [(? & _)|(_ & _ & Hcond & _)]; [lia|].
        unfold loop_cond in Hcond. rewrite Hc, andb_true_r in Hcond.
        apply Z.ltb_ge in Hcond. lia.
Qed.

(** X3.  When the function throws after at least one call, the error is
    the one of the last call: the value the call rejected with; or the
    error made from its response; or, when [JSON.stringify] throws on
    that response, the [TypeError] of [JSON.stringify] in place of that
    error.  What earlier calls left is lost. *)
Theorem throws_last_error requestFn tryLimits e n :
  sendRequestWithRetry requestFn tryLimits = Some (Throw e, n) →
  (0 < n)%nat →
  match requestFn (pred n) with
  | Fulfil res =>
      if stringifies res then e = HttpRequestFailed res
      else e = StringifyTypeError res
  | Reject (Some x) => e = External x
  | Reject None => e = BadTryLimits tryLimits
  end.
Proof.
  intros Heq Hn.
  destruct (RetryFacts.sendRequestWithRetry_spec requestFn tryLimits)
    as (out' & n' & Heq' & _ & _ & _ & Hout).
  rewrite Heq in Heq'. injection Heq' as <- <-.
  destruct Hout as [(-> & _)|(_ & _ & _ & ->)]; [lia|].
  destruct (requestFn (pred n)) as [res|[x|]]; simpl; [|done|done].
  by destruct (stringifies res).
Qed.

(** X4.  When no call ever answers 200 or 201 and every call leaves a status
    [canTry] accepts, the whole budget is used and the function throws. *)
Theorem budget_exhausted requestFn tryLimits :
  (∀ k, succeeds (requestFn k) = false ∧
        canTry (attempt_status (requestFn k)) = true) →
  0 ≤ tryLimits →
  ∃ e, sendRequestWithRetry requestFn tryLimits
       = Some (Throw e, Z.to_nat tryLimits).
Proof.
  intros Hfail Hpos.
  destruct (RetryFacts.sendRequestWithRetry_spec requestFn tryLimits)
    as (out & n & Heq & _ & Hbud & _ & Hout).
  destruct out as [res|e].
  { destruct Hout as (_ & Hr & Hs). destruct (Hfail (pred n)) as [Hf _].
    rewrite Hr in Hf. simpl in Hf. congruence. }
  exists e. rewrite Heq. do 2 f_equal.
  destruct Hout as [(-> & Hc & _)|(Hn & _ & Hc & _)].
  - unfold loop_cond in Hc. simpl in Hc.
    apply andb_false_iff in Hc as [Hc|Hc]; [|done].
    apply Z.ltb_ge in Hc. lia.
  - destruct (Hfail (pred n)) as [_ Hcan].
    unfold loop_cond in Hc. rewrite Hcan, andb_true_r in Hc.
    apply Z.ltb_ge in Hc. destruct Hbud as [->|[? _]]; lia.
Qed.
End RetryBudget.

Lemma throws_last_error_witness :
  sendRequestWithRetry
    (λ k, Fulfil (mkResponse 204 () false))
    2
  = Some (Throw (StringifyTypeError (mkResponse 204 () false)), 2%nat) ∧
  StringifyTypeError (mkResponse 204 () false)
  = StringifyTypeError (T := ()) (mkResponse 204 () false).
Proof.
  split; [reflexivity|].
  exact (throws_last_error
           (λ k, Fulfil (mkResponse 204 () false))
           2 _ 2%nat eq_refl (Nat.lt_0_succ 1)).
Defined.

Lemma budget_exhausted_witness :
  ∃ e : JsError (),
    sendRequestWithRetry
      (λ k, Reject (Some (mkThrown false (Some 503) k))) 4
    = Some (Throw e, 4%nat).
Proof.
  apply (budget_exhausted (T := ())
           (λ k, Reject (Some (mkThrown false (Some 503) k))) 4).
  - intros k. split; reflexivity.
  - lia.
Defined.
End RetryBudget.

(** *** [sendRequestWithTimeout]: the timer, the token and the calls *)

Module TimeoutInvariants.
Import Retry Timeout.
Section TimeoutInvariants.
Context {T : Type}.
Implicit Types (st : State (T := T)) (sched : list (Event (T := T))).

Lemma settle_consistent (en : Env) out :
  (cancelRequested en = true ↔ timer en = Fired) →
  let st := settle (T := T) en out in
  (cancelRequested (env st) = true ↔ timer (env st) = Fired) ∧
  (∀ res, pc st = Done (Return res) → ∀ ms, timer (env st) ≠ Armed ms).
Proof.
  intros Hc. destruct out as [res|err]; simpl.
  - split; [|by destruct (timer en)].
    rewrite Hc. by destruct (timer en).
  - split; [done|]. intros res [=].
Qed.

Lemma enter_consistent tryLimits (en : Env) i status error :
  (cancelRequested en = true ↔ timer en = Fired) →
  let st := enter (T := T) tryLimits en i status error in
  (cancelRequested (env st) = true ↔ timer (env st) = Fired) ∧
  (∀ res, pc st = Done (Return res) → ∀ ms, timer (env st) ≠ Armed ms).
Proof.
  intros Hc. unfold enter. destruct (loop_cond _ _ _).
  - simpl. split; [done|]. intros res [=].
  - by apply settle_consistent.
Qed.

Lemma step_consistent tryLimits ev st st' :
  step tryLimits ev st = Some st' →
  (cancelRequested (env st) = true ↔ timer (env st) = Fired) ∧
  (∀ res, pc st = Done (Return res) → ∀ ms, timer (env st) ≠ Armed ms) →
  (cancelRequested (env st') = true ↔ timer (env st') = Fired) ∧
  (∀ res, pc st' = Done (Return res) → ∀ ms, timer (env st') ≠ Armed ms).
Proof.
  intros Hstep [Hc Hr]. destruct ev as [|s]; simpl in Hstep.
  - destruct (timer (env st)); try done. injection Hstep as <-. simpl.
    split; [done|]. intros res _ ms [=].
  - destruct (pc st) as [i status error|]; [|done].
    destruct (loop_body s) as [res|status' error']; injection Hstep as <-.
    + exact (settle_consistent (env st) (Return res) Hc).
    + exact (enter_consistent tryLimits (env st) (S i) status' error' Hc).
Qed.

Lemma run_consistent tryLimits sched : ∀ st st',
  run tryLimits sched st = Some st' →
  (cancelRequested (env st) = true ↔ timer (env st) = Fired) ∧
  (∀ res, pc st = Done (Return res) → ∀ ms, timer (env st) ≠ Armed ms) →
  (cancelRequested (env st') = true ↔ timer (env st') = Fired) ∧
  (∀ res, pc st' = Done (Return res) → ∀ ms, timer (env st') ≠ Armed ms).
Proof.
  induction sched as [|ev sched IH]; intros st st' Hrun Hinv.
  - by injection Hrun as <-.
  - simpl in Hrun. destruct (step tryLimits ev st) as [st1|] eqn:Hstep;
      [|done]. simpl in Hrun.
    eapply IH; [done|]. by eapply step_consistent.
Qed.

Lemma start_consistent tok timeoutInMs tryLimits :
  let st := sendRequestWithTimeout (T := T) tok timeoutInMs tryLimits in
  (cancelRequested (env st) = true ↔ timer (env st) = Fired) ∧
  (∀ res, pc st = Done (Return res) → ∀ ms, timer (env st) ≠ Armed ms).
Proof.
  exact (enter_consistent tryLimits (mkEnv (Armed timeoutInMs) tok false [])
           0 None None ltac:(done)).
Qed.

(** X5.  Cancellation is requested by the timer and by nothing else: at every
    point of every run, [source.cancel()] has been called exactly when
    the timer has fired.  In particular a cleared timer never cancels. *)
Theorem cancel_only_by_timer tok timeoutInMs tryLimits sched st :
  run tryLimits sched (sendRequestWithTimeout tok timeoutInMs tryLimits)
  = Some st →
  (cancelRequested (env st) = true ↔ timer (env st) = Fired).
Proof.
  intros Hrun. eapply run_consistent in Hrun as [? _]; [done|].
  apply start_consistent.
Qed.

(** X6.  Once the function has returned a response its timer is not armed any
    more: it has been cleared, or it had fired before the response came. *)
Theorem returned_timer_not_armed tok timeoutInMs tryLimits sched st res :
  run tryLimits sched (sendRequestWithTimeout tok timeoutInMs tryLimits)
  = Some st →
  pc st = Done (Return res) →
  timer (env st) = Cleared ∨ timer (env st) = Fired.
Proof.
  intros Hrun Hpc. eapply run_consistent in Hrun as [_ Hr];
    [|apply start_consistent].
  specialize (Hr res Hpc). destruct (timer (env st)) as [ms| |]; auto.
  by destruct (Hr ms).
Qed.

(** The part of a state the timer does not touch. *)
Lemma step_timer_blind tryLimits (s : Settled T) st1 st2 st1' :
  pc st1 = pc st2 →
  calls (env st1) = calls (env st2) →
  token (env st1) = token (env st2) →
  step tryLimits (RequestSettles s) st1 = Some st1' →
  ∃ st2', step tryLimits (RequestSettles s) st2 = Some st2' ∧
          pc st1' = pc st2' ∧ calls (env st1') = calls (env st2') ∧
          token (env st1') = token (env st2').
Proof.
  intros Hpc Hcalls Htok. simpl. rewrite <-Hpc.
  destruct (pc st1) as [i status error|]; [|done].
  destruct (loop_body s) as [res|status' error']; intros [= <-].
  - eexists. split; [done|]. simpl. auto.
  - eexists. split; [done|]. unfold enter.
    destruct (loop_cond _ _ _); simpl; rewrite ?Hcalls, ?Htok; auto.
Qed.

Lemma run_timer_blind tryLimits sched : ∀ st1 st2 st1',
  pc st1 = pc st2 →
  calls (env st1) = calls (env st2) →
  token (env st1) = token (env st2) →
  run tryLimits sched st1 = Some st1' →
  ∃ st2', run tryLimits (RequestSettles <$> settlements sched) st2
          = Some st2' ∧
          pc st1' = pc st2' ∧ calls (env st1') = calls (env st2') ∧
          token (env st1') = token (env st2').
Proof.
  induction sched as [|ev sched IH]; intros st1 st2 st1' Hpc Hcalls Htok Hrun.
  - injection Hrun as <-. by exists st2.
  - simpl in Hrun. destruct (step tryLimits ev st1) as [st|] eqn:Hstep;
      [|done]. simpl in Hrun. destruct ev as [|s].
    + simpl in Hstep. destruct (timer (env st1)); try done.
      injection Hstep as <-.
      change (settlements (TimerFires :: sched)) with (settlements sched).
      eapply IH; [..|done]; done.
    + eapply step_timer_blind in Hstep as (st2' & Hstep2 & ? & ? & ?);
        [|done..].
      change (settlements (RequestSettles s :: sched))
        with (s :: settlements sched).
      rewrite fmap_cons. cbn [run]. rewrite Hstep2. simpl.
      eapply IH; [..|done]; done.
Qed.

(** X7.  The timer by itself changes nothing of what the function does: a run
    and the same run with the firings of the timer left out make the same
    calls and end at the same point with the same outcome.  The timeout
    takes effect only when the request function settles in answer to the
    cancelled token. *)
Theorem timer_alone_settles_nothing tok timeoutInMs tryLimits sched st :
  run tryLimits sched (sendRequestWithTimeout tok timeoutInMs tryLimits)
  = Some st →
  ∃ st', run tryLimits (RequestSettles <$> settlements sched)
             (sendRequestWithTimeout tok timeoutInMs tryLimits) = Some st' ∧
         pc st' = pc st ∧ calls (env st') = calls (env st).
Proof.
  intros Hrun.
  eapply run_timer_blind in Hrun as (st' & Hrun' & ? & ? & _); [|done..].
  exists st'. auto.
Qed.

Lemma enter_calls tryLimits (en : Env) i status error :
  length (calls en) = i →
  Z.of_nat i ≤ Z.max 0 tryLimits →
  let st := enter (T := T) tryLimits en i status error in
  match pc st with
  | Awaiting j _ _ => length (calls (env st)) = S j ∧ Z.of_nat j < tryLimits
  | Done _ => Z.of_nat (length (calls (env st))) ≤ Z.max 0 tryLimits
  end.
Proof.
  intros Hlen Hle. unfold enter.
  destruct (loop_cond tryLimits i status) eqn:Hc; simpl.
  - rewrite length_app. simpl. split; [lia|].
    apply andb_true_iff in Hc as [Hc _]. by apply Z.ltb_lt in Hc.
  - lia.
Qed.

Lemma step_calls_bound tryLimits ev st st' :
  step tryLimits ev st = Some st' →
  match pc st with
  | Awaiting j _ _ => length (calls (env st)) = S j ∧ Z.of_nat j < tryLimits
  | Done _ => Z.of_nat (length (calls (env st))) ≤ Z.max 0 tryLimits
  end →
  match pc st' with
  | Awaiting j _ _ => length (calls (env st')) = S j ∧ Z.of_nat j < tryLimits
  | Done _ => Z.of_nat (length (calls (env st'))) ≤ Z.max 0 tryLimits
  end.
Proof.
  intros Hstep Hinv. destruct ev as [|s]; simpl in Hstep.
  - destruct (timer (env st)); try done. by injection Hstep as <-.
  - destruct (pc st) as [i status error|]; [|done]. destruct Hinv as [Hl Hi].
    destruct (loop_body s) as [res|status' error']; injection Hstep as <-.
    + simpl. lia.
    + exact (enter_calls tryLimits (env st) (S i) status' error' Hl
               ltac:(lia)).
Qed.

(** X8.  At every point of every run the request function has been called at
    most [tryLimits] times, and not at all when [tryLimits] is zero or
    less. *)
Theorem calls_within_tryLimits tok timeoutInMs tryLimits sched st :
  run tryLimits sched (sendRequestWithTimeout tok timeoutInMs tryLimits)
  = Some st →
  Z.of_nat (length (calls (env st))) ≤ Z.max 0 tryLimits.
Proof.
  intros Hrun.
  cut (match pc st with
       | Awaiting j _ _ =>
           length (calls (env st)) = S j ∧ Z.of_nat j < tryLimits
       | Done _ => Z.of_nat (length (calls (env st))) ≤ Z.max 0 tryLimits
       end).
  { destruct (pc st); [|done]. lia. }
  revert Hrun.
  generalize (enter_calls tryLimits (mkEnv (Armed timeoutInMs) tok false [])
                0 None None eq_refl ltac:(lia)).
  change (enter tryLimits _ 0 None None)
    with (sendRequestWithTimeout (T := T) tok timeoutInMs tryLimits).
  generalize (sendRequestWithTimeout (T := T) tok timeoutInMs tryLimits).
  induction sched as [|ev sched IH]; intros st0 Hinv Hrun.
  - by injection Hrun as <-.
  - simpl in Hrun. destruct (step tryLimits ev st0) as [st1|] eqn:Hstep;
      [|done]. simpl in Hrun.
    eapply IH; [|done]. by eapply step_calls_bound.
Qed.
End TimeoutInvariants.

Lemma cancel_only_by_timer_witness :
  run 2 [RequestSettles (Fulfil (mkResponse 503 () true)); TimerFires]
      (sendRequestWithTimeout 7 1000 2)
  = Some (mkState (mkEnv Fired 7 true [7%nat; 7%nat])
                  (Awaiting 1 (Some 503)
                     (Some (HttpRequestFailed (mkResponse 503 () true))))) ∧
  (true = true ↔ Fired = Fired).
Proof.
  assert (Hrun : run 2 [RequestSettles (Fulfil (mkResponse 503 () true));
                        TimerFires]
                     (sendRequestWithTimeout 7 1000 2)
                 = Some (mkState (mkEnv Fired 7 true [7%nat; 7%nat])
                           (Awaiting 1 (Some 503)
                              (Some (HttpRequestFailed (mkResponse 503 () true))))))
    by (vm_compute; reflexivity).
  split; [exact Hrun|].
  exact (cancel_only_by_timer 7 1000 2 _ _ Hrun).
Defined.

Lemma returned_timer_not_armed_witness :
  run 2 [TimerFires; RequestSettles (Fulfil (mkResponse 200 () true))]
      (sendRequestWithTimeout 7 1000 2)
  = Some (mkState (mkEnv Fired 7 true [7%nat])
                  (Done (Return (mkResponse 200 () true)))) ∧
  (Fired = Cleared ∨ Fired = Fired).
Proof.
  assert (Hrun : run 2 [TimerFires;
                        RequestSettles (Fulfil (mkResponse 200 () true))]
                     (sendRequestWithTimeout 7 1000 2)
                 = Some (mkState (mkEnv Fired 7 true [7%nat])
                           (Done (Return (mkResponse 200 () true)))))
    by (vm_compute; reflexivity).
  split; [exact Hrun|].
  exact (returned_timer_not_armed 7 1000 2 _ _ _ Hrun eq_refl).
Defined.

Lemma timer_alone_settles_nothing_witness :
  ∃ st', run 2 (RequestSettles <$>
                settlements [TimerFires;
                             RequestSettles (Fulfil (mkResponse 200 () true))])
             (sendRequestWithTimeout 7 1000 2) = Some st' ∧
         pc st' = Done (Return (mkResponse 200 () true)) ∧
         calls (env st') = [7%nat].
Proof.
  assert (Hrun : run 2 [TimerFires;
                        RequestSettles (Fulfil (mkResponse 200 () true))]
                     (sendRequestWithTimeout 7 1000 2)
                 = Some (mkState (mkEnv Fired 7 true [7%nat])
                           (Done (Return (mkResponse 200 () true)))))
    by (vm_compute; reflexivity).
  exact (timer_alone_settles_nothing 7 1000 2 _ _ Hrun).
Defined.

Lemma calls_within_tryLimits_witness :
  Z.of_nat (length [7%nat; 7%nat]) ≤ Z.max 0 2.
Proof.
  assert (Hrun : run 2 [RequestSettles (Fulfil (mkResponse 503 () true));
                        TimerFires]
                     (sendRequestWithTimeout 7 1000 2)
                 = Some (mkState (mkEnv Fired 7 true [7%nat; 7%nat])
                           (Awaiting 1 (Some 503)
                              (Some (HttpRequestFailed (mkResponse 503 () true))))))
    by (vm_compute; reflexivity).
  exact (calls_within_tryLimits 7 1000 2 _ _ Hrun).
Defined.
End TimeoutInvariants.

(** *** [runWithLimitedConcurrency]: order, queue and limits *)

Module LimiterOrder.
Import Limiter.
Section LimiterOrder.
Context {T E : Type}.
Implicit Types (st : State (T := T) (E := E)).
Implicit Types (sched : list (Event (E := E))).

Lemma run_app concurrencyLimit sched1 sched2 st :
  run concurrencyLimit (sched1 ++ sched2) st
  = run concurrencyLimit sched1 st ≫= run concurrencyLimit sched2.
Proof.
  revert st. induction sched1 as [|ev sched1 IH]; intros st; [done|].
  simpl. destruct (step concurrencyLimit ev st) as [st1|]; [|done].
  simpl. apply IH.
Qed.

(** X9.  The callbacks are started in the order of the items, one for each
    item and none twice: at every point of every run the items of the
    callbacks started so far, followed by the items not reached yet, are
    the items given. *)
Theorem started_in_item_order (items : list T) concurrencyLimit sched st :
  run concurrencyLimit sched (runWithLimitedConcurrency items) = Some st →
  (item <$> tasks st) ++ todo st = items.
Proof.
  intros Hrun.
  by destruct (LimiterFacts.run_inv _ _ _ _ _
                 (LimiterFacts.init_inv items) Hrun).
Qed.

(** X10.  At every point of every run the queue holds no promise twice;
    it holds only promises [p] that have not fulfilled; and it holds the
    promise of every callback that is pending or has rejected: the
    promise of a rejected callback is never taken out.  Nothing is said
    of a promise whose callback has fulfilled and whose [.then] handler
    has run: it is out of the queue, fulfilled or about to be. *)
Theorem queue_holds_unfulfilled (items : list T) concurrencyLimit sched st :
  run concurrencyLimit sched (runWithLimitedConcurrency items) = Some st →
  NoDup (queue st) ∧
  (∀ i, i ∈ queue st → ∃ t, tasks st !! i = Some t ∧ p t ≠ Some Fulfilled) ∧
  (∀ i t, tasks st !! i = Some t → cb t ≠ Some Fulfilled → i ∈ queue st).
Proof.
  intros Hrun.
  destruct (LimiterFacts.run_inv _ _ _ _ _
              (LimiterFacts.init_inv items) Hrun) as [_ Hok Hnd Hq _ _].
  split; [done|]. unfold fulfilled, settled_p in Hq. split.
  - intros i [Hlt Hf]%Hq. apply lookup_lt_is_Some in Hlt as [t Ht].
    exists t. split; [done|]. rewrite Ht in Hf. simpl in Hf.
    intros Hp. by rewrite Hp in Hf.
  - intros i t Ht Hcb. apply Hq. split; [by eapply lookup_lt_Some|].
    rewrite Ht. simpl.
    pose proof (proj1 (Forall_lookup _ _) Hok i t Ht) as Htask.
    unfold task_ok in Htask.
    destruct (cb t) as [r|], (p t) as [[|e]|]; simpl; try done.
    by subst r.
Qed.

(** X11.  When the handlers of a promise run, the promise is in the queue:
    [indexOf] never answers [-1], so that the handler of a fulfilled
    promise takes out this promise and no other, and a rejection leaves
    the queue as it is. *)
Theorem handler_removes_own_promise (items : list T) concurrencyLimit
    sched st i st' :
  run concurrencyLimit sched (runWithLimitedConcurrency items) = Some st →
  step concurrencyLimit (Handlers i) st = Some st' →
  i ∈ queue st ∧
  ∃ it r, tasks st !! i = Some (mkTask it (Some r) None) ∧
    match r with
    | Fulfilled =>
        S (length (queue st')) = length (queue st) ∧
        ∀ j, j ∈ queue st' ↔ j ∈ queue st ∧ j ≠ i
    | Rejected _ => queue st' = queue st
    end.
Proof.
  intros Hrun Hstep.
  pose proof (LimiterFacts.run_inv _ _ _ _ _
                (LimiterFacts.init_inv items) Hrun) as Hinv.
  pose proof (LimiterFacts.handlers_inv _ _ _ _ _ Hinv Hstep)
    as (_ & _ & _ & _ & Hin & _).
  split; [done|].
  apply LimiterFacts.step_handlers in Hstep as (_ & it & r & Ht & ->).
  exists it, r. split; [done|]. destruct r as [|e]; [|done]. simpl.
  destruct Hinv as [_ _ Hnd _ _ _].
  by destruct (LimiterFacts.splice_indexOf_elem i (queue st) Hin Hnd)
    as (_ & ? & ?).
Qed.

Lemma step_limit_below_one concurrencyLimit ev st :
  concurrencyLimit ≤ 1 →
  step concurrencyLimit ev st = step 1 ev st.
Proof.
  intros HL. destruct ev as [|i r|i]; [|done..]. simpl. unfold tick.
  destruct (pc st); try done. destruct (todo st) as [|it rest]; [done|].
  rewrite length_app. simpl.
  rewrite !(proj2 (Z.leb_le _ _)) by lia. done.
Qed.

Lemma run_limit_below_one concurrencyLimit sched : ∀ st,
  concurrencyLimit ≤ 1 →
  run concurrencyLimit sched st = run 1 sched st.
Proof.
  induction sched as [|ev sched IH]; intros st HL; [done|]. simpl.
  rewrite step_limit_below_one by done.
  destruct (step 1 ev st) as [st1|]; [|done]. simpl. by apply IH.
Qed.


Lemma step_sequential items ev st st' :
  Inv items st → bounded 1 st →
  step 1 ev st = Some st' →
  (∀ i, (S i < length (tasks st))%nat → fulfilled (tasks st) i = true) →
  ∀ i, (S i < length (tasks st'))%nat → fulfilled (tasks st') i = true.
Proof.
  intros Hinv [_ Hb] Hstep Hseq. destruct ev as [|j r|j].
  - simpl in Hstep. unfold tick in Hstep.
    destruct (pc st) as [|w [[|e]|]|w [e|]| |e] eqn:Hpc; try done.
    + destruct (todo st) as [|it rest]; [by injection Hstep as <-|].
      assert (Hall : ∀ i, (i < length (tasks st))%nat →
                          fulfilled (tasks st) i = true).
      { intros i Hi. destruct (fulfilled (tasks st) i) eqn:Hf; [done|].
        destruct Hinv as [_ _ _ Hq _ _].
        assert (Hin : i ∈ queue st) by by apply Hq.
        destruct (queue st); [by apply elem_of_nil in Hin|simpl in Hb; lia]. }
      assert (Hnew : ∀ i, (S i < length (tasks st ++ [mkTask it None None]))%nat
                → fulfilled (tasks st ++ [mkTask it None None]) i = true).
      { intros i Hi. rewrite length_app in Hi. simpl in Hi.
        unfold fulfilled. rewrite LimiterFacts.settled_p_new.
        apply Hall. lia. }
      destruct (1 <=? _); by injection Hstep as <-.
    + by injection Hstep as <-.
    + by injection Hstep as <-.
    + by injection Hstep as <-.
    + destruct (forallb _ w); [|done]. by injection Hstep as <-.
  - apply LimiterFacts.step_callback in Hstep as (_ & it & pp & Ht & ->).
    simpl. intros i Hi. rewrite length_insert in Hi. unfold fulfilled.
    rewrite (LimiterFacts.settled_p_same _ _ _ _ Ht) by done. by apply Hseq.
  - apply LimiterFacts.step_handlers in Hstep as (_ & it & r & Ht & ->).
    simpl. intros i Hi. rewrite length_insert in Hi.
    destruct (decide (i = j)) as [->|Hne].
    + specialize (Hseq j Hi). unfold fulfilled, settled_p in Hseq.
      by rewrite Ht in Hseq.
    + unfold fulfilled. rewrite LimiterFacts.settled_p_insert_ne by done.
      by apply Hseq.
Qed.

(** X13.  With a limit of one or less the items are worked through strictly
    one after the other: at every point of every run all promises but
    that of the callback started last have fulfilled, so that a callback
    is started only after every earlier one has come to its end. *)
Theorem limit_one_is_sequential (items : list T) concurrencyLimit
    sched st i t :
  concurrencyLimit ≤ 1 →
  run concurrencyLimit sched (runWithLimitedConcurrency items) = Some st →
  tasks st !! i = Some t →
  (S i < length (tasks st))%nat →
  cb t = Some Fulfilled ∧ p t = Some Fulfilled.
Proof.
  intros HL Hrun Ht Hi. rewrite run_limit_below_one in Hrun by done.
  assert (Hseq : Inv items st ∧
                 ∀ i, (S i < length (tasks st))%nat →
                      fulfilled (tasks st) i = true).
  { revert Hrun.
    generalize (LimiterFacts.init_inv (E := E) items).
    generalize (LimiterFacts.init_bounded (E := E) items 1 ltac:(lia)).
    assert (H0 : ∀ i, (S i < length (tasks (runWithLimitedConcurrency
                                              (E := E) items)))%nat →
                      fulfilled (tasks (runWithLimitedConcurrency
                                          (E := E) items)) i = true).
    { simpl. intros; lia. }
    revert H0. generalize (runWithLimitedConcurrency (E := E) items).
    clear Ht Hi. induction sched as [|ev sched IH]; intros st0 H0 Hb Hinv Hrun.
    - by injection Hrun as <-.
    - simpl in Hrun. destruct (step 1 ev st0) as [st1|] eqn:Hstep; [|done].
      simpl in Hrun. eapply IH; [| | |done].
      + by eapply step_sequential.
      + by eapply LimiterFacts.step_bounded.
      + by eapply LimiterFacts.step_inv. }
  destruct Hseq as [Hinv Hseq]. specialize (Hseq i Hi).
  apply LimiterFacts.is_fulfilled_true in Hseq.
  destruct Hinv as [_ Hok _ _ _ _].
  destruct (LimiterFacts.settled_p_task _ _ _ Hok Hseq) as (t' & Ht' & ? & ?).
  rewrite Ht in Ht'. by injection Ht' as <-.
Qed.

Lemma filter_pending_new (l : list T) :
  filter (λ t : Task (E := E), cb t = None)
         ((λ it, mkTask it None None) <$> l)
  = (λ it, mkTask it None None) <$> l.
Proof.
  induction l as [|x l IH]; [done|]. rewrite fmap_cons.
  rewrite filter_cons_True by done. by rewrite IH.
Qed.

Lemma ticks_fill (items : list T) concurrencyLimit : ∀ k,
  (k ≤ length items)%nat → Z.of_nat k < concurrencyLimit →
  run concurrencyLimit (replicate k Tick) (runWithLimitedConcurrency items)
  = Some (mkState (E := E) (drop k items)
            ((λ it, mkTask it None None) <$> take k items)
            (seq 0 k) Dispatching).
Proof.
  induction k as [|k IH]; intros Hk HL.
  - simpl. unfold runWithLimitedConcurrency. by rewrite drop_0.
  - rewrite replicate_S_end, run_app, IH by lia. simpl. unfold tick. simpl.
    destruct (lookup_lt_is_Some_2 items k ltac:(lia)) as [it Hit].
    rewrite (drop_S _ _ _ Hit), (take_S_r _ _ _ Hit).
    rewrite length_app, length_seq, length_fmap, length_take. simpl.
    rewrite (proj2 (Z.leb_gt _ _)) by lia.
    rewrite fmap_app, Nat.min_l by lia. simpl.
    change (0%nat :: seq 1 k) with (seq 0 (S k)). by rewrite seq_S.
Qed.

(** X14.  The limit is reached: when there are at least as many items as the
    limit allows, the function starts that many callbacks, one after the
    other without waiting, and only then sleeps in [Promise.race]. *)
Theorem limit_is_reached (items : list T) concurrencyLimit :
  1 ≤ concurrencyLimit →
  concurrencyLimit ≤ Z.of_nat (length items) →
  ∃ st, run (E := E) concurrencyLimit
            (replicate (Z.to_nat concurrencyLimit) Tick)
            (runWithLimitedConcurrency items) = Some st ∧
        Z.of_nat (in_flight st) = concurrencyLimit ∧
        pc st = AwaitRace (seq 0 (Z.to_nat concurrencyLimit)) None.
Proof.
  intros H1 Hlen.
  destruct (Z.to_nat concurrencyLimit) as [|k] eqn:HL; [lia|].
  rewrite replicate_S_end, run_app, ticks_fill by lia. simpl. unfold tick.
  simpl.
  destruct (lookup_lt_is_Some_2 items k ltac:(lia)) as [it Hit].
  rewrite (drop_S _ _ _ Hit).
  rewrite length_app, length_seq, length_fmap, length_take. simpl.
  rewrite (proj2 (Z.leb_le _ _)) by lia.
  eexists. split; [done|]. unfold in_flight. simpl.
  change ([mkTask it None None])
    with ((λ it, mkTask (E := E) it None None) <$> [it]).
  rewrite <-fmap_app, <-(take_S_r _ _ _ Hit), filter_pending_new.
  rewrite length_fmap, length_take, Nat.min_l by lia. split; [lia|].
  unfold race. f_equal.
  - rewrite Nat.min_l by lia.
    change (0%nat :: seq 1 k) with (seq 0 (S k)). by rewrite seq_S.
  - apply LimiterFacts.head_omap_None. intros j _.
    unfold settled_p. destruct (_ !! j) as [t|] eqn:Ht; [|done]. simpl.
    apply list_lookup_fmap_Some in Ht as (x & -> & _). done.
Qed.

(** X16.  Without items the function returns at once, for any limit, and no
    callback is ever called. *)
Theorem no_items_returns concurrencyLimit :
  run (T := T) (E := E) concurrencyLimit [Tick; Tick]
      (runWithLimitedConcurrency [])
  = Some (mkState [] [] [] Returned) ∧
  ∀ sched st,
    run (E := E) concurrencyLimit sched (runWithLimitedConcurrency [])
    = Some st →
    tasks st = [].
Proof.
  split; [done|]. intros sched st Hrun.
  destruct (LimiterFacts.run_inv _ _ _ _ _
              (LimiterFacts.init_inv []) Hrun) as [Hit _ _ _ _ _].
  apply app_eq_nil in Hit as [Hit _]. by apply fmap_nil_inv in Hit.
Qed.
End LimiterOrder.

Lemma started_in_item_order_witness :
  let st :=
    mkState (E := string) []
            [mkTask "a"%string (Some Fulfilled) (Some Fulfilled);
             mkTask "b"%string None None; mkTask "c"%string None None]
            [1; 2]%nat (AwaitRace [1; 2]%nat None) in
  (item <$> tasks st) ++ todo st = ["a"; "b"; "c"]%string.
Proof.
  assert (Hrun : run (E := string) 2
                   [Tick; Tick; CallbackSettles 0 Fulfilled; Handlers 0;
                    Tick; Tick]
                   (runWithLimitedConcurrency ["a"; "b"; "c"]%string)
                 = Some (mkState []
                           [mkTask "a"%string (Some Fulfilled) (Some Fulfilled);
                            mkTask "b"%string None None;
                            mkTask "c"%string None None]
                           [1; 2]%nat (AwaitRace [1; 2]%nat None)))
    by (vm_compute; reflexivity).
  exact (started_in_item_order _ _ _ _ Hrun).
Defined.

Lemma queue_holds_unfulfilled_witness :
  let st :=
    mkState [4; 5]%nat
            [mkTask 1%nat (Some Fulfilled) (Some Fulfilled);
             mkTask 2%nat None None;
             mkTask 3%nat (Some (Rejected "item 3"%string))
                    (Some (Rejected "item 3"%string))]
            [1; 2]%nat (Threw "item 3"%string) in
  NoDup (queue st) ∧
  (∀ i, i ∈ queue st → ∃ t, tasks st !! i = Some t ∧ p t ≠ Some Fulfilled) ∧
  (∀ i t, tasks st !! i = Some t → cb t ≠ Some Fulfilled → i ∈ queue st).
Proof.
  assert (Hrun : run 2
                   [Tick; Tick; CallbackSettles 0 Fulfilled; Handlers 0;
                    Tick; Tick;
                    CallbackSettles 2 (Rejected "item 3"%string); Handlers 2;
                    Tick]
                   (runWithLimitedConcurrency [1; 2; 3; 4; 5]%nat)
                 = Some (mkState [4; 5]%nat
                           [mkTask 1%nat (Some Fulfilled) (Some Fulfilled);
                            mkTask 2%nat None None;
                            mkTask 3%nat (Some (Rejected "item 3"%string))
                                   (Some (Rejected "item 3"%string))]
                           [1; 2]%nat (Threw "item 3"%string)))
    by (vm_compute; reflexivity).
  exact (queue_holds_unfulfilled _ _ _ _ Hrun).
Defined.

Lemma handler_removes_own_promise_witness :
  let st :=
    mkState (E := string) ["c"%string]
            [mkTask "a"%string (Some Fulfilled) None;
             mkTask "b"%string None None]
            [0; 1]%nat (AwaitRace [0; 1]%nat None) in
  let st' :=
    mkState (E := string) ["c"%string]
            [mkTask "a"%string (Some Fulfilled) (Some Fulfilled);
             mkTask "b"%string None None]
            [1]%nat (AwaitRace [0; 1]%nat (Some Fulfilled)) in
  0%nat ∈ queue st ∧
  ∃ it r, tasks st !! 0%nat = Some (mkTask it (Some r) None) ∧
    match r with
    | Fulfilled =>
        S (length (queue st')) = length (queue st) ∧
        ∀ j, j ∈ queue st' ↔ j ∈ queue st ∧ j ≠ 0%nat
    | Rejected _ => queue st' = queue st
    end.
Proof.
  assert (Hrun : run (E := string) 2
                   [Tick; Tick; CallbackSettles 0 Fulfilled]
                   (runWithLimitedConcurrency ["a"; "b"; "c"]%string)
                 = Some (mkState ["c"%string]
                           [mkTask "a"%string (Some Fulfilled) None;
                            mkTask "b"%string None None]
                           [0; 1]%nat (AwaitRace [0; 1]%nat None)))
    by (vm_compute; reflexivity).
  exact (handler_removes_own_promise _ _ _ _ 0%nat _ Hrun eq_refl).
Defined.


Lemma limit_one_is_sequential_witness :
  cb (mkTask (E := string) "a"%string (Some Fulfilled) (Some Fulfilled))
  = Some Fulfilled ∧
  p (mkTask (E := string) "a"%string (Some Fulfilled) (Some Fulfilled))
  = Some Fulfilled.
Proof.
  assert (Hrun : run (E := string) 1
                   [Tick; CallbackSettles 0 Fulfilled; Handlers 0; Tick; Tick]
                   (runWithLimitedConcurrency ["a"; "b"]%string)
                 = Some (mkState []
                           [mkTask "a"%string (Some Fulfilled) (Some Fulfilled);
                            mkTask "b"%string None None]
                           [1]%nat (AwaitRace [1]%nat None)))
    by (vm_compute; reflexivity).
  exact (limit_one_is_sequential _ 1 _ _ 0%nat _ ltac:(lia) Hrun eq_refl
           (Nat.lt_succ_diag_r 1)).
Defined.

Lemma limit_is_reached_witness :
  ∃ st, run (E := string) 2 (replicate (Z.to_nat 2) Tick)
            (runWithLimitedConcurrency ["a"; "b"; "c"]%string) = Some st ∧
        Z.of_nat (in_flight st) = 2 ∧
        pc st = AwaitRace (seq 0 (Z.to_nat 2)) None.
Proof.
  apply (limit_is_reached (E := string) ["a"; "b"; "c"]%string 2);
    simpl; lia.
Defined.

End LimiterOrder.

(** *** [fileTreeAdd]: what an insertion keeps and what it adds *)

Module TreeGrowth.
Import Path Tree.
Section TreeGrowth.
Context `{PathModule}.

Lemma file_paths_node n cs :
  file_paths (Node n (Some cs))
  = cs ≫= (λ c, cons (name c) <$> file_paths c).
Proof.
  simpl. induction cs as [|c cs IH]; [done|]. rewrite bind_cons.
  by rewrite IH.
Qed.

Lemma bind_alter (F : FileTree → list (list string))
    (g : FileTree → FileTree) (k : nat) (cs : list FileTree) c extra :
  cs !! k = Some c →
  F (g c) ≡ₚ F c ++ extra →
  alter g k cs ≫= F ≡ₚ (cs ≫= F) ++ extra.
Proof.
  revert k. induction cs as [|x cs IH]; intros [|k] Hk Hg; try done.
  - injection Hk as ->. change (alter g 0%nat (c :: cs)) with (g c :: cs).
    rewrite !bind_cons, Hg, <-!app_assoc.
    apply Permutation_app_head, Permutation_app_comm.
  - change (alter g (S k) (x :: cs)) with (x :: alter g k cs).
    rewrite !bind_cons, (IH k Hk Hg). by rewrite app_assoc.
Qed.

Lemma alter_fixed (g : FileTree → FileTree) (k : nat) (cs : list FileTree) c :
  cs !! k = Some c → g c = c → alter g k cs = cs.
Proof.
  revert k. induction cs as [|x cs IH]; intros [|k] Hk Hg; try done; simpl in *.
  - injection Hk as ->. by rewrite Hg.
  - f_equal. by apply IH.
Qed.

Lemma walk_file segments filename n :
  walk segments filename (Node n None) = Node n None.
Proof.
  induction segments as [|segment rest IH]; [done|]. simpl.
  by destruct (decide (segment = ".")).
Qed.

Lemma dirs_along_file segments n : dirs_along segments (Node n None) = false.
Proof. by destruct segments. Qed.

Lemma walk_unchanged segments filename : ∀ t,
  dirs_along segments t = false → walk segments filename t = t.
Proof.
  induction segments as [|segment rest IH]; intros [n [cs|]] Hd;
    try (by rewrite walk_file); [done|].
  destruct (decide (segment = ".")) as [->|Hne].
  - rewrite TreeFacts.dirs_along_dot in Hd. simpl. by apply IH.
  - simpl in *. rewrite decide_False by done.
    rewrite decide_False in Hd by done.
    destruct (list_find _ cs) as [[k c]|] eqn:Hfind; [|done].
    apply list_find_Some in Hfind as (Hk & _ & _).
    do 2 f_equal. apply (alter_fixed _ _ _ c); [done|]. by apply IH.
Qed.

Lemma walk_file_paths segments filename : ∀ t,
  file_paths (walk segments filename t)
  ≡ₚ file_paths t ++
     if dirs_along segments t
     then [filter (λ segment, segment ≠ ".") segments ++ [filename]]
     else [].
Proof.
  induction segments as [|segment rest IH]; intros [n [cs|]];
    try (by rewrite walk_file, dirs_along_file, app_nil_r).
  - unfold walk, push. cbn [name children fmap option_fmap option_map].
    by rewrite !file_paths_node, bind_app, bind_singleton.
  - destruct (decide (segment = ".")) as [->|Hne].
    + rewrite TreeFacts.dirs_along_dot, filter_cons_False by naive_solver.
      simpl. apply IH.
    + rewrite filter_cons_True by done.
      cbn [walk dirs_along children name]. rewrite !decide_False by done.
      destruct (list_find _ cs) as [[k c]|] eqn:Hfind.
      * apply list_find_Some in Hfind as (Hk & Hname & _).
        rewrite !file_paths_node. apply (bind_alter _ _ _ _ c); [done|].
        rewrite TreeFacts.walk_name, IH, fmap_app, Hname.
        by destruct (dirs_along rest c).
      * rewrite !file_paths_node, bind_app, bind_singleton.
        rewrite TreeFacts.walk_name, IH, TreeFacts.dirs_along_empty.
        by rewrite file_paths_node.
Qed.

(** X17.  An insertion whose folder path meets a file, or whose root is a
    file, is dropped without a word: the tree is returned as it was. *)
Theorem fileTreeAdd_dropped root relativePath filePath :
  dirs_along (segments_of (dirname relativePath)) root = false →
  fileTreeAdd root relativePath filePath = root.
Proof. apply walk_unchanged. Qed.

(** X18.  What an insertion adds: one file entry, with the name of the file,
    below the folders of its folder path, and nothing when the folder
    path meets a file.  The entries the tree had are all still there, and
    no entry is added anywhere else. *)
Theorem fileTreeAdd_file_paths root relativePath filePath :
  let segments := segments_of (dirname relativePath) in
  file_paths (fileTreeAdd root relativePath filePath)
  ≡ₚ file_paths root ++
     if dirs_along segments root
     then [filter (λ segment, segment ≠ ".") segments
           ++ [basename relativePath]]
     else [].
Proof. apply walk_file_paths. Qed.

Lemma walk_keeps_child segment segments filename : ∀ t cs k c,
  children t = Some cs →
  list_find (λ child, name child = segment) cs = Some (k, c) →
  ∃ cs' c',
    children (walk segments filename t) = Some cs' ∧
    list_find (λ child, name child = segment) cs' = Some (k, c') ∧
    (c' = c ∨ ∃ rest, c' = walk rest filename c).
Proof.
  induction segments as [|s rest IH]; intros t cs k c Hcs Hfind.
  - simpl. unfold push. rewrite Hcs. simpl. eexists _, c.
    split; [done|]. split; [|by left].
    by apply list_find_app_l.
  - simpl. destruct (decide (s = ".")); [by eapply IH|].
    rewrite Hcs.
    destruct (list_find (λ child, name child = s) cs) as [[k2 c2]|]
      eqn:Hfind2.
    + simpl. destruct (decide (k = k2)) as [->|Hne].
      * exists (alter (walk rest filename) k2 cs), (walk rest filename c).
        split; [done|]. split.
        -- by apply TreeFacts.find_child_walk.
        -- right. by exists rest.
      * exists (alter (walk rest filename) k2 cs), c.
        split; [done|]. split; [|by left].
        apply list_find_Some in Hfind as (Hk & Hn & Hbefore).
        apply list_find_Some. split; [by rewrite list_lookup_alter_ne|].
        split; [done|]. intros j y Hj Hlt.
        destruct (decide (j = k2)) as [->|Hne2].
        -- rewrite list_lookup_alter, decide_True in Hj by done.
           destruct (cs !! k2) as [z|] eqn:Hz; [|done]. simpl in Hj.
           injection Hj as <-. rewrite TreeFacts.walk_name.
           by eapply Hbefore.
        -- rewrite list_lookup_alter_ne in Hj by done. by eapply Hbefore.
    + simpl. eexists _, c. split; [done|]. split; [|by left].
      by apply list_find_app_l.
Qed.

Lemma walk_keeps segments' : ∀ segments filename t d,
  descend segments' t = Some d →
  ∃ d', descend segments' (walk segments filename t) = Some d' ∧
        name d' = name d ∧ is_dir d' = is_dir d.
Proof.
  induction segments' as [|s rest' IH]; intros segments filename t d Hd.
  - injection Hd as <-. eexists. split; [done|].
    by rewrite TreeFacts.walk_name, TreeFacts.walk_is_dir.
  - simpl in *. destruct (decide (s = ".")); [by apply IH|].
    destruct (children t) as [cs|] eqn:Hcs; [|done]. simpl in Hd.
    destruct (list_find _ cs) as [[k c]|] eqn:Hfind; [|done]. simpl in Hd.
    destruct (walk_keeps_child s segments filename t cs k c Hcs Hfind)
      as (cs' & c' & -> & Hfind' & Hc').
    simpl. rewrite Hfind'. simpl. destruct Hc' as [->|[rest ->]].
    + exists d. by rewrite Hd.
    + by apply IH.
Qed.

(** X19.  An insertion keeps what the tree has: a node that a folder path led
    to before is led to by the same path afterwards, under the same name
    and still a folder or still a file. *)
Theorem fileTreeAdd_keeps root relativePath filePath segments d :
  descend segments root = Some d →
  ∃ d', descend segments (fileTreeAdd root relativePath filePath) = Some d' ∧
        name d' = name d ∧ is_dir d' = is_dir d.
Proof. apply walk_keeps. Qed.
End TreeGrowth.

Lemma fileTreeAdd_dropped_witness :
  fileTreeAdd (H := posix "/w") (Node "r" (Some [Node "a" None]))
    "a/b.txt" "/dst/a/b.txt"
  = Node "r" (Some [Node "a" None]).
Proof.
  exact (fileTreeAdd_dropped (H := posix "/w")
           (Node "r" (Some [Node "a" None])) "a/b.txt" "/dst/a/b.txt"
           eq_refl).
Defined.

Lemma fileTreeAdd_keeps_witness :
  ∃ d', descend ["a"%string]
          (fileTreeAdd (H := posix "/w")
             (Node "r" (Some [Node "a" (Some [Node "b.txt" None])]))
             "a/c.txt" "/dst/a/c.txt") = Some d' ∧
        name d' = "a"%string ∧ is_dir d' = true.
Proof.
  exact (fileTreeAdd_keeps (H := posix "/w")
           (Node "r" (Some [Node "a" (Some [Node "b.txt" None])]))
           "a/c.txt" "/dst/a/c.txt" ["a"%string]
           (Node "a" (Some [Node "b.txt" None])) eq_refl).
Defined.
End TreeGrowth.

(** *** [downloadSampleFiles] and [buildFileTree] as they run *)

Module PipelineFacts.
Import Retry Path Tree Pipeline.
Section PipelineFacts.
Context `{PathModule} {D : Type}.
Variable axios_get : string → nat → Settled D.
Variables fileUrlPrefix dstPath folder : string.
Variable retryLimits : Z.
Variable emptyFile : D.

#[local] Abbreviation step :=
  (Pipeline.step axios_get fileUrlPrefix dstPath folder retryLimits emptyFile).
#[local] Abbreviation run :=
  (Pipeline.run axios_get fileUrlPrefix dstPath folder retryLimits emptyFile).
#[local] Abbreviation Inv :=
  (Pipeline.Inv axios_get fileUrlPrefix dstPath folder retryLimits emptyFile).
#[local] Abbreviation stored :=
  (Pipeline.stored axios_get fileUrlPrefix dstPath folder retryLimits).
#[local] Abbreviation filePath := (Pipeline.filePath dstPath folder).
#[local] Abbreviation grow := (Pipeline.grow dstPath folder).
#[local] Abbreviation call := (Pipeline.call (D := D) folder).
#[local] Abbreviation fetch_of sp :=
  (fetch axios_get (fileUrlPrefix +:+ sp) retryLimits).

Implicit Types (st : State (D := D)) (c : Caller).
Implicit Types (samplePaths : list string).

Lemma tick_tasks concurrencyLimit
    (l l' : Limiter.State (T := string) (E := JsError D)) :
  Limiter.tick concurrencyLimit l = Some l' →
  Limiter.tasks l' = Limiter.tasks l ∨
  ∃ it, Limiter.tasks l'
        = Limiter.tasks l ++ [Limiter.mkTask it None None].
Proof.
  unfold Limiter.tick.
  destruct (Limiter.pc l) as [|w [[|e]|]|w [e|]| |e]; try done.
  - destruct (Limiter.todo l) as [|it rest]; [intros [= <-]; by left|].
    destruct (_ <=? _); intros [= <-]; right; by exists it.
  - intros [= <-]. by left.
  - intros [= <-]. by left.
  - intros [= <-]. by left.
  - destruct (forallb _ w); [|done]. intros [= <-]. by left.
Qed.

Lemma item_in_samplePaths samplePaths
    (l : Limiter.State (T := string) (E := JsError D)) i t :
  Limiter.Inv samplePaths l →
  Limiter.tasks l !! i = Some t →
  samplePaths !! i = Some (Limiter.item t).
Proof.
  intros [Hit _ _ _ _ _] Ht. rewrite <-Hit.
  rewrite lookup_app_l by (rewrite length_fmap; by eapply lookup_lt_Some).
  by rewrite list_lookup_fmap, Ht.
Qed.

Lemma stored_insert c samplePaths samplePath sp file disk :
  sp ∈ samplePaths →
  fetch_of sp = Some (Return file) →
  stored c samplePaths samplePath disk →
  stored c samplePaths samplePath (<[filePath c sp := data file]> disk).
Proof.
  intros Hsp Hfetch (sp' & file' & Hin & Hpath & Hf & Hd).
  destruct (decide (filePath c sp = filePath c samplePath)) as [Heq|Hne].
  - exists sp, file. rewrite <-Heq, lookup_insert_eq. done.
  - exists sp', file'. by rewrite lookup_insert_ne.
Qed.

Lemma stored_ensureFile c samplePaths samplePath k disk :
  stored c samplePaths samplePath disk →
  stored c samplePaths samplePath (ensureFile emptyFile k disk).
Proof.
  intros (sp' & file' & Hin & Hpath & Hf & Hd). exists sp', file'.
  repeat (split; [done|]). unfold ensureFile.
  destruct (disk !! k) eqn:Hk; [done|].
  rewrite lookup_insert_ne; [done|]. intros ->. congruence.
Qed.

(** A callback settles. *)
Lemma settle_inv c samplePaths disk0 concurrencyLimit i r disk' st st' :
  Inv c samplePaths disk0 st →
  settle_callback concurrencyLimit i r disk' st = Some st' →
  (∀ sp, stored c samplePaths sp (disk st) → stored c samplePaths sp disk') →
  (∀ k, disk' !! k = disk st !! k ∨
        (k ∈ filePath c <$> samplePaths ∧
         ∃ sp file, sp ∈ samplePaths ∧ filePath c sp = k ∧
                    fetch_of sp = Some (Return file) ∧
                    disk' !! k = Some (data file))) →
  (∀ t, Limiter.tasks (lim st) !! i = Some t → r = Limiter.Fulfilled →
        i ∈ fetched st ∧ stored c samplePaths (Limiter.item t) disk') →
  Inv c samplePaths disk0 st'.
Proof.
  intros [Hlim Hlen Hph Hnd Hfe Hroot Hdisk] Hsettle Hkeep Hnew Hful.
  unfold settle_callback in Hsettle.
  destruct (Limiter.step _ _ _) as [l'|] eqn:Hstep; [|done].
  injection Hsettle as <-.
  pose proof (LimiterFacts.step_inv _ _ _ _ _ Hlim Hstep) as Hlim'.
  apply LimiterFacts.step_callback in Hstep as (_ & it & pp & Ht & ->).
  pose proof (lookup_lt_Some _ _ _ Ht) as Hi.
  constructor; simpl in *.
  - done.
  - by rewrite !length_insert.
  - intros j t ph Hj Hp. destruct (decide (j = i)) as [->|Hne].
    + rewrite list_lookup_insert_eq in Hj by lia.
      rewrite list_lookup_insert_eq in Hp by lia.
      injection Hj as <-. injection Hp as <-. simpl. split; [done|].
      intros [= ->]. by apply (Hful _ Ht).
    + rewrite list_lookup_insert_ne in Hj by done.
      rewrite list_lookup_insert_ne in Hp by done.
      specialize (Hph j t ph Hj Hp). destruct ph; try done.
      destruct Hph as [? Hst]. split; [done|]. intros Hcb.
      destruct (Hst Hcb). split; [done|]. by apply Hkeep.
  - done.
  - intros j Hj. rewrite length_insert. by apply Hfe.
  - done.
  - intros k. destruct (Hnew k) as [Heq|[Hk (sp & file & ? & ? & ? & ?)]].
    + rewrite Heq. apply Hdisk.
    + right. split; [done|]. right. by exists sp, file.
Qed.

(** A callback goes on to its next suspension. *)
Lemma advance_inv c samplePaths disk0 i t ph' root' disk' fetched' st :
  Inv c samplePaths disk0 st →
  Limiter.tasks (lim st) !! i = Some t →
  is_Some (phases st !! i) →
  NoDup fetched' →
  (∀ j, j ∈ fetched st → j ∈ fetched') →
  (∀ j, j ∈ fetched' → j ∈ fetched st ∨
        (j = i ∧ ∃ file, fetch_of (Limiter.item t) = Some (Return file))) →
  match ph' with
  | Ensuring file | Writing file =>
      i ∈ fetched' ∧ Limiter.cb t = None ∧
      fetch_of (Limiter.item t) = Some (Return file)
  | _ => False
  end →
  (∀ j, j ≠ i → j ∈ fetched' → j ∈ fetched st) →
  root' = foldl (grow c) (Node folder (Some []))
                (omap (λ j, samplePaths !! j) fetched') →
  (∀ sp, stored c samplePaths sp (disk st) → stored c samplePaths sp disk') →
  (∀ k, disk' !! k = disk st !! k ∨
        (k ∈ filePath c <$> samplePaths ∧ disk' !! k = Some emptyFile)) →
  Inv c samplePaths disk0
      (mkState (lim st) (<[i := ph']> (phases st)) root' disk' fetched').
Proof.
  intros [Hlim Hlen Hph Hnd Hfe Hroot Hdisk] Ht [ph0 Hp0] Hnd' Hsub Hsup Hph'
    Hother Hroot' Hkeep Hnew.
  pose proof (lookup_lt_Some _ _ _ Ht) as Hi.
  constructor; simpl in *.
  - done.
  - by rewrite length_insert.
  - intros j tj ph Hj Hp. destruct (decide (j = i)) as [->|Hne].
    + rewrite list_lookup_insert_eq in Hp by lia. injection Hp as <-.
      rewrite Ht in Hj. injection Hj as <-.
      destruct ph' as [|file|file|]; try done.
      * destruct Hph' as (? & ? & ?). done.
      * destruct Hph' as (? & ? & ?). done.
    + rewrite list_lookup_insert_ne in Hp by done.
      specialize (Hph j tj ph Hj Hp). destruct ph as [|file|file|].
      * destruct Hph as [? Hnot]. split; [done|]. intros Hin.
        apply Hnot. by apply Hother.
      * destruct Hph as (? & ? & ?). auto.
      * destruct Hph as (? & ? & ?). auto.
      * destruct Hph as [? Hst]. split; [done|]. intros Hcb.
        destruct (Hst Hcb). split; [by apply Hsub|by apply Hkeep].
  - done.
  - intros j Hj. destruct (Hsup j Hj) as [Hold|[-> (file & Hf)]].
    + by apply Hfe.
    + split; [done|]. exists (Limiter.item t), file. split; [|done].
      by eapply item_in_samplePaths.
  - done.
  - intros k. destruct (Hnew k) as [Heq|[Hk Hempty]].
    + rewrite Heq. apply Hdisk.
    + right. split; [done|]. by left.
Qed.

Lemma go_inv c samplePaths disk0 concurrencyLimit st st' :
  Inv c samplePaths disk0 st →
  step c concurrencyLimit Go st = Some st' →
  Inv c samplePaths disk0 st'.
Proof.
  intros [Hlim Hlen Hph Hnd Hfe Hroot Hdisk] Hstep. simpl in Hstep.
  destruct (Limiter.tick _ _) as [l'|] eqn:Htick; [|done].
  injection Hstep as <-.
  pose proof (LimiterFacts.tick_inv _ _ _ _ Hlim Htick) as Hlim'.
  destruct (tick_tasks _ _ _ Htick) as [Hsame|[it Hnew]].
  - rewrite Hsame, Nat.sub_diag. simpl. rewrite app_nil_r.
    constructor; simpl; rewrite ?Hsame; done.
  - rewrite Hnew, length_app. simpl.
    replace (length (Limiter.tasks (lim st)) + 1
             - length (Limiter.tasks (lim st)))%nat with 1%nat by lia.
    simpl. constructor; simpl; rewrite ?Hnew.
    + done.
    + rewrite !length_app. simpl. lia.
    + intros i t ph Hi Hp.
      destruct (decide (i < length (Limiter.tasks (lim st)))%nat) as [Hlt|Hge].
      * rewrite lookup_app_l in Hi by done.
        rewrite lookup_app_l in Hp by lia. by apply Hph.
      * apply lookup_snoc_Some in Hi as [[? _]|[-> <-]]; [lia|].
        apply lookup_snoc_Some in Hp as [[? _]|[_ <-]]; [lia|].
        simpl. split; [done|]. intros Hin. apply Hfe in Hin as [? _]. lia.
    + done.
    + intros i Hi. rewrite length_app. simpl.
      destruct (Hfe i Hi) as [? ?]. split; [lia|done].
    + done.
    + done.
Qed.

Lemma then_inv c samplePaths disk0 concurrencyLimit i st st' :
  Inv c samplePaths disk0 st →
  step c concurrencyLimit (Then i) st = Some st' →
  Inv c samplePaths disk0 st'.
Proof.
  intros [Hlim Hlen Hph Hnd Hfe Hroot Hdisk] Hstep.
  unfold Pipeline.step in Hstep.
  destruct (Limiter.step _ _ _) as [l'|] eqn:Hl; [|done].
  injection Hstep as <-.
  pose proof (LimiterFacts.step_inv _ _ _ _ _ Hlim Hl) as Hlim'.
  apply LimiterFacts.step_handlers in Hl as (_ & it & r & Ht & ->).
  pose proof (lookup_lt_Some _ _ _ Ht) as Hi.
  constructor; simpl in *.
  - done.
  - by rewrite length_insert.
  - intros j t ph Hj Hp. destruct (decide (j = i)) as [->|Hne].
    + rewrite list_lookup_insert_eq in Hj by lia. injection Hj as <-.
      apply (Hph i _ ph Ht Hp).
    + rewrite list_lookup_insert_ne in Hj by done. by apply Hph.
  - done.
  - intros j Hj. rewrite length_insert. by apply Hfe.
  - done.
  - done.
Qed.

Lemma download_step_inv c samplePaths disk0 concurrencyLimit ev st st' :
  Inv c samplePaths disk0 st →
  step c concurrencyLimit ev st = Some st' →
  Inv c samplePaths disk0 st'.
Proof.
  intros Hinv Hstep. destruct ev as [|i|i err|i err|i].
  - by eapply go_inv.
  - unfold Pipeline.step in Hstep.
    destruct (phases st !! i) as [[|file|file|]|] eqn:Hp; try done.
    destruct (Limiter.tasks (lim st) !! i) as [t|] eqn:Ht; [|done].
    destruct (inv_phase _ _ _ _ _ _ _ _ _ _ Hinv i t _ Ht Hp) as [Hcb Hnot].
    destruct (fetch_of (Limiter.item t)) as [[file|e]|] eqn:Hf; [| |done].
    + destruct (suspended st); [|done]. injection Hstep as <-.
      apply advance_inv with (t := t); try done.
      * apply NoDup_app. split; [by destruct Hinv|].
        split; [|apply NoDup_singleton].
        intros j Hj ->%list_elem_of_singleton. done.
      * intros j Hj. apply elem_of_app. by left.
      * intros j [Hj| ->%list_elem_of_singleton]%elem_of_app; [by left|].
        right. split; [done|]. by exists file.
      * split; [|done]. apply elem_of_app. right.
        by apply list_elem_of_singleton.
      * intros j Hne [Hj|Hj%list_elem_of_singleton]%elem_of_app; done.
      * rewrite omap_app, foldl_app. simpl.
        rewrite (item_in_samplePaths _ _ _ _ (inv_lim _ _ _ _ _ _ _ _ _ _ Hinv)
                   Ht). simpl.
        by rewrite (inv_root _ _ _ _ _ _ _ _ _ _ Hinv).
      * intros k. by left.
    + eapply settle_inv; [done|done|done| |done].
      intros k. by left.
  - unfold Pipeline.step in Hstep.
    destruct (phases st !! i) as [[|file|file|]|] eqn:Hp; try done.
    destruct (Limiter.tasks (lim st) !! i) as [t|] eqn:Ht; [|done].
    destruct (inv_phase _ _ _ _ _ _ _ _ _ _ Hinv i t _ Ht Hp)
      as (Hcb & Hin & Hf).
    destruct err as [e|].
    + eapply settle_inv; [done|done|done| |done].
      intros k. by left.
    + destruct (suspended st); [|done]. injection Hstep as <-.
      apply advance_inv with (t := t); try done.
      * by destruct Hinv.
      * intros j Hj. by left.
      * by destruct Hinv.
      * intros sp. apply stored_ensureFile.
      * intros k. unfold ensureFile.
        destruct (disk st !! filePath c (Limiter.item t)) eqn:Hk; [by left|].
        destruct (decide (k = filePath c (Limiter.item t))) as [->|Hne].
        -- right. rewrite lookup_insert_eq. split; [|done].
           apply list_elem_of_fmap_2, list_elem_of_lookup_2 with i.
           exact (item_in_samplePaths _ _ _ _
                    (inv_lim _ _ _ _ _ _ _ _ _ _ Hinv) Ht).
        -- left. by rewrite lookup_insert_ne.
  - unfold Pipeline.step in Hstep.
    destruct (phases st !! i) as [[|file|file|]|] eqn:Hp; try done.
    destruct (Limiter.tasks (lim st) !! i) as [t|] eqn:Ht; [|done].
    destruct (inv_phase _ _ _ _ _ _ _ _ _ _ Hinv i t _ Ht Hp)
      as (Hcb & Hin & Hf).
    assert (Hsp : Limiter.item t ∈ samplePaths).
    { apply list_elem_of_lookup_2 with i.
      exact (item_in_samplePaths _ _ _ _
               (inv_lim _ _ _ _ _ _ _ _ _ _ Hinv) Ht). }
    destruct err as [e|].
    + eapply settle_inv; [done|done|done| |done].
      intros k. by left.
    + eapply settle_inv; [done|done| | |].
      * intros sp. by apply stored_insert.
      * intros k.
        destruct (decide (k = filePath c (Limiter.item t))) as [->|Hne].
        -- right. split; [by apply list_elem_of_fmap_2|].
           exists (Limiter.item t), file. by rewrite lookup_insert_eq.
        -- left. by rewrite lookup_insert_ne.
      * intros t' Ht' _. rewrite Ht in Ht'. injection Ht' as <-.
        split; [done|]. exists (Limiter.item t), file.
        by rewrite lookup_insert_eq.
  - by eapply then_inv.
Qed.

Lemma call_inv c samplePaths disk0 :
  Inv c samplePaths disk0 (call samplePaths disk0).
Proof.
  constructor; simpl; try done.
  - apply LimiterFacts.init_inv.
  - apply NoDup_nil_2.
  - intros i Hi. by apply elem_of_nil in Hi.
  - intros k. by left.
Qed.

Lemma download_run_inv c samplePaths disk0 concurrencyLimit sched : ∀ st st',
  Inv c samplePaths disk0 st →
  run c concurrencyLimit sched st = Some st' →
  Inv c samplePaths disk0 st'.
Proof.
  induction sched as [|ev sched IH]; intros st st' Hinv Hrun.
  - by injection Hrun as <-.
  - simpl in Hrun. destruct (step c concurrencyLimit ev st) as [st1|] eqn:Hstep;
      [|done]. simpl in Hrun.
    eapply IH; [|done]. by eapply download_step_inv.
Qed.

(** A step of a download is a step of [runWithLimitedConcurrency], or
    none. *)
Lemma step_lim c concurrencyLimit ev st st' :
  step c concurrencyLimit ev st = Some st' →
  lim st' = lim st ∨
  ∃ lev, Limiter.step concurrencyLimit lev (lim st) = Some (lim st').
Proof.
  assert (Hsettle : ∀ i r disk',
            settle_callback concurrencyLimit i r disk' st = Some st' →
            ∃ lev, Limiter.step concurrencyLimit lev (lim st)
                   = Some (lim st')).
  { intros i r disk' Hs. unfold settle_callback in Hs.
    destruct (Limiter.step _ _ _) as [l'|] eqn:Hl; [|done].
    injection Hs as <-. by eexists. }
  intros Hstep. unfold Pipeline.step in Hstep.
  destruct ev as [|i|i err|i err|i].
  - destruct (Limiter.step _ _ _) as [l'|] eqn:Hl; [|done].
    injection Hstep as <-. right. by eexists.
  - destruct (phases st !! i) as [[|file|file|]|]; try done.
    destruct (Limiter.tasks (lim st) !! i) as [t|]; [|done].
    destruct (fetch_of (Limiter.item t)) as [[file|e]|]; [| |done].
    + destruct (suspended st); [|done]. injection Hstep as <-. by left.
    + right. by eapply Hsettle.
  - destruct (phases st !! i) as [[|file|file|]|]; try done.
    destruct (Limiter.tasks (lim st) !! i) as [t|]; [|done].
    destruct err as [e|]; [right; by eapply Hsettle|].
    destruct (suspended st); [|done]. injection Hstep as <-. by left.
  - destruct (phases st !! i) as [[|file|file|]|]; try done.
    destruct (Limiter.tasks (lim st) !! i) as [t|]; [|done].
    destruct err as [e|]; right; by eapply Hsettle.
  - destruct (Limiter.step _ _ _) as [l'|] eqn:Hl; [|done].
    injection Hstep as <-. right. by eexists.
Qed.

Lemma download_run_bounded c samplePaths concurrencyLimit sched : ∀ st st',
  1 ≤ concurrencyLimit →
  Limiter.Inv samplePaths (lim st) →
  Limiter.bounded concurrencyLimit (lim st) →
  run c concurrencyLimit sched st = Some st' →
  Limiter.bounded concurrencyLimit (lim st').
Proof.
  induction sched as [|ev sched IH]; intros st st' HL Hinv Hb Hrun.
  - by injection Hrun as <-.
  - simpl in Hrun. destruct (step c concurrencyLimit ev st) as [st1|] eqn:Hstep;
      [|done]. simpl in Hrun.
    destruct (step_lim _ _ _ _ _ Hstep) as [Heq|[lev Hl]].
    + eapply IH; [done| | |done]; by rewrite Heq.
    + eapply IH; [done| | |done].
      * by eapply LimiterFacts.step_inv.
      * by eapply LimiterFacts.step_bounded.
Qed.

Lemma active_in_flight (ts : list (Limiter.Task (T := string) (E := JsError D))) :
  ∀ phs : list (Phase (D := D)),
  length phs = length ts →
  (∀ i t ph, ts !! i = Some t → phs !! i = Some ph →
             (Limiter.cb t = None ↔ is_over ph = false)) →
  length (List.filter (λ ph, negb (is_over ph)) phs)
  = length (filter (λ t, Limiter.cb t = None) ts).
Proof.
  induction ts as [|t ts IH]; intros [|ph phs] Hlen Hall; try done.
  simpl in Hlen. injection Hlen as Hlen.
  specialize (IH phs Hlen (λ i, Hall (S i))).
  pose proof (Hall 0%nat t ph eq_refl eq_refl) as H0.
  rewrite filter_cons. simpl. destruct (decide (Limiter.cb t = None)) as [Hc|Hc].
  - rewrite (proj1 H0 Hc). simpl. by rewrite IH.
  - destruct (is_over ph); [done|]. by destruct Hc; apply H0.
Qed.

(** X20.  The downloads stay within the limit: with a limit of at least one,
    at every point of every run of [downloadSampleFiles] or
    [buildFileTree] the callbacks that have not settled, whether they
    wait for their request, for [fs.ensureFile] or for [fs.writeFile],
    are at most [concurrencyLimits]. *)
Theorem downloads_within_limit c samplePaths disk0 concurrencyLimit sched st :
  1 ≤ concurrencyLimit →
  run c concurrencyLimit sched (call samplePaths disk0) = Some st →
  Z.of_nat (active st) ≤ concurrencyLimit.
Proof.
  intros HL Hrun.
  pose proof (download_run_inv _ _ _ _ _ _ _ (call_inv c samplePaths disk0) Hrun)
    as Hinv.
  pose proof (download_run_bounded c samplePaths concurrencyLimit sched
                (call samplePaths disk0) st HL
                (LimiterFacts.init_inv samplePaths)
                (LimiterFacts.init_bounded samplePaths _ HL) Hrun) as [Hle _].
  pose proof (LimiterFacts.in_flight_queue _ _
                (inv_lim _ _ _ _ _ _ _ _ _ _ Hinv)) as Hq.
  unfold active. rewrite (active_in_flight (Limiter.tasks (lim st))).
  - unfold Limiter.in_flight in Hq. lia.
  - by destruct Hinv.
  - intros i t ph Ht Hp.
    pose proof (inv_phase _ _ _ _ _ _ _ _ _ _ Hinv i t ph Ht Hp) as Hph.
    destruct ph; simpl; intuition congruence.
Qed.

Lemma omap_lookup_seq {A} (l2 : list A) : ∀ l1,
  omap (λ i, (l1 ++ l2) !! i) (seq (length l1) (length l2)) = l2.
Proof.
  induction l2 as [|x l2 IH]; intros l1; [done|]. simpl.
  rewrite list_lookup_middle by done. f_equal.
  specialize (IH (l1 ++ [x])). rewrite length_app, Nat.add_1_r in IH.
  by rewrite <-app_assoc in IH.
Qed.

(** When [runWithLimitedConcurrency] has returned, every callback has
    fulfilled, and the requests that succeeded are those of all the
    sample paths, once each. *)
Lemma returned_all c samplePaths disk0 st :
  Inv c samplePaths disk0 st →
  Limiter.pc (lim st) = Limiter.Returned →
  completion samplePaths st ≡ₚ samplePaths ∧
  ∀ sp, sp ∈ samplePaths → stored c samplePaths sp (disk st).
Proof.
  intros Hinv Hpc.
  pose proof (inv_lim _ _ _ _ _ _ _ _ _ _ Hinv) as [Hit Hok _ _ _ Hpcok].
  rewrite Hpc in Hpcok. destruct Hpcok as [Htodo Hall].
  rewrite Htodo, app_nil_r in Hit.
  assert (Hn : length (Limiter.tasks (lim st)) = length samplePaths).
  { by rewrite <-Hit, length_fmap. }
  assert (Hdone : ∀ i t, Limiter.tasks (lim st) !! i = Some t →
            i ∈ fetched st ∧ stored c samplePaths (Limiter.item t) (disk st)).
  { intros i t Ht.
    destruct (LimiterFacts.settled_p_task _ _ _ Hok
                (Hall i (lookup_lt_Some _ _ _ Ht))) as (t' & Ht' & _ & Hcb).
    rewrite Ht in Ht'. injection Ht' as <-.
    destruct (lookup_lt_is_Some_2 (phases st) i) as [ph Hp].
    { rewrite (inv_phases _ _ _ _ _ _ _ _ _ _ Hinv).
      by eapply lookup_lt_Some. }
    pose proof (inv_phase _ _ _ _ _ _ _ _ _ _ Hinv i t ph Ht Hp) as Hph.
    destruct ph; try (destruct Hph as [? _]; congruence).
    destruct Hph as [_ Hst]. by apply Hst. }
  split.
  - unfold completion.
    pose proof (omap_lookup_seq samplePaths []) as Hseq. simpl in Hseq.
    trans (omap (λ i, samplePaths !! i) (seq 0 (length samplePaths)));
      [|by rewrite Hseq].
    apply omap_Permutation, NoDup_Permutation.
    + by destruct Hinv.
    + apply NoDup_seq.
    + intros i. rewrite elem_of_seq. split.
      * intros Hi. apply (inv_fetched _ _ _ _ _ _ _ _ _ _ Hinv) in Hi as [? _].
        lia.
      * intros [_ Hi]. simpl in Hi. rewrite <-Hn in Hi.
        destruct (lookup_lt_is_Some_2 _ _ Hi) as [t Ht].
        by destruct (Hdone i t Ht).
  - intros sp Hsp. rewrite <-Hit in Hsp.
    apply list_elem_of_fmap in Hsp as (t & -> & Ht).
    apply list_elem_of_lookup in Ht as [i Ht]. by destruct (Hdone i t Ht).
Qed.

Lemma run_callbacks_succeed completion : ∀ root disk,
  (∀ sp, sp ∈ completion → ∃ file, fetch_of sp = Some (Return file)) →
  ∃ disk',
    run_callbacks
      (buildFileTree_callback axios_get fileUrlPrefix dstPath folder
         retryLimits)
      completion (root, disk)
    = Some (Return (foldl (grow BuildFileTree) root completion, disk')).
Proof.
  induction completion as [|sp completion IH]; intros root disk Hall.
  - by exists disk.
  - simpl. unfold buildFileTree_callback at 1.
    destruct (Hall sp) as [file ->]; [by left|]. simpl.
    apply IH. intros sp' Hsp'. apply Hall. by right.
Qed.

(** X21.  What [buildFileTree] returns, under any limit and however the
    requests, the file operations and the handlers interleave: the
    forest built by adding the sample paths one after the other in the
    order in which their requests succeeded.  This order is a
    permutation of the sample paths given. *)
Theorem buildFileTree_returns_in_completion_order samplePaths disk0
    concurrencyLimit sched st :
  run BuildFileTree concurrencyLimit sched (call samplePaths disk0) = Some st →
  Limiter.pc (lim st) = Limiter.Returned →
  ∃ forest,
    result st = Some (Return forest) ∧
    completion samplePaths st ≡ₚ samplePaths ∧
    ∃ disk',
      buildFileTree axios_get fileUrlPrefix (completion samplePaths st)
        dstPath folder retryLimits disk0
      = Some (Return (forest, disk')).
Proof.
  intros Hrun Hpc.
  pose proof (download_run_inv _ _ _ _ _ _ _ (call_inv _ samplePaths disk0) Hrun)
    as Hinv.
  destruct (returned_all _ _ _ _ Hinv Hpc) as [Hperm _].
  exists (default [] (children (root st))). unfold result. rewrite Hpc.
  split; [done|]. split; [done|]. unfold buildFileTree.
  destruct (run_callbacks_succeed (completion samplePaths st)
              (Node folder (Some [])) disk0) as [disk' ->].
  - intros sp Hsp. unfold completion in Hsp.
    apply list_elem_of_omap in Hsp as (i & Hi & Hsp).
    apply (inv_fetched _ _ _ _ _ _ _ _ _ _ Hinv) in Hi
      as (_ & sp' & file & Hsp' & Hf).
    rewrite Hsp in Hsp'. injection Hsp' as <-. by exists file.
  - exists disk'. by rewrite (inv_root _ _ _ _ _ _ _ _ _ _ Hinv).
Qed.

(** X22.  What a download leaves on the disk, at every point of every run,
    also after a failure: a path that is the place of no sample path is
    as it was, and the place of a sample path is as it was, or holds the
    empty file of [fs.ensureFile], or what a request gave for a sample
    path with this place. *)
Theorem downloads_write_only_their_files c samplePaths disk0
    concurrencyLimit sched st k :
  run c concurrencyLimit sched (call samplePaths disk0) = Some st →
  disk st !! k = disk0 !! k ∨
  (k ∈ filePath c <$> samplePaths ∧
   (disk st !! k = Some emptyFile ∨
    ∃ sp file, sp ∈ samplePaths ∧ filePath c sp = k ∧
               fetch_of sp = Some (Return file) ∧
               disk st !! k = Some (data file))).
Proof.
  intros Hrun.
  pose proof (download_run_inv _ _ _ _ _ _ _ (call_inv c samplePaths disk0) Hrun)
    as Hinv.
  apply (inv_disk _ _ _ _ _ _ _ _ _ _ Hinv).
Qed.

Lemma fmap_NoDup_inj {A B} (f : A → B) (l : list A) x y :
  NoDup (f <$> l) → x ∈ l → y ∈ l → f x = f y → x = y.
Proof.
  induction l as [|z l IH]; intros Hnd Hx Hy Hf.
  - by apply elem_of_nil in Hx.
  - rewrite fmap_cons in Hnd. apply NoDup_cons in Hnd as [Hz Hnd].
    apply elem_of_cons in Hx as [->|Hx]; apply elem_of_cons in Hy as [->|Hy].
    + done.
    + destruct Hz. rewrite Hf. by apply list_elem_of_fmap_2.
    + destruct Hz. rewrite <-Hf. by apply list_elem_of_fmap_2.
    + by apply IH.
Qed.

(** X23.  When [downloadSampleFiles] or [buildFileTree] has returned and no
    two sample paths have the same place on the disk, every sample path
    has been downloaded and its place holds what its request gave. *)
Theorem returned_files_are_stored c samplePaths disk0 concurrencyLimit
    sched st samplePath :
  run c concurrencyLimit sched (call samplePaths disk0) = Some st →
  Limiter.pc (lim st) = Limiter.Returned →
  NoDup (filePath c <$> samplePaths) →
  samplePath ∈ samplePaths →
  ∃ file, fetch_of samplePath = Some (Return file) ∧
          disk st !! filePath c samplePath = Some (data file).
Proof.
  intros Hrun Hpc Hnd Hsp.
  pose proof (download_run_inv _ _ _ _ _ _ _ (call_inv c samplePaths disk0) Hrun)
    as Hinv.
  destruct (returned_all _ _ _ _ Hinv Hpc) as [_ Hst].
  destruct (Hst samplePath Hsp) as (sp & file & Hin & Hpath & Hf & Hd).
  assert (sp = samplePath) as -> by by eapply fmap_NoDup_inj.
  by exists file.
Qed.

Lemma grow_file_paths completion : ∀ root,
  file_paths (foldl (grow BuildFileTree) root completion)
  ⊆+ file_paths root ++ (tree_entry folder <$> completion).
Proof.
  induction completion as [|sp completion IH]; intros root.
  - simpl. by rewrite app_nil_r.
  - simpl. etrans; [apply IH|]. unfold fileTreeAdd.
    rewrite TreeGrowth.walk_file_paths, <-app_assoc.
    apply submseteq_skips_l.
    refine (submseteq_app _ [tree_entry folder sp] _ _ _ _); [|done].
    destruct (dirs_along _ root); [done|apply submseteq_nil_l].
Qed.

Lemma omap_submseteq {A B} (f : A → option B) (l k : list A) :
  l ⊆+ k → omap f l ⊆+ omap f k.
Proof.
  induction 1 as [|x l k _ IH|x y l|x l k _ IH|l k m _ IH1 _ IH2]; simpl.
  - done.
  - destruct (f x); [by apply submseteq_skip|done].
  - destruct (f x), (f y); try done. by apply submseteq_swap.
  - destruct (f x); [by apply submseteq_cons|done].
  - by etrans.
Qed.

(** X24.  The tree of [buildFileTree] lists only what has been downloaded: at
    every point of every run, also after a failure, its file entries are
    entries of sample paths whose request has succeeded, no sample path
    of the list counted twice. *)
Theorem buildFileTree_lists_fetched samplePaths disk0 concurrencyLimit
    sched st :
  run BuildFileTree concurrencyLimit sched (call samplePaths disk0) = Some st →
  file_paths (root st) ⊆+ tree_entry folder <$> completion samplePaths st ∧
  completion samplePaths st ⊆+ samplePaths ∧
  ∀ sp, sp ∈ completion samplePaths st →
        ∃ file, fetch_of sp = Some (Return file).
Proof.
  intros Hrun.
  pose proof (download_run_inv _ _ _ _ _ _ _
                (call_inv _ samplePaths disk0) Hrun) as Hinv.
  split; [|split].
  - rewrite (inv_root _ _ _ _ _ _ _ _ _ _ Hinv).
    etrans; [apply grow_file_paths|]. done.
  - unfold completion.
    pose proof (omap_lookup_seq samplePaths []) as Hseq. simpl in Hseq.
    trans (omap (λ i, samplePaths !! i) (seq 0 (length samplePaths)));
      [|by rewrite Hseq].
    apply omap_submseteq, NoDup_submseteq.
    + by destruct Hinv.
    + intros i Hi. apply elem_of_seq.
      apply (inv_fetched _ _ _ _ _ _ _ _ _ _ Hinv) in Hi
        as (_ & sp & _ & Hsp & _).
      apply lookup_lt_Some in Hsp. lia.
  - intros sp Hsp. unfold completion in Hsp.
    apply list_elem_of_omap in Hsp as (i & Hi & Hsp).
    apply (inv_fetched _ _ _ _ _ _ _ _ _ _ Hinv) in Hi
      as (_ & sp' & file & Hsp' & Hf).
    rewrite Hsp in Hsp'. injection Hsp' as <-. by exists file.
Qed.
End PipelineFacts.

Lemma downloads_within_limit_witness :
  let file := mkResponse 200 42%nat true in
  let st :=
    mkState
      (Limiter.mkState []
         [Limiter.mkTask "a/b.txt"%string None None;
          Limiter.mkTask "d.txt"%string None None]
         [0; 1]%nat (Limiter.AwaitRace [0; 1]%nat None))
      [Ensuring file; Writing file]
      (Node "." (Some [Node "d.txt" None; Node "a" (Some [Node "b.txt" None])]))
      {["/dst/d.txt"%string := 0%nat]} [1; 0]%nat in
  active st = 2%nat ∧ Z.of_nat (active st) ≤ 2.
Proof.
  intros file st.
  assert (Hrun : run (H := posix "/w") (λ _ _, Fulfil file) "u/" "/dst" "." 2
                   0%nat BuildFileTree 2
                   [Go; Go; Fetched 1; Fetched 0; Ensured 1 None]
                   (call "." ["a/b.txt"; "d.txt"]%string ∅)
                 = Some st) by (vm_compute; reflexivity).
  split; [reflexivity|].
  exact (downloads_within_limit (H := posix "/w") (λ _ _, Fulfil file)
           "u/" "/dst" "." 2 0%nat BuildFileTree _ ∅ 2 _ st ltac:(lia) Hrun).
Defined.

Lemma buildFileTree_returns_in_completion_order_witness :
  let file := mkResponse 200 42%nat true in
  let samplePaths := ["a/b.txt"; "d.txt"]%string in
  let st :=
    mkState
      (Limiter.mkState []
         [Limiter.mkTask "a/b.txt"%string (Some Limiter.Fulfilled)
                         (Some Limiter.Fulfilled);
          Limiter.mkTask "d.txt"%string (Some Limiter.Fulfilled)
                         (Some Limiter.Fulfilled)]
         [] Limiter.Returned)
      [Over; Over]
      (Node "." (Some [Node "d.txt" None; Node "a" (Some [Node "b.txt" None])]))
      (<["/dst/a/b.txt"%string := 42%nat]> {["/dst/d.txt"%string := 42%nat]})
      [1; 0]%nat in
  completion samplePaths st = ["d.txt"; "a/b.txt"]%string ∧
  ∃ forest,
    result st = Some (Return forest) ∧
    completion samplePaths st ≡ₚ samplePaths ∧
    ∃ disk',
      buildFileTree (H := posix "/w") (λ _ _, Fulfil file) "u/"
        (completion samplePaths st) "/dst" "." 2 ∅
      = Some (Return (forest, disk')).
Proof.
  intros file samplePaths st.
  assert (Hrun : run (H := posix "/w") (λ _ _, Fulfil file) "u/" "/dst" "." 2
                   0%nat BuildFileTree 2
                   [Go; Go; Fetched 1; Fetched 0; Ensured 1 None;
                    Written 1 None; Then 1; Go; Go; Ensured 0 None;
                    Written 0 None; Then 0; Go]
                   (call "." samplePaths ∅)
                 = Some st) by (vm_compute; reflexivity).
  split; [reflexivity|].
  exact (buildFileTree_returns_in_completion_order (H := posix "/w")
           (λ _ _, Fulfil file) "u/" "/dst" "." 2 0%nat samplePaths ∅ 2 _ st
           Hrun eq_refl).
Defined.

Lemma downloads_write_only_their_files_witness :
  let file := mkResponse 200 42%nat true in
  let samplePaths := ["a/b.txt"; "d.txt"]%string in
  let disk : gmap string nat := {["/dst/d.txt"%string := 0%nat]} in
  let k := "/dst/d.txt"%string in
  disk !! k = (∅ : gmap string nat) !! k ∨
  (k ∈ filePath (H := posix "/w") "/dst" "." BuildFileTree <$> samplePaths ∧
   (disk !! k = Some 0%nat ∨
    ∃ sp file', sp ∈ samplePaths ∧
      filePath (H := posix "/w") "/dst" "." BuildFileTree sp = k ∧
      fetch (λ _ _, Fulfil file) ("u/" +:+ sp) 2 = Some (Return file') ∧
      disk !! k = Some (data file'))).
Proof.
  intros file samplePaths disk k.
  assert (Hrun : run (H := posix "/w") (λ _ _, Fulfil file) "u/" "/dst" "." 2
                   0%nat BuildFileTree 2
                   [Go; Go; Fetched 1; Fetched 0; Ensured 1 None]
                   (call "." samplePaths ∅)
                 = Some (mkState
                           (Limiter.mkState []
                              [Limiter.mkTask "a/b.txt"%string None None;
                               Limiter.mkTask "d.txt"%string None None]
                              [0; 1]%nat (Limiter.AwaitRace [0; 1]%nat None))
                           [Ensuring file; Writing file]
                           (Node "." (Some [Node "d.txt" None;
                                            Node "a" (Some [Node "b.txt" None])]))
                           disk [1; 0]%nat))
    by (vm_compute; reflexivity).
  exact (downloads_write_only_their_files (H := posix "/w")
           (λ _ _, Fulfil file) "u/" "/dst" "." 2 0%nat BuildFileTree
           samplePaths ∅ 2 _ _ k Hrun).
Defined.

Lemma buildFileTree_lists_fetched_witness :
  let file := mkResponse 200 42%nat true in
  let samplePaths := ["a/b.txt"; "d.txt"; "e.txt"]%string in
  let st :=
    mkState
      (Limiter.mkState ["e.txt"%string]
         [Limiter.mkTask "a/b.txt"%string None None;
          Limiter.mkTask "d.txt"%string
            (Some (Limiter.Rejected (External (mkThrown false None 13))))
            None]
         [0; 1]%nat (Limiter.AwaitRace [0; 1]%nat None))
      [Fetching; Over]
      (Node "." (Some [Node "d.txt" None]))
      (∅ : gmap string nat) [1]%nat in
  file_paths (root st) = [["d.txt"%string]] ∧
  file_paths (root st)
  ⊆+ tree_entry (H := posix "/w") "." <$> completion samplePaths st ∧
  completion samplePaths st ⊆+ samplePaths ∧
  ∀ sp, sp ∈ completion samplePaths st →
        ∃ file', fetch (λ _ _, Fulfil file) ("u/" +:+ sp) 2
                 = Some (Return file').
Proof.
  intros file samplePaths st.
  assert (Hrun : run (H := posix "/w") (λ _ _, Fulfil file) "u/" "/dst" "." 2
                   0%nat BuildFileTree 2
                   [Go; Go; Fetched 1;
                    Ensured 1 (Some (mkThrown false None 13))]
                   (call "." samplePaths ∅)
                 = Some st) by (vm_compute; reflexivity).
  split; [reflexivity|].
  exact (buildFileTree_lists_fetched (H := posix "/w")
           (λ _ _, Fulfil file) "u/" "/dst" "." 2 0%nat samplePaths ∅ 2 _ st
           Hrun).
Defined.

Lemma returned_files_are_stored_witness :
  let file := mkResponse 200 42%nat true in
  let disk : gmap string nat :=
    <["/dst/a/b.txt"%string := 42%nat]> {["/dst/d.txt"%string := 42%nat]} in
  ∃ file', fetch (λ _ _, Fulfil file) ("u/" +:+ "a/b.txt") 2
           = Some (Return file') ∧
           disk !! filePath (H := posix "/w") "/dst" "." BuildFileTree "a/b.txt"
           = Some (data file').
Proof.
  intros file disk.
  assert (Hrun : run (H := posix "/w") (λ _ _, Fulfil file) "u/" "/dst" "." 2
                   0%nat BuildFileTree 2
                   [Go; Go; Fetched 1; Fetched 0; Ensured 1 None;
                    Written 1 None; Then 1; Go; Go; Ensured 0 None;
                    Written 0 None; Then 0; Go]
                   (call "." ["a/b.txt"; "d.txt"]%string ∅)
                 = Some (mkState
                           (Limiter.mkState []
                              [Limiter.mkTask "a/b.txt"%string
                                 (Some Limiter.Fulfilled)
                                 (Some Limiter.Fulfilled);
                               Limiter.mkTask "d.txt"%string
                                 (Some Limiter.Fulfilled)
                                 (Some Limiter.Fulfilled)]
                              [] Limiter.Returned)
                           [Over; Over]
                           (Node "." (Some [Node "d.txt" None;
                                            Node "a" (Some [Node "b.txt" None])]))
                           disk [1; 0]%nat))
    by (vm_compute; reflexivity).
  assert (Hnd : NoDup (filePath (H := posix "/w") "/dst" "." BuildFileTree
                         <$> ["a/b.txt"; "d.txt"]%string)).
  { vm_compute. repeat constructor; intros Hin.
    - apply elem_of_cons in Hin as [Heq|Hin]; [discriminate Heq|].
      by apply elem_of_nil in Hin.
    - by apply elem_of_nil in Hin. }
  exact (returned_files_are_stored (H := posix "/w")
           (λ _ _, Fulfil file) "u/" "/dst" "." 2 0%nat BuildFileTree
           ["a/b.txt"; "d.txt"]%string ∅ 2 _ _ "a/b.txt"%string Hrun eq_refl
           Hnd ltac:(by left)).
Defined.
End PipelineFacts.

(** *** [modifyFile]: where the generated code goes *)

Module ModifyFacts.
Import Modify.

Lemma startsWith_spec (pat s : JsString) :
  startsWith pat s = true ↔ ∃ rest, s = pat ++ rest.
Proof.
  revert s. induction pat as [|c pat IH]; intros s; simpl.
  - split; [by exists s|done].
  - destruct s as [|d s]; [by split; [|intros [? [=]]]|].
    rewrite andb_true_iff, N.eqb_eq, IH. split.
    + intros [-> [rest ->]]. by exists rest.
    + intros [rest [= -> ->]]. split; [done|by exists rest].
Qed.

Lemma startsWith_take (s : JsString) n : startsWith (take n s) s = true.
Proof. apply startsWith_spec. exists (drop n s). by rewrite take_drop. Qed.

(** [index_of] finds the first place. *)
Lemma index_of_Some (pat s : JsString) : ∀ i j,
  index_of pat s i = Some j ↔
  ∃ k, j = (i + k)%nat ∧ (k ≤ length s)%nat ∧
       startsWith pat (drop k s) = true ∧
       ∀ k', (k' < k)%nat → startsWith pat (drop k' s) = false.
Proof.
  induction s as [|c s IH]; intros i j; simpl.
  - destruct (startsWith pat []) eqn:Hp; split.
    + intros [= <-]. exists 0%nat.
      split; [lia|]. split; [done|]. split; [done|]. intros; lia.
    + intros (k & -> & Hk & _ & _). simpl in Hk. f_equal. lia.
    + done.
    + intros (k & _ & Hk & Hpk & _). simpl in Hk.
      assert (k = 0%nat) as -> by lia. simpl in Hpk. congruence.
  - destruct (startsWith pat (c :: s)) eqn:Hp; split.
    + intros [= <-]. exists 0%nat.
      split; [lia|]. split; [simpl; lia|]. split; [done|]. intros; lia.
    + intros (k & -> & _ & _ & Hfirst). f_equal.
      destruct k as [|k]; [lia|]. specialize (Hfirst 0%nat ltac:(lia)).
      simpl in Hfirst. congruence.
    + intros (k & -> & Hk & Hpk & Hfirst)%IH. exists (S k).
      split; [lia|]. split; [simpl; lia|]. split; [done|].
      intros [|k'] Hk'; [done|]. simpl. apply Hfirst. lia.
    + intros (k & -> & Hk & Hpk & Hfirst). apply IH.
      destruct k as [|k]; [simpl in Hpk; congruence|]. exists k.
      split; [lia|]. split; [simpl in Hk; lia|]. split; [done|].
      intros k' Hk'. apply (Hfirst (S k')). lia.
Qed.

Lemma last_index_of_Some (pat s : JsString) : ∀ i j,
  last_index_of pat s i = Some j →
  ∃ k, j = (i + k)%nat ∧ (k ≤ length s)%nat ∧
       startsWith pat (drop k s) = true.
Proof.
  induction s as [|c s IH]; intros i j; simpl.
  - destruct (startsWith pat []) eqn:Hp; [|done].
    intros [= <-]. exists 0%nat. split; [lia|]. by split.
  - destruct (last_index_of pat s (S i)) as [j'|] eqn:Hl.
    + intros [= <-]. apply IH in Hl as (k & -> & Hk & Hpk).
      exists (S k). split; [lia|]. split; [lia|done].
    + destruct (startsWith pat (c :: s)) eqn:Hp; [|done].
      intros [= <-]. exists 0%nat. split; [lia|]. split; [lia|done].
Qed.

Lemma number_nat (r : option nat) n : number r = Z.of_nat n ↔ r = Some n.
Proof.
  destruct r as [m|]; simpl; split; try (intros [= ->]; done); try lia.
  intros Hm. f_equal. lia.
Qed.

Lemma indexOf_0 (s pat : JsString) :
  indexOf s pat 0 = number (index_of pat s 0).
Proof.
  unfold indexOf. replace (Z.to_nat _) with 0%nat by lia. by rewrite drop_0.
Qed.

(** A replacement without dollars is put in as it is. *)
Lemma getSubstitution_plain matched str position template :
  dollar ∉ template →
  getSubstitution matched str position template = template.
Proof.
  induction template as [|c rest IH]; intros Hd; [done|]. simpl.
  apply not_elem_of_cons in Hd as [Hc Hd].
  destruct (N.eqb_spec c dollar) as [->|_]; [done|]. by rewrite IH.
Qed.

Lemma getSubstitution_app matched str position a b :
  dollar ∉ a →
  getSubstitution matched str position (a ++ b)
  = a ++ getSubstitution matched str position b.
Proof.
  induction a as [|c a IH]; intros Hd; [done|].
  apply not_elem_of_cons in Hd as [Hc Hd]. simpl.
  destruct (N.eqb_spec c dollar) as [->|_]; [done|]. by rewrite IH.
Qed.

(** Where the run function stands: from the first [export async function
    run()] to the last closing brace, when there is one behind it. *)
Lemma run_function_found (ts : JsString) s e :
  indexOf ts runMark 0 = Z.of_nat s →
  lastIndexOf ts (lit "}") = Z.of_nat e →
  (s ≤ e)%nat →
  (S e ≤ length ts)%nat ∧
  slice ts (Z.of_nat s) (Z.of_nat e + 1) = take (S e - s) (drop s ts) ∧
  index_of (take (S e - s) (drop s ts)) ts 0 = Some s ∧
  length (take (S e - s) (drop s ts)) = (S e - s)%nat.
Proof.
  rewrite indexOf_0, number_nat. unfold lastIndexOf. rewrite number_nat.
  intros (k & Hk & Hlen & Hmark & Hfirst)%index_of_Some Hlast Hse.
  simpl in Hk. subst k.
  apply last_index_of_Some in Hlast as (k & Hk & Hlen' & Hbrace).
  simpl in Hk. subst k.
  apply startsWith_spec in Hbrace as [rest Hbrace].
  assert (He : (S e ≤ length ts)%nat).
  { apply (f_equal length) in Hbrace. rewrite length_drop in Hbrace.
    simpl in Hbrace. lia. }
  assert (Hts_e : ts !! e = Some 125%N).
  { pose proof (lookup_drop ts e 0) as Hl.
    rewrite Hbrace, Nat.add_0_r in Hl. by rewrite <-Hl. }
  apply startsWith_spec in Hmark as [rest' Hmark].
  assert (Hlong : (s + length runMark ≤ e)%nat).
  { destruct (decide (s + length runMark ≤ e)%nat) as [|Hshort]; [done|].
    exfalso.
    assert (Hin : runMark !! (e - s)%nat = Some 125%N).
    { rewrite <-(lookup_app_l runMark rest') by lia.
      rewrite <-Hmark, lookup_drop.
      by replace (s + (e - s))%nat with e by lia. }
    apply list_elem_of_lookup_2 in Hin. revert Hin. vm_compute.
    intros Hin. repeat (apply elem_of_cons in Hin as [[=]|Hin]).
    by apply elem_of_nil in Hin. }
  split; [done|]. split; [|split].
  - unfold slice, relative_index.
    rewrite !(proj2 (Z.ltb_ge _ _)) by lia.
    rewrite Nat2Z.id, !Nat.min_l by lia. do 2 f_equal. lia.
  - apply index_of_Some. exists s. split; [done|]. split; [lia|].
    split; [apply startsWith_take|].
    intros k' Hk'. destruct (startsWith _ (drop k' ts)) eqn:Hocc; [|done].
    rewrite <-(Hfirst k' Hk'). symmetry.
    apply startsWith_spec in Hocc as [rest'' Hocc].
    apply startsWith_spec.
    exists (drop (length runMark) (take (S e - s) (drop s ts)) ++ rest'').
    rewrite Hocc, app_assoc. f_equal.
    rewrite <-(take_drop (length runMark) (take (S e - s) (drop s ts))) at 1.
    f_equal. rewrite take_take, Nat.min_l by lia.
    by rewrite Hmark, take_app_length.
  - rewrite length_take, length_drop. lia.
Qed.

(** The replacement of the run function, [modifiedTsContent] before the
    loop over the function names: the generated code takes the place of
    everything from the first [export async function run()] to the last
    closing brace. *)
Lemma replaceRunFunction_spliced (ts code : JsString) s e :
  indexOf ts runMark 0 = Z.of_nat s →
  lastIndexOf ts (lit "}") = Z.of_nat e →
  (s ≤ e)%nat →
  dollar ∉ code →
  replaceRunFunction ts code = take s ts ++ code ++ drop (S e) ts.
Proof.
  intros Hs He Hse Hcode.
  destruct (run_function_found ts s e Hs He Hse) as (Hlen & Hslice & Hidx & Hl).
  unfold replaceRunFunction. rewrite Hs, He, Hslice.
  rewrite decide_True by lia. unfold replace. rewrite Hidx, Hl.
  rewrite getSubstitution_plain by done. do 3 f_equal. lia.
Qed.

(** X26.  In the generated code that takes the place of the run function,
    [$&] is not kept: the whole old run function is put in its place. *)
Theorem replaceRunFunction_expands_dollar (ts a b : JsString) s e :
  indexOf ts runMark 0 = Z.of_nat s →
  lastIndexOf ts (lit "}") = Z.of_nat e →
  (s ≤ e)%nat →
  dollar ∉ a → dollar ∉ b →
  replaceRunFunction ts (a ++ lit "$&" ++ b)
  = take s ts ++ (a ++ take (S e - s) (drop s ts) ++ b) ++ drop (S e) ts.
Proof.
  intros Hs He Hse Ha Hb.
  destruct (run_function_found ts s e Hs He Hse) as (Hlen & Hslice & Hidx & Hl).
  unfold replaceRunFunction. rewrite Hs, He, Hslice.
  rewrite decide_True by lia. unfold replace. rewrite Hidx, Hl.
  rewrite getSubstitution_app by done.
  change (lit "$&" ++ b) with (dollar :: 38%N :: b).
  cbn [getSubstitution]. change (dollar =? dollar)%N with true.
  change (38 =? 36)%N with false. change (38 =? 38)%N with true. cbn iota.
  rewrite getSubstitution_plain by done. do 3 f_equal. lia.
Qed.

(** Without a closing brace behind [export async function run()] the
    text replaced is empty, and the generated code is put in front. *)
Lemma replaceRunFunction_prepended (ts code : JsString) s :
  indexOf ts runMark 0 = Z.of_nat s →
  lastIndexOf ts (lit "}") < Z.of_nat s →
  dollar ∉ code →
  replaceRunFunction ts code = code ++ ts.
Proof.
  intros Hs He Hcode. unfold replaceRunFunction. rewrite Hs.
  rewrite decide_True by lia.
  assert (Hslice : slice ts (Z.of_nat s) (lastIndexOf ts (lit "}") + 1) = []).
  { assert (-1 ≤ lastIndexOf ts (lit "}")).
    { unfold lastIndexOf, number. destruct (last_index_of _ _ _); lia. }
    unfold slice, relative_index.
    rewrite !(proj2 (Z.ltb_ge _ _)) by lia.
    replace (_ - _)%nat with 0%nat by lia. done. }
  rewrite Hslice. unfold replace.
  replace (index_of [] ts 0) with (Some 0%nat) by (by destruct ts).
  simpl. by rewrite getSubstitution_plain.
Qed.

Lemma word_is_word (s : JsString) : Forall (λ c, is_word c = true) (word s).
Proof.
  induction s as [|c s IH]; simpl; [done|].
  destruct (is_word c) eqn:Hc; [by constructor|done].
Qed.

Lemma matches_function (s : JsString) : ∀ skip,
  Forall (λ func, ∃ name, func = lit "function " ++ name ∧ name ≠ [] ∧
                          name = word name)
         (matches s skip).
Proof.
  assert (Hword : ∀ s' : JsString, word (word s') = word s').
  { induction s' as [|c s' IH]; simpl; [done|].
    destruct (is_word c) eqn:Hc; [|done]. simpl. by rewrite Hc, IH. }
  induction s as [|c s IH]; intros skip; [done|].
  cbn [matches]. destruct skip as [|k]; [|apply IH].
  destruct (startsWith _ _); [|apply IH].
  destruct (word (drop 9 (c :: s))) as [|d name] eqn:Hname; [apply IH|].
  constructor; [|apply IH].
  exists (d :: name). split; [done|]. split; [done|].
  by rewrite <-Hname, Hword.
Qed.

(** The names the loop runs over have no dollar sign: they are words. *)
Lemma newFunctionNames_plain (generatedCode : JsString) :
  Forall (λ name, dollar ∉ name) (newFunctionNames generatedCode).
Proof.
  unfold newFunctionNames, match_functionRegex.
  pose proof (matches_function generatedCode 0) as Hall.
  destruct (matches generatedCode 0) as [|func found]; [done|].
  cbn [fmap option_fmap option_map default].
  apply Forall_fmap. eapply Forall_impl; [exact Hall|].
  intros func' (name & -> & Hne & Hw). cbv beta.
  assert (Hrep : replace (lit "function " ++ name) (lit "function ") []
                 = name).
  { unfold replace.
    replace (index_of (lit "function ") (lit "function " ++ name) 0)
      with (Some 0%nat); [done|].
    symmetry. apply index_of_Some. exists 0%nat.
    split; [done|]. split; [lia|]. split; [|intros; lia].
    apply startsWith_spec. by exists name. }
  unfold compose. rewrite Hrep.
  assert (Hwords : Forall (λ c, is_word c = true) name).
  { rewrite Hw. apply word_is_word. }
  intros Hin. by apply (proj1 (Forall_forall _ _) Hwords) in Hin.
Qed.

Lemma handler_plain (name : JsString) : dollar ∉ name → dollar ∉ handler name.
Proof.
  intros Hname. unfold handler. rewrite !not_elem_of_app.
  assert (Hlit : ∀ l : JsString, forallb (λ c, negb (c =? dollar)%N) l = true →
                 dollar ∉ l).
  { intros l Hl Hin. rewrite forallb_forall in Hl.
    apply list_elem_of_In, Hl in Hin. by rewrite N.eqb_refl in Hin. }
  repeat split; try done; by apply Hlit.
Qed.

(** A turn of the loop with a name without dollar sign: the first
    [document.getElementById("run").onclick = run] of the text, if there
    is one, is replaced by the line of the name. *)
Lemma loop_body_ts (t html name : JsString) :
  dollar ∉ name →
  (loop_body (t, html) name).1
  = match index_of runHandler t 0 with
    | Some m => take m t ++ handler name ++ drop (m + length runHandler) t
    | None => t
    end.
Proof.
  intros Hname. unfold loop_body. cbn [fst]. rewrite indexOf_0.
  destruct (index_of runHandler t 0) as [m|] eqn:Hidx; simpl number.
  - rewrite decide_True by lia.
    pose proof Hidx as (k & Hk & Hlen & Hocc & _)%index_of_Some.
    simpl in Hk. subst k. apply startsWith_spec in Hocc as [rest Hocc].
    assert (Hm : (m + length runHandler ≤ length t)%nat).
    { apply (f_equal length) in Hocc.
      rewrite length_drop, length_app in Hocc. lia. }
    assert (Hslice : slice t (Z.of_nat m)
                       (Z.of_nat m + Z.of_nat (length runHandler))
                     = runHandler).
    { unfold slice, relative_index.
      rewrite !(proj2 (Z.ltb_ge _ _)) by lia.
      rewrite Nat2Z.id.
      replace (m `min` length t)%nat with m by lia.
      replace (_ `min` length t - m)%nat with (length runHandler) by lia.
      by rewrite Hocc, take_app_length. }
    rewrite Hslice. unfold replace. rewrite Hidx.
    by rewrite getSubstitution_plain by by apply handler_plain.
  - by rewrite decide_False by lia.
Qed.

(** What the loop leaves of the text for [taskpane.ts], in the two cases
    that it has nothing to rewire, and that it rewires one line to the
    first name and finds no other. *)
Lemma loop_writes_ts (names : list JsString) : ∀ (t html : JsString),
  Forall (λ name, dollar ∉ name) names →
  ((names = [] ∨ indexOf t runHandler 0 = -1) →
   (foldl loop_body (t, html) names).1 = t) ∧
  (∀ name rest m,
     names = name :: rest →
     indexOf t runHandler 0 = Z.of_nat m →
     indexOf (take m t ++ handler name ++ drop (m + length runHandler) t)
             runHandler 0 = -1 →
     (foldl loop_body (t, html) names).1
     = take m t ++ handler name ++ drop (m + length runHandler) t).
Proof.
  assert (Hnone : ∀ (names : list JsString) (t html : JsString),
            Forall (λ name, dollar ∉ name) names →
            indexOf t runHandler 0 = -1 →
            (foldl loop_body (t, html) names).1 = t).
  { clear names. induction names as [|name names IH]; intros t html Hp Hno;
      [done|].
    apply Forall_cons in Hp as [Hname Hp].
    change (foldl loop_body (t, html) (name :: names))
      with (foldl loop_body (loop_body (t, html) name) names).
    pose proof (loop_body_ts t html name Hname) as Hts.
    rewrite indexOf_0 in Hno.
    destruct (index_of runHandler t 0) as [m|] eqn:Hidx;
      simpl number in Hno; [lia|].
    destruct (loop_body (t, html) name) as [t' html']. cbn [fst] in Hts.
    subst t'. apply IH; [done|]. by rewrite indexOf_0, Hidx. }
  intros t html Hp. split.
  - intros [->|Hno]; [done|]. by apply Hnone.
  - intros name rest m -> Hm Hno.
    apply Forall_cons in Hp as [Hname Hp].
    change (foldl loop_body (t, html) (name :: rest))
      with (foldl loop_body (loop_body (t, html) name) rest).
    pose proof (loop_body_ts t html name Hname) as Hts.
    rewrite indexOf_0 in Hm. apply number_nat in Hm. rewrite Hm in Hts.
    destruct (loop_body (t, html) name) as [t' html']. cbn [fst] in Hts.
    subst t'. by apply Hnone.
Qed.

(** X25.  What [modifyFile] writes to [taskpane.ts] when the file has
    [export async function run()] and a closing brace behind it, and the
    generated code has no dollar sign.  The generated code takes the
    place of everything from the first [export async function run()] to
    the last closing brace of the file.  The result is written as it is
    when the generated code declares no function or the result has no
    line [document.getElementById("run").onclick = run]; otherwise the
    first such line is rewired to the first function the generated code
    declares, and that is all when no such line is left. *)
Theorem modifyFile_replaces_run_function (ts html code : JsString) s e :
  indexOf ts runMark 0 = Z.of_nat s →
  lastIndexOf ts (lit "}") = Z.of_nat e →
  (s ≤ e)%nat →
  dollar ∉ code →
  let t := take s ts ++ code ++ drop (S e) ts in
  ((newFunctionNames code = [] ∨ indexOf t runHandler 0 = -1) →
   (modifyFile ts html code).1 = t) ∧
  (∀ name rest m,
     newFunctionNames code = name :: rest →
     indexOf t runHandler 0 = Z.of_nat m →
     indexOf (take m t ++ handler name ++ drop (m + length runHandler) t)
             runHandler 0 = -1 →
     (modifyFile ts html code).1
     = take m t ++ handler name ++ drop (m + length runHandler) t).
Proof.
  intros Hs He Hse Hcode t. unfold modifyFile.
  rewrite (replaceRunFunction_spliced ts code s e Hs He Hse Hcode).
  apply loop_writes_ts, newFunctionNames_plain.
Qed.

(** X27.  What [modifyFile] writes to [taskpane.ts] when the file has
    [export async function run()] but no closing brace behind it, and
    the generated code has no dollar sign.  Nothing is replaced: the
    generated code is put in front of the whole old text.  The result is
    written as it is when the generated code declares no function or the
    result has no line [document.getElementById("run").onclick = run];
    otherwise the first such line is rewired to the first function the
    generated code declares, and that is all when no such line is
    left. *)
Theorem modifyFile_prepends (ts html code : JsString) s :
  indexOf ts runMark 0 = Z.of_nat s →
  lastIndexOf ts (lit "}") < Z.of_nat s →
  dollar ∉ code →
  let t := code ++ ts in
  ((newFunctionNames code = [] ∨ indexOf t runHandler 0 = -1) →
   (modifyFile ts html code).1 = t) ∧
  (∀ name rest m,
     newFunctionNames code = name :: rest →
     indexOf t runHandler 0 = Z.of_nat m →
     indexOf (take m t ++ handler name ++ drop (m + length runHandler) t)
             runHandler 0 = -1 →
     (modifyFile ts html code).1
     = take m t ++ handler name ++ drop (m + length runHandler) t).
Proof.
  intros Hs He Hcode t. unfold modifyFile.
  rewrite (replaceRunFunction_prepended ts code s Hs He Hcode).
  apply loop_writes_ts, newFunctionNames_plain.
Qed.

Lemma modifyFile_replaces_run_function_witness :
  let ts := lit "Office.onReady(() => { " ++ runHandler ++ lit "; });"
            ++ lit "export async function run() { old }" in
  let code := lit "export async function hello() { }" in
  (modifyFile ts (lit "<p>") code).1
  = lit "Office.onReady(() => { " ++ handler (lit "hello") ++ lit "; });"
    ++ code.
Proof.
  intros ts code.
  assert (Hplain : dollar ∉ code).
  { vm_compute. intros Hin.
    repeat (apply elem_of_cons in Hin as [[=]|Hin]).
    by apply elem_of_nil in Hin. }
  exact (proj2 (modifyFile_replaces_run_function ts (lit "<p>") code
                  72 106 eq_refl eq_refl ltac:(lia) Hplain)
           (lit "hello") [] 23%nat eq_refl eq_refl eq_refl).
Defined.

Lemma replaceRunFunction_expands_dollar_witness :
  replaceRunFunction (lit "a;export async function run() { x }z")
    (lit "f(" ++ lit "$&" ++ lit ")")
  = lit "a;f(export async function run() { x })z".
Proof.
  assert (Ha : dollar ∉ lit "f(").
  { vm_compute. intros Hin.
    repeat (apply elem_of_cons in Hin as [[=]|Hin]).
    by apply elem_of_nil in Hin. }
  assert (Hb : dollar ∉ lit ")").
  { vm_compute. intros Hin.
    repeat (apply elem_of_cons in Hin as [[=]|Hin]).
    by apply elem_of_nil in Hin. }
  exact (replaceRunFunction_expands_dollar
           (lit "a;export async function run() { x }z") (lit "f(") (lit ")")
           2 34 eq_refl eq_refl ltac:(lia) Ha Hb).
Defined.

Lemma modifyFile_prepends_witness :
  let ts := lit "}" ++ runHandler ++ lit ";export async function run()" in
  let code := lit "function f(){1}" in
  (modifyFile ts (lit "<p>") code).1
  = code ++ lit "}" ++ handler (lit "f")
    ++ lit ";export async function run()".
Proof.
  intros ts code.
  assert (Hplain : dollar ∉ code).
  { vm_compute. intros Hin.
    repeat (apply elem_of_cons in Hin as [[=]|Hin]).
    by apply elem_of_nil in Hin. }
  exact (proj2 (modifyFile_prepends ts (lit "<p>") code
                  46 eq_refl eq_refl Hplain)
           (lit "f") [] 16%nat eq_refl eq_refl eq_refl).
Defined.
End ModifyFacts.
